(** * Cryptolab: classical ciphers (Caesar, Affine, Playfair, Hill)

    A shallow embedding of [backend/app/utils/math_utils.py] and of the four
    cipher classes under [backend/app/ciphers/], followed by the properties
    established about them.

    Conventions of the embedding.
    - A Python [int] is a [Z]; [%] and [//] are floor operations, which is
      what [Z.modulo] and [Z.div] compute.
    - A Python [str] is the list of its code points ([text := list Z]); a
      character is a code point.
    - A Python exception is a value [Raise e] of the result monad [Res]:
      indexing, [chr] out of range, arithmetic on [None], a missing key, and
      [%] by zero raise. Where the divisor of [%] or [//] is a non-zero
      literal or is guarded by a test against zero, the operation is
      written with [Z.modulo] and [Z.div] directly.
    - [str.isalpha] and [str.upper] are Unicode-aware; their tables are
      embedded for U+0000..U+00FF (see [Py.isalpha]).
    - The dictionaries returned by the ciphers are used as records: each
      becomes a record (or a variant per set of keys). Keys whose value is
      an f-string rendering of other fields ("calculation", "formula",
      "description", "reason") are represented by the values they
      interpolate. *)

From Equations Require Import Equations.
From stdpp Require Import base gmap sets list.
From Stdlib Require Import ZArith Lia Znumtheory.
From Stdlib Require String Ascii.
Import String.StringSyntax Ascii.AsciiSyntax.
Delimit Scope char_scope with char.
Delimit Scope string_scope with string.

Local Open Scope Z_scope.

(* ===================================================================== *)
(** * Python runtime: exceptions, sequences, characters *)
(* ===================================================================== *)

Module Py.

Inductive exn : Type :=
| IndexError
| ZeroDivisionError
| ValueError
| TypeError
| KeyError.

Inductive Res (A : Type) : Type :=
| Ok (a : A)
| Raise (e : exn).

Arguments Ok {A} a.
Arguments Raise {A} e.

Definition bind {A B : Type} (c : Res A) (k : A -> Res B) : Res B :=
  match c with
  | Ok a => k a
  | Raise e => Raise e
  end.

(** [for x in l: acc = body(acc, x)], stopping at the first exception. *)
Fixpoint foldM {A S : Type} (body : S -> A -> Res S) (l : list A) (acc : S) : Res S :=
  match l with
  | [] => Ok acc
  | x :: l' => bind (body acc x) (foldM body l')
  end.

(** A string is the list of its code points. *)
Abbreviation text := (list Z).

Definition len {A : Type} (l : list A) : Z := Z.of_nat (length l).

(** [l[i]]: indices in [[-len, len)] are valid, negative ones count from the
    end, all others raise [IndexError]. *)
Definition getitem {A : Type} (l : list A) (i : Z) : Res A :=
  let j := if i <? 0 then i + len l else i in
  if j <? 0 then Raise IndexError
  else match nth_error l (Z.to_nat j) with
       | Some x => Ok x
       | None => Raise IndexError
       end.

(** [M[i][j]] *)
Definition getitem2 {A : Type} (M : list (list A)) (i j : Z) : Res A :=
  bind (getitem M i) (fun row => getitem row j).

(** [enumerate(l)] *)
Definition enumerate {A : Type} (l : list A) : list (Z * A) :=
  combine (map Z.of_nat (seq 0 (length l))) l.

(** Normalisation of one bound of a slice [l[lo:hi]]. *)
Definition slice_bound (n i : Z) : Z :=
  Z.max 0 (Z.min n (if i <? 0 then i + n else i)).

(** [l[lo:hi]]: never raises, bounds are clamped. *)
Definition slice {A : Type} (l : list A) (lo hi : Z) : list A :=
  let lo' := slice_bound (len l) lo in
  let hi' := slice_bound (len l) hi in
  firstn (Z.to_nat (hi' - lo')) (skipn (Z.to_nat lo') l).

(** [range(start, stop, step)] for a positive [step]. *)
Definition range (start stop step : Z) : list Z :=
  map (fun k : nat => start + step * Z.of_nat k)
      (seq 0 (Z.to_nat ((stop - start + step - 1) / step))).

(** [n % m] *)
Definition rem (n m : Z) : Res Z :=
  if m =? 0 then Raise ZeroDivisionError else Ok (n mod m).

(** [ord(c)] of a one-character string, and [chr(n)]. *)
Definition ord (c : Z) : Z := c.

Definition chr (n : Z) : Res Z :=
  if (0 <=? n) && (n <? 1114112) then Ok n else Raise ValueError.

(** Code point of an ASCII character literal, code points of an ASCII
    string literal. *)
Definition ch (a : Ascii.ascii) : Z := Z.of_nat (Ascii.nat_of_ascii a).
Arguments ch a%_char.

Definition str (s : String.string) : text :=
  map ch (String.list_ascii_of_string s).
Arguments str s%_string.

Definition in_range (lo hi c : Z) : bool := (lo <=? c) && (c <=? hi).

Definition ascii_upper (c : Z) : bool := in_range 65 90 c.
Definition ascii_lower (c : Z) : bool := in_range 97 122 c.
Definition ascii_letter (c : Z) : bool := ascii_upper c || ascii_lower c.

(** [c.isalpha()] for one character. The table is Python's (the Unicode letter
    categories) on U+0000..U+00FF, together with the two code points
    outside that block that [upper] produces from it (U+0178, U+039C).
    Other code points are outside the table and are treated as caseless
    non-letters; the statements below that quantify over texts say which
    code points they cover. *)
Definition isalpha (c : Z) : bool :=
  ascii_letter c
  || (c =? 170) || (c =? 181) || (c =? 186)
  || in_range 192 214 c || in_range 216 246 c || in_range 248 255 c
  || (c =? 376) || (c =? 924).

(** [c.upper()] for one character, on the same table; the result is a
    string because U+00DF uppercases to two letters. *)
Definition upper_char (c : Z) : text :=
  if ascii_lower c then [c - 32]
  else if c =? 181 then [924]
  else if c =? 223 then [83; 83]
  else if in_range 224 246 c || in_range 248 254 c then [c - 32]
  else if c =? 255 then [376]
  else [c].

(** [s.upper()] *)
Definition upper (s : text) : text := flat_map upper_char s.

(** [s.replace(a, b)] for one-character [a] and [b]. *)
Definition replace (a b : Z) (s : text) : text :=
  map (fun c => if c =? a then b else c) s.

(** [''.join(c for c in s if c.isalpha())] *)
Definition letters_only (s : text) : text := filter (fun c => isalpha c = true) s.

End Py.

Import Py.

Notation "x <- c ;; k" := (bind c (fun x => k))
  (at level 20, c at level 99, k at level 200, only parsing).
Notation "' pat <- c ;; k" := (bind c (fun x => match x with pat => k end))
  (at level 20, pat pattern, c at level 99, k at level 200, only parsing).

(* ===================================================================== *)
(** * backend/app/utils/math_utils.py *)
(* ===================================================================== *)

Module math_utils.

(** A matrix is a list of rows, as in the source ([List[List[int]]]). *)
Definition matrix : Type := list (list Z).

Definition at2 (M : matrix) (i j : Z) : Res Z := getitem2 M i j.

(** [mod(n, m)]: [((n % m) + m) % m]. ([mod] is reserved in Rocq.) *)
Definition mod_ (n m : Z) : Res Z :=
  r <- rem n m ;; rem (r + m) m.

(** The loop of [gcd]: [while b: a, b = b, a % b]. The divisor of [%] is
    non-zero by the loop test. *)
Equations? gcd_loop (a b : Z) : Z by wf (Z.abs_nat b) lt :=
  gcd_loop a b with Z.eq_dec b 0 => {
    | left _ := a;
    | right _ := gcd_loop b (a mod b) }.
Proof.
  pose proof (Z.mod_bound_or a b). lia.
Qed.

Definition gcd (a b : Z) : Z := gcd_loop (Z.abs a) (Z.abs b).

(** [extended_gcd]: the divisor of [%] and [//] is non-zero by the test on
    [a]. *)
Equations? extended_gcd (a b : Z) : Z * Z * Z by wf (Z.abs_nat a) lt :=
  extended_gcd a b with Z.eq_dec a 0 => {
    | left _ := (b, 0, 1);
    | right _ :=
        let '(gcd_val, x1, y1) := extended_gcd (b mod a) a in
        let x := y1 - (b / a) * x1 in
        let y := x1 in
        (gcd_val, x, y) }.
Proof.
  pose proof (Z.mod_bound_or b a). lia.
Qed.

Definition mod_inverse (a m : Z) : Res (option Z) :=
  am <- mod_ a m ;;
  let '(gcd_val, x, _) := extended_gcd am m in
  if negb (gcd_val =? 1) then Ok None
  else r <- mod_ x m ;; Ok (Some r).

Definition matrix_multiply_mod (A B : matrix) (m : Z) : Res matrix :=
  a00 <- at2 A 0 0 ;; b00 <- at2 B 0 0 ;; a01 <- at2 A 0 1 ;; b10 <- at2 B 1 0 ;;
  r00 <- mod_ (a00 * b00 + a01 * b10) m ;;
  b01 <- at2 B 0 1 ;; b11 <- at2 B 1 1 ;;
  r01 <- mod_ (a00 * b01 + a01 * b11) m ;;
  a10 <- at2 A 1 0 ;; a11 <- at2 A 1 1 ;;
  r10 <- mod_ (a10 * b00 + a11 * b10) m ;;
  r11 <- mod_ (a10 * b01 + a11 * b11) m ;;
  Ok [[r00; r01]; [r10; r11]].

Definition matrix_vector_multiply_mod (M : matrix) (v : list Z) (m : Z) : Res (list Z) :=
  m00 <- at2 M 0 0 ;; v0 <- getitem v 0 ;; m01 <- at2 M 0 1 ;; v1 <- getitem v 1 ;;
  r0 <- mod_ (m00 * v0 + m01 * v1) m ;;
  m10 <- at2 M 1 0 ;; m11 <- at2 M 1 1 ;;
  r1 <- mod_ (m10 * v0 + m11 * v1) m ;;
  Ok [r0; r1].

Definition determinant_2x2 (M : matrix) : Res Z :=
  m00 <- at2 M 0 0 ;; m11 <- at2 M 1 1 ;; m01 <- at2 M 0 1 ;; m10 <- at2 M 1 0 ;;
  Ok (m00 * m11 - m01 * m10).

Definition matrix_inverse_mod_26 (M : matrix) : Res (option matrix) :=
  det <- determinant_2x2 M ;;
  det_mod <- mod_ det 26 ;;
  det_inv <- mod_inverse det_mod 26 ;;
  match det_inv with
  | None => Ok None
  | Some det_inv =>
      m11 <- at2 M 1 1 ;; m01 <- at2 M 0 1 ;; m10 <- at2 M 1 0 ;; m00 <- at2 M 0 0 ;;
      let adjugate := [[m11; - m01]; [- m10; m00]] in
      a00 <- at2 adjugate 0 0 ;; i00 <- mod_ (det_inv * a00) 26 ;;
      a01 <- at2 adjugate 0 1 ;; i01 <- mod_ (det_inv * a01) 26 ;;
      a10 <- at2 adjugate 1 0 ;; i10 <- mod_ (det_inv * a10) 26 ;;
      a11 <- at2 adjugate 1 1 ;; i11 <- mod_ (det_inv * a11) 26 ;;
      Ok (Some [[i00; i01]; [i10; i11]])
  end.

Definition is_matrix_invertible_mod_26 (M : matrix) : Res bool :=
  d <- determinant_2x2 M ;;
  det <- mod_ d 26 ;;
  Ok (gcd det 26 =? 1).

End math_utils.

Import math_utils.

Inductive operation : Type := Encrypt | Decrypt.

(* ===================================================================== *)
(** * backend/app/ciphers/caesar.py *)
(* ===================================================================== *)

Module CaesarCipher.

(** One trace record; the last field is the key "encrypted" or "decrypted". *)
Record Step : Type := mkStep {
  original : Z;
  original_pos : Z;
  step_shift : Z;
  new_pos : Z;
  converted : Z
}.

Record Result : Type := mkResult {
  result : text;
  steps : list Step;
  shift : Z;
  op : operation
}.

(** Body of the loop of [encrypt]; the state is [(result, steps)]. *)
Definition encrypt_char (shift : Z) (st : text * list Step) (char : Z)
  : Res (text * list Step) :=
  let '(result, steps) := st in
  if isalpha char then
    let original_pos := ord char - ord (ch "A") in
    new_pos <- mod_ (original_pos + shift) 26 ;;
    new_char <- chr (new_pos + ord (ch "A")) ;;
    Ok (result ++ [new_char],
        steps ++ [mkStep char original_pos shift new_pos new_char])
  else
    Ok (result ++ [char], steps).

Definition encrypt (plaintext : text) (shift : Z) : Res Result :=
  shift <- mod_ shift 26 ;;
  '(result, steps) <- foldM (encrypt_char shift) (upper plaintext) ([], []) ;;
  Ok (mkResult result steps shift Encrypt).

Definition decrypt_char (shift : Z) (st : text * list Step) (char : Z)
  : Res (text * list Step) :=
  let '(result, steps) := st in
  if isalpha char then
    let original_pos := ord char - ord (ch "A") in
    new_pos <- mod_ (original_pos - shift) 26 ;;
    new_char <- chr (new_pos + ord (ch "A")) ;;
    Ok (result ++ [new_char],
        steps ++ [mkStep char original_pos shift new_pos new_char])
  else
    Ok (result ++ [char], steps).

Definition decrypt (ciphertext : text) (shift : Z) : Res Result :=
  shift <- mod_ shift 26 ;;
  '(result, steps) <- foldM (decrypt_char shift) (upper ciphertext) ([], []) ;;
  Ok (mkResult result steps shift Decrypt).

(** The dictionary is a finite map from letters to letters. *)
Definition get_alphabet_mapping (shift : Z) : Res (gmap Z Z) :=
  shift <- mod_ shift 26 ;;
  foldM (fun mapping i =>
           original <- chr (i + ord (ch "A")) ;;
           p <- mod_ (i + shift) 26 ;;
           encrypted <- chr (p + ord (ch "A")) ;;
           Ok (<[original := encrypted]> mapping))
        (range 0 26 1) ∅.

End CaesarCipher.

(* ===================================================================== *)
(** * backend/app/ciphers/affine.py *)
(* ===================================================================== *)

Module AffineCipher.

Definition VALID_A_VALUES : list Z := [1; 3; 5; 7; 9; 11; 15; 17; 19; 21; 23; 25].

Definition is_valid_key (a : Z) : bool := gcd a 26 =? 1.

Definition get_inverse (a : Z) : Res (option Z) := mod_inverse a 26.

(** One trace record, with the keys of each direction. *)
Inductive Step : Type :=
| EncStep (original x a b encrypted_pos encrypted : Z)
| DecStep (original y : Z) (a_inverse : option Z) (b decrypted_pos decrypted : Z).

Record Result : Type := mkResult {
  result : text;
  steps : list Step;
  key_a : Z;
  key_b : Z;
  a_inverse : option Z;
  op : operation
}.

(** The two shapes of the returned dictionary: the one with the keys
    "error" and "valid_a_values" (the message interpolates [a]), and the one
    with "result". *)
Inductive Outcome : Type :=
| InvalidKey (a : Z) (valid_a_values : list Z)
| Done (r : Result).

Definition encrypt_char (a b : Z) (st : text * list Step) (char : Z)
  : Res (text * list Step) :=
  let '(result, steps) := st in
  if isalpha char then
    let x := ord char - ord (ch "A") in
    encrypted_pos <- mod_ (a * x + b) 26 ;;
    encrypted_char <- chr (encrypted_pos + ord (ch "A")) ;;
    Ok (result ++ [encrypted_char],
        steps ++ [EncStep char x a b encrypted_pos encrypted_char])
  else
    Ok (result ++ [char], steps).

Definition encrypt (plaintext : text) (a b : Z) : Res Outcome :=
  if negb (is_valid_key a) then Ok (InvalidKey a VALID_A_VALUES)
  else
    b <- mod_ b 26 ;;
    '(result, steps) <- foldM (encrypt_char a b) (upper plaintext) ([], []) ;;
    a_inverse <- get_inverse a ;;
    Ok (Done (mkResult result steps a b a_inverse Encrypt)).

(** [a_inverse * (y - b)] where [a_inverse] may be [None]. *)
Definition mul_opt (a_inverse : option Z) (n : Z) : Res Z :=
  match a_inverse with
  | Some i => Ok (i * n)
  | None => Raise TypeError
  end.

Definition decrypt_char (a_inverse : option Z) (b : Z) (st : text * list Step) (char : Z)
  : Res (text * list Step) :=
  let '(result, steps) := st in
  if isalpha char then
    let y := ord char - ord (ch "A") in
    prod <- mul_opt a_inverse (y - b) ;;
    decrypted_pos <- mod_ prod 26 ;;
    decrypted_char <- chr (decrypted_pos + ord (ch "A")) ;;
    Ok (result ++ [decrypted_char],
        steps ++ [DecStep char y a_inverse b decrypted_pos decrypted_char])
  else
    Ok (result ++ [char], steps).

Definition decrypt (ciphertext : text) (a b : Z) : Res Outcome :=
  if negb (is_valid_key a) then Ok (InvalidKey a VALID_A_VALUES)
  else
    a_inverse <- get_inverse a ;;
    b <- mod_ b 26 ;;
    '(result, steps) <- foldM (decrypt_char a_inverse b) (upper ciphertext) ([], []) ;;
    Ok (Done (mkResult result steps a b a_inverse Decrypt)).

Definition get_alphabet_mapping (a b : Z) : Res (option (gmap Z Z)) :=
  if negb (is_valid_key a) then Ok None
  else
    mapping <- foldM (fun mapping i =>
                        original <- chr (i + ord (ch "A")) ;;
                        encrypted_pos <- mod_ (a * i + b) 26 ;;
                        encrypted <- chr (encrypted_pos + ord (ch "A")) ;;
                        Ok (<[original := encrypted]> mapping))
                     (range 0 26 1) ∅ ;;
    Ok (Some mapping).

End AffineCipher.

(* ===================================================================== *)
(** * backend/app/ciphers/playfair.py *)
(* ===================================================================== *)

Module PlayfairCipher.

(** The key square: a list of rows of one-character strings. *)
Definition grid : Type := list (list Z).

(** The alphabet of the second loop of [generate_matrix] (no J). *)
Definition ALPHABET : text := str "ABCDEFGHIKLMNOPQRSTUVWXYZ".

(** Body of both loops of [generate_matrix]; the state is
    [(seen, matrix_chars)]. *)
Definition add_char (st : gset Z * list Z) (char : Z) : gset Z * list Z :=
  let '(seen, matrix_chars) := st in
  if decide (char ∈ seen) then st
  else ({[ char ]} ∪ seen, matrix_chars ++ [char]).

Definition generate_matrix (keyword : text) : grid :=
  let keyword := replace (ch "J") (ch "I") (upper keyword) in
  let keyword := letters_only keyword in
  let st := fold_left add_char keyword (∅, []) in
  let '(_, matrix_chars) := fold_left add_char ALPHABET st in
  map (fun i => slice matrix_chars i (i + 5)) (range 0 25 5).

(** The nested loops of [find_position] over the cells in row-major
    order; [(-1, -1)] when the loops end. *)
Fixpoint scan (matrix : grid) (char : text) (cells : list (Z * Z)) : Res (Z * Z) :=
  match cells with
  | [] => Ok (-1, -1)
  | (row, col) :: rest =>
      c <- getitem2 matrix row col ;;
      if bool_decide ([c] = char) then Ok (row, col) else scan matrix char rest
  end.

Definition find_position (matrix : grid) (char : text) : Res (Z * Z) :=
  let char := upper char in
  let char := if bool_decide (char = str "J") then str "I" else char in
  scan matrix char
       (flat_map (fun row => map (fun col => (row, col)) (range 0 5 1)) (range 0 5 1)).

(** The [while i < len(text)] loop of [prepare_text]; the argument is the
    unread part [text[i:]], so [i += 1] passes [rest] and [i += 2] passes
    [rest']. *)
Fixpoint pair_up (unread : text) : list text :=
  match unread with
  | [] => []
  | first :: rest =>
      match rest with
      | [] => [first; ch "X"] :: pair_up rest
      | next :: rest' =>
          if first =? next then [first; ch "X"] :: pair_up rest
          else [first; next] :: pair_up rest'
      end
  end.

Definition prepare_text (s : text) : list text :=
  let s := replace (ch "J") (ch "I") (upper s) in
  let s := letters_only s in
  pair_up s.

Inductive Rule : Type := SameRow | SameColumn | Rectangle.

(** One trace record; [converted] is the key "encrypted" or "decrypted". *)
Record Step : Type := mkStep {
  digraph : text;
  pos1 : Z * Z;
  pos2 : Z * Z;
  rule : Rule;
  converted : text
}.

(** The returned dictionary; "prepared_text" is present when encrypting
    only. *)
Record Result : Type := mkResult {
  result : text;
  steps : list Step;
  matrix : grid;
  keyword : text;
  prepared_text : option text;
  digraphs : list text;
  op : operation
}.

Definition encrypt_digraph (matrix : grid) (st : text * list Step) (digraph : text)
  : Res (text * list Step) :=
  let '(result, steps) := st in
  char1 <- getitem digraph 0 ;;
  char2 <- getitem digraph 1 ;;
  '(row1, col1) <- find_position matrix [char1] ;;
  '(row2, col2) <- find_position matrix [char2] ;;
  '(rule, encrypted) <-
    (if row1 =? row2 then
       let new_col1 := (col1 + 1) mod 5 in
       let new_col2 := (col2 + 1) mod 5 in
       e1 <- getitem2 matrix row1 new_col1 ;;
       e2 <- getitem2 matrix row2 new_col2 ;;
       Ok (SameRow, [e1; e2])
     else if col1 =? col2 then
       let new_row1 := (row1 + 1) mod 5 in
       let new_row2 := (row2 + 1) mod 5 in
       e1 <- getitem2 matrix new_row1 col1 ;;
       e2 <- getitem2 matrix new_row2 col2 ;;
       Ok (SameColumn, [e1; e2])
     else
       e1 <- getitem2 matrix row1 col2 ;;
       e2 <- getitem2 matrix row2 col1 ;;
       Ok (Rectangle, [e1; e2])) ;;
  Ok (result ++ encrypted,
      steps ++ [mkStep digraph (row1, col1) (row2, col2) rule encrypted]).

Definition encrypt (plaintext keyword : text) : Res Result :=
  let matrix := generate_matrix keyword in
  let digraphs := prepare_text plaintext in
  '(result, steps) <- foldM (encrypt_digraph matrix) digraphs ([], []) ;;
  Ok (mkResult result steps matrix (upper keyword) (Some (concat digraphs))
               digraphs Encrypt).

Definition decrypt_digraph (matrix : grid) (st : text * list Step) (digraph : text)
  : Res (text * list Step) :=
  let '(result, steps) := st in
  if len digraph <? 2 then Ok st
  else
    char1 <- getitem digraph 0 ;;
    char2 <- getitem digraph 1 ;;
    '(row1, col1) <- find_position matrix [char1] ;;
    '(row2, col2) <- find_position matrix [char2] ;;
    '(rule, decrypted) <-
      (if row1 =? row2 then
         let new_col1 := (col1 - 1) mod 5 in
         let new_col2 := (col2 - 1) mod 5 in
         d1 <- getitem2 matrix row1 new_col1 ;;
         d2 <- getitem2 matrix row2 new_col2 ;;
         Ok (SameRow, [d1; d2])
       else if col1 =? col2 then
         let new_row1 := (row1 - 1) mod 5 in
         let new_row2 := (row2 - 1) mod 5 in
         d1 <- getitem2 matrix new_row1 col1 ;;
         d2 <- getitem2 matrix new_row2 col2 ;;
         Ok (SameColumn, [d1; d2])
       else
         d1 <- getitem2 matrix row1 col2 ;;
         d2 <- getitem2 matrix row2 col1 ;;
         Ok (Rectangle, [d1; d2])) ;;
    Ok (result ++ decrypted,
        steps ++ [mkStep digraph (row1, col1) (row2, col2) rule decrypted]).

Definition decrypt (ciphertext keyword : text) : Res Result :=
  let matrix := generate_matrix keyword in
  let ciphertext := replace (ch "J") (ch "I") (upper ciphertext) in
  let ciphertext := letters_only ciphertext in
  let digraphs := map (fun i => slice ciphertext i (i + 2)) (range 0 (len ciphertext) 2) in
  '(result, steps) <- foldM (decrypt_digraph matrix) digraphs ([], []) ;;
  Ok (mkResult result steps matrix (upper keyword) None digraphs Decrypt).

End PlayfairCipher.

(* ===================================================================== *)
(** * backend/app/ciphers/hill.py *)
(* ===================================================================== *)

Module HillCipher.

(** The message strings of the module; those built by an f-string carry
    the interpolated values. *)
Inductive Message : Type :=
| MustBe2x2                     (* "Matrix must be 2x2" *)
| NotInvertible (det_mod g : Z) (* "Matrix not invertible. gcd(.., 26) = .. ≠ 1" *)
| NoInverse                     (* "Could not compute matrix inverse" *)
| NeedFourChars                 (* "Need at least 4 characters of known
                                   plaintext and ciphertext" *)
| NoInvertibleWindow            (* "No invertible plaintext matrix found. All
                                   positions tried have gcd(det, 26) ≠ 1" *)
| TryLongerPair.                (* "Try a longer plaintext-ciphertext pair
                                   with different letter combinations" *)

(** The dictionary of [validate_matrix]: the two-key one of the shape
    test, and the five-key one. *)
Inductive Validation : Type :=
| BadShape (valid : bool) (error : Message)
| Checked (valid : bool) (determinant determinant_mod_26 gcd_with_26 : Z)
          (error : option Message).

Definition v_valid (v : Validation) : bool :=
  match v with
  | BadShape valid _ => valid
  | Checked valid _ _ _ _ => valid
  end.

Definition v_error (v : Validation) : option Message :=
  match v with
  | BadShape _ e => Some e
  | Checked _ _ _ _ e => e
  end.

Definition v_determinant (v : Validation) : Res Z :=
  match v with
  | BadShape _ _ => Raise KeyError
  | Checked _ d _ _ _ => Ok d
  end.

Definition v_determinant_mod_26 (v : Validation) : Res Z :=
  match v with
  | BadShape _ _ => Raise KeyError
  | Checked _ _ d _ _ => Ok d
  end.

Definition validate_matrix (matrix : list (list Z)) : Res Validation :=
  bad <- (if negb (len matrix =? 2) then Ok true
          else r0 <- getitem matrix 0 ;;
               if negb (len r0 =? 2) then Ok true
               else r1 <- getitem matrix 1 ;; Ok (negb (len r1 =? 2))) ;;
  if (bad : bool) then Ok (BadShape false MustBe2x2)
  else
    det <- determinant_2x2 matrix ;;
    det_mod <- mod_ det 26 ;;
    is_invertible <- is_matrix_invertible_mod_26 matrix ;;
    Ok (Checked is_invertible det det_mod (gcd det_mod 26)
                (if (is_invertible : bool) then None
                 else Some (NotInvertible det_mod (gcd det_mod 26)))).

Definition prepare_text (s : text) : text :=
  let s := upper s in
  let s := letters_only s in
  if negb (len s mod 2 =? 0) then s ++ [ch "X"] else s.

Definition text_to_vectors (s : text) : Res (list (list Z)) :=
  foldM (fun vectors i =>
           a <- getitem s i ;;
           b <- getitem s (i + 1) ;;
           Ok (vectors ++ [[ord a - ord (ch "A"); ord b - ord (ch "A")]]))
        (range 0 (len s) 2) [].

Definition vectors_to_text (vectors : list (list Z)) : Res text :=
  foldM (fun s v =>
           v0 <- getitem v 0 ;;
           c0 <- chr (v0 + ord (ch "A")) ;;
           v1 <- getitem v 1 ;;
           c1 <- chr (v1 + ord (ch "A")) ;;
           Ok ((s ++ [c0]) ++ [c1]))
        vectors [].

(** One trace record; [converted_pair] is the key "encrypted_pair" or
    "decrypted_pair". *)
Record Step : Type := mkStep {
  pair : text;
  vector : list Z;
  result_vector : list Z;
  converted_pair : text
}.

Record Result : Type := mkResult {
  result : text;
  steps : list Step;
  key_matrix : matrix;
  inverse_matrix : option matrix;
  determinant : Z;
  determinant_mod_26 : Z;
  prepared_text : text;
  op : operation
}.

(** The two shapes of the dictionary of [encrypt] and [decrypt]: the one
    with the only key "error", and the one with "result". *)
Inductive Outcome : Type :=
| Failed (error : option Message)
| Done (r : Result).

(** [d.get("result", default)] *)
Definition get_result (d : Outcome) (default : text) : text :=
  match d with
  | Failed _ => default
  | Done r => result r
  end.

(** Body of the loop of [encrypt] and of [decrypt] (they differ in the
    matrix applied); the state is [(result_vectors, steps)]. *)
Definition convert_vector (M : matrix) (prepared : text)
  (st : list (list Z) * list Step) (iv : Z * list Z)
  : Res (list (list Z) * list Step) :=
  let '(result_vectors, steps) := st in
  let '(i, vec) := iv in
  let pair := slice prepared (i * 2) (i * 2 + 2) in
  converted_vec <- matrix_vector_multiply_mod M vec 26 ;;
  e0 <- getitem converted_vec 0 ;;
  c0 <- chr (e0 + ord (ch "A")) ;;
  e1 <- getitem converted_vec 1 ;;
  c1 <- chr (e1 + ord (ch "A")) ;;
  Ok (result_vectors ++ [converted_vec],
      steps ++ [mkStep pair vec converted_vec [c0; c1]]).

Definition encrypt (plaintext : text) (key_matrix : matrix) : Res Outcome :=
  validation <- validate_matrix key_matrix ;;
  if negb (v_valid validation) then Ok (Failed (v_error validation))
  else
    let prepared := prepare_text plaintext in
    vectors <- text_to_vectors prepared ;;
    '(result_vectors, steps) <-
       foldM (convert_vector key_matrix prepared) (enumerate vectors) ([], []) ;;
    result <- vectors_to_text result_vectors ;;
    inverse_matrix <- matrix_inverse_mod_26 key_matrix ;;
    det <- v_determinant validation ;;
    det_mod <- v_determinant_mod_26 validation ;;
    Ok (Done (mkResult result steps key_matrix inverse_matrix det det_mod
                       prepared Encrypt)).

Definition decrypt (ciphertext : text) (key_matrix : matrix) : Res Outcome :=
  validation <- validate_matrix key_matrix ;;
  if negb (v_valid validation) then Ok (Failed (v_error validation))
  else
    inverse_matrix <- matrix_inverse_mod_26 key_matrix ;;
    match inverse_matrix with
    | None => Ok (Failed (Some NoInverse))
    | Some inverse =>
        let prepared := prepare_text ciphertext in
        vectors <- text_to_vectors prepared ;;
        '(result_vectors, steps) <-
           foldM (convert_vector inverse prepared) (enumerate vectors) ([], []) ;;
        result <- vectors_to_text result_vectors ;;
        det <- v_determinant validation ;;
        det_mod <- v_determinant_mod_26 validation ;;
        Ok (Done (mkResult result steps key_matrix (Some inverse) det det_mod
                           prepared Decrypt))
    end.

(** [[ord(w[0]) - ord('A'), ord(w[2]) - ord('A')],
     [ord(w[1]) - ord('A'), ord(w[3]) - ord('A')]]: the matrix whose columns
    are the two digraphs of the window [w]. *)
Definition window_matrix (w : text) : Res matrix :=
  w0 <- getitem w 0 ;; w2 <- getitem w 2 ;;
  w1 <- getitem w 1 ;; w3 <- getitem w 3 ;;
  Ok [[ord w0 - ord (ch "A"); ord w2 - ord (ch "A")];
      [ord w1 - ord (ch "A"); ord w3 - ord (ch "A")]].

(** The dictionary returned by [_try_crack_at_position]. *)
Record Candidate : Type := mkCandidate {
  position : Z;
  used_plaintext : text;
  used_ciphertext : text;
  cand_key_matrix : matrix;
  P : matrix;
  C : matrix;
  P_inv : matrix;
  det_P : Z;
  det_P_mod : Z
}.

Definition _try_crack_at_position (plaintext ciphertext : text) (pos : Z)
  : Res (option Candidate) :=
  let p := slice plaintext pos (pos + 4) in
  let c := slice ciphertext pos (pos + 4) in
  if (len p <? 4) || (len c <? 4) then Ok None
  else
    P <- window_matrix p ;;
    det_P <- determinant_2x2 P ;;
    det_P_mod <- mod_ det_P 26 ;;
    if negb (gcd det_P_mod 26 =? 1) then Ok None
    else
      C <- window_matrix c ;;
      P_inv <- matrix_inverse_mod_26 P ;;
      match P_inv with
      | None => Raise TypeError
      | Some P_inv =>
          K <- matrix_multiply_mod C P_inv 26 ;;
          Ok (Some (mkCandidate pos p c K P C P_inv det_P det_P_mod))
      end.

(** The "reason" of an entry of the offset log. *)
Inductive Reason : Type :=
| NotCoprime (det_P_mod g : Z)       (* "gcd(.., 26) = .. ≠ 1" *)
| IsInvertible.                      (* "Matrix is invertible" *)

Record Tried : Type := mkTried {
  t_position : Z;
  t_plaintext : text;
  t_ciphertext : text;
  t_invertible : bool;
  t_reason : Reason
}.

(** The [for pos in range(0, min_len - 3, 2)] loop of [crack], with its
    [break]; returns [(tried_positions, crack_result)]. *)
Fixpoint search (plaintext_full ciphertext_full : text) (positions : list Z)
  (tried_positions : list Tried) : Res (list Tried * option Candidate) :=
  match positions with
  | [] => Ok (tried_positions, None)
  | pos :: rest =>
      result <- _try_crack_at_position plaintext_full ciphertext_full pos ;;
      let p_window := slice plaintext_full pos (pos + 4) in
      let c_window := slice ciphertext_full pos (pos + 4) in
      match result with
      | None =>
          P <- window_matrix p_window ;;
          det_P <- determinant_2x2 P ;;
          det_P_mod <- mod_ det_P 26 ;;
          search plaintext_full ciphertext_full rest
                 (tried_positions ++
                  [mkTried pos p_window c_window false
                           (NotCoprime det_P_mod (gcd det_P_mod 26))])
      | Some r =>
          Ok (tried_positions ++ [mkTried pos p_window c_window true IsInvertible],
              Some r)
      end
  end.

(** The entries of "steps" of [crack], in the order of their "step" titles. *)
Inductive CrackStep : Type :=
| SearchStep (count : Z) (positions_tried : list Tried)
| FormP (used_plaintext : text) (position : Z) (P : matrix)
| FormC (used_ciphertext : text) (C : matrix)
| DetP (P : matrix) (determinant determinant_mod_26 : Z)
| InvertP (P_inv : matrix)
| ComputeK (K : matrix)
| Verify (plaintext_full shown : text) (expected : text) (verified : bool).

Record Window : Type := mkWindow {
  w_position : Z;
  w_plaintext : text;
  w_ciphertext : text
}.

Record Verification : Type := mkVerification {
  encrypted : text;
  expected : text;
  matched : bool
}.

(** The three dictionaries [crack] can return. *)
Record TooShort : Type := mkTooShort {
  s_error : Message;
  s_success : bool
}.

Record Exhausted : Type := mkExhausted {
  x_error : Message;
  x_success : bool;
  x_steps : list CrackStep;
  x_positions_tried : list Tried;
  x_suggestion : Message
}.

Record Found : Type := mkFound {
  success : bool;
  found_key_matrix : matrix;
  f_steps : list CrackStep;
  known_plaintext : text;
  known_ciphertext : text;
  used_window : Window;
  verification : Verification
}.

Inductive CrackOutcome : Type :=
| CrackTooShort (d : TooShort)
| CrackExhausted (d : Exhausted)
| CrackFound (d : Found).

Definition crack (known_plaintext known_ciphertext : text) : Res CrackOutcome :=
  let plaintext_full := prepare_text known_plaintext in
  let ciphertext_full := prepare_text known_ciphertext in
  if (len plaintext_full <? 4) || (len ciphertext_full <? 4) then
    Ok (CrackTooShort (mkTooShort NeedFourChars false))
  else
    let min_len := Z.min (len plaintext_full) (len ciphertext_full) in
    let plaintext_full := slice plaintext_full 0 min_len in
    let ciphertext_full := slice ciphertext_full 0 min_len in
    '(tried_positions, crack_result) <-
       search plaintext_full ciphertext_full (range 0 (min_len - 3) 2) [] ;;
    show_search <-
      (if 1 <? len tried_positions then Ok true
       else if len tried_positions =? 1 then
              t0 <- getitem tried_positions 0 ;; Ok (negb (t_invertible t0))
            else Ok false) ;;
    let steps :=
      if (show_search : bool)
      then [SearchStep (len tried_positions) tried_positions] else [] in
    match crack_result with
    | None =>
        Ok (CrackExhausted
              (mkExhausted NoInvertibleWindow false steps tried_positions
                           TryLongerPair))
    | Some crack_result =>
        let plaintext := used_plaintext crack_result in
        let ciphertext := used_ciphertext crack_result in
        let P := P crack_result in
        let C := C crack_result in
        let P_inv := P_inv crack_result in
        let K := cand_key_matrix crack_result in
        let steps :=
          steps ++ [FormP plaintext (position crack_result) P]
                ++ [FormC ciphertext C]
                ++ [DetP P (det_P crack_result) (det_P_mod crack_result)]
                ++ [InvertP P_inv]
                ++ [ComputeK K] in
        verification <- encrypt plaintext_full K ;;
        let is_correct :=
          bool_decide (get_result verification [] = ciphertext_full) in
        let steps :=
          steps ++ [Verify plaintext_full (get_result verification (str "ERROR"))
                           ciphertext_full is_correct] in
        Ok (CrackFound
              (mkFound is_correct K steps plaintext_full ciphertext_full
                       (mkWindow (position crack_result) plaintext ciphertext)
                       (mkVerification (get_result verification [])
                                       ciphertext_full is_correct)))
    end.

End HillCipher.

(* ===================================================================== *)
(** * Vocabulary of the statements *)
(* ===================================================================== *)

(** ASCII code points, on which the tables of [isalpha] and [upper] are
    the familiar ones. *)
Definition ascii (c : Z) : bool := in_range 0 127 c.

(** [c.upper()] on an ASCII character. *)
Definition ascii_up (c : Z) : Z := if ascii_lower c then c - 32 else c.

(** Closed forms of the loops of [CaesarCipher.encrypt] and [decrypt] for
    a shift already reduced modulo 26. *)
Definition caesar_enc (s c : Z) : Z :=
  if isalpha c then (c - 65 + s) mod 26 + 65 else c.

Definition caesar_dec (s c : Z) : Z :=
  if isalpha c then (c - 65 - s) mod 26 + 65 else c.

Definition caesar_enc_steps (s : Z) (l : text) : list CaesarCipher.Step :=
  flat_map (fun c => if isalpha c
                     then [CaesarCipher.mkStep c (c - 65) s ((c - 65 + s) mod 26)
                                               ((c - 65 + s) mod 26 + 65)]
                     else []) l.

Definition caesar_dec_steps (s : Z) (l : text) : list CaesarCipher.Step :=
  flat_map (fun c => if isalpha c
                     then [CaesarCipher.mkStep c (c - 65) s ((c - 65 - s) mod 26)
                                               ((c - 65 - s) mod 26 + 65)]
                     else []) l.

(** Vocabulary for the Playfair square: the rows cut from the 25
    characters [matrix_chars], the cell at a row and a column, the cell
    order of the loops of [find_position], and the letter a letter is
    looked up as (J as I). *)
Definition rows (matrix_chars : list Z) : PlayfairCipher.grid :=
  map (fun i => slice matrix_chars i (i + 5)) (range 0 25 5).

Definition cell (matrix_chars : list Z) (row col : Z) : Z :=
  nth (Z.to_nat (5 * row + col)) matrix_chars 0.

Definition cell_of (k : nat) : Z * Z := (Z.of_nat k / 5, Z.of_nat k mod 5).

Definition as_I (c : Z) : Z := if c =? ch "J" then ch "I" else c.

(** A digraph of two letters of the alphabet of the square. *)
Definition letter_pair (d : text) : Prop :=
  exists c1 c2, d = [c1; c2] /\ In c1 PlayfairCipher.ALPHABET /\
                In c2 PlayfairCipher.ALPHABET.

(** Closed forms of the loops of [AffineCipher.encrypt] and [decrypt] for
    an additive key already reduced modulo 26 and the inverse [v] of the
    multiplicative key. *)
Definition affine_enc (a b c : Z) : Z :=
  if isalpha c then (a * (c - 65) + b) mod 26 + 65 else c.

Definition affine_dec (v b c : Z) : Z :=
  if isalpha c then (v * (c - 65 - b)) mod 26 + 65 else c.

(** The recursion of [extended_gcd] with the interpreter's stack made
    explicit. The source is recursive, one Python frame per call; [frames]
    is the number of frames that are free when it is called, and with none
    left the call raises RecursionError, here [None]. [mod_inverse_within]
    is [mod_inverse] over it; the exception of [mod] comes first, as in the
    source. *)
Fixpoint extended_gcd_within (frames : nat) (a b : Z) : option (Z * Z * Z) :=
  match frames with
  | O => None
  | S frames =>
      if a =? 0 then Some (b, 0, 1)
      else
        match extended_gcd_within frames (b mod a) a with
        | Some (gcd_val, x1, y1) =>
            let x := y1 - (b / a) * x1 in
            let y := x1 in
            Some (gcd_val, x, y)
        | None => None
        end
  end.

Definition mod_inverse_within (frames : nat) (a m : Z) : option (Res (option Z)) :=
  match mod_ a m with
  | Raise e => Some (Raise e)
  | Ok am =>
      match extended_gcd_within frames am m with
      | Some (gcd_val, x, _) =>
          Some (if negb (gcd_val =? 1) then Ok None
                else r <- mod_ x m ;; Ok (Some r))
      | None => None
      end
  end.

(** Closed forms of the stages of [HillCipher.encrypt] and [decrypt]:
    the vectors of an even-length text, the product of a 2x2 matrix with a
    vector modulo 26, and the letters of a list of vectors. *)
Fixpoint vectors_of (s : text) : list (list Z) :=
  match s with
  | x :: y :: rest => [x - 65; y - 65] :: vectors_of rest
  | _ => []
  end.

Definition apply2 (a b c d : Z) (v : list Z) : list Z :=
  match v with
  | [x; y] => [(a * x + b * y) mod 26; (c * x + d * y) mod 26]
  | _ => v
  end.

Definition letters_of (vs : list (list Z)) : text :=
  flat_map (map (fun n => n + 65)) vs.

(** A list of two-element vectors with entries in [0, 26). *)
Definition positions2 (v : list Z) : Prop :=
  exists x y, v = [x; y] /\ 0 <= x < 26 /\ 0 <= y < 26.

(** Vocabulary for the key-recovery search of [HillCipher.crack], over the
    truncated prepared texts: whether the plaintext window at an offset is
    invertible (the test of [is_matrix_invertible_mod_26] on the matrix of
    the window), the determinant modulo 26 of a window, and the two kinds
    of entries of the offset log. *)
Definition invertible_at (plaintext_full : text) (pos : Z) : bool :=
  match window <- HillCipher.window_matrix (slice plaintext_full pos (pos + 4)) ;;
        is_matrix_invertible_mod_26 window with
  | Ok b => b
  | Raise _ => false
  end.

Definition window_det_mod (w : text) : Z :=
  match window <- HillCipher.window_matrix w ;;
        det <- determinant_2x2 window ;;
        mod_ det 26 with
  | Ok det_mod => det_mod
  | Raise _ => 0
  end.

Definition rejected (plaintext_full ciphertext_full : text) (pos : Z) : HillCipher.Tried :=
  let p_window := slice plaintext_full pos (pos + 4) in
  let c_window := slice ciphertext_full pos (pos + 4) in
  HillCipher.mkTried pos p_window c_window false
    (HillCipher.NotCoprime (window_det_mod p_window)
                           (gcd (window_det_mod p_window) 26)).

Definition accepted (plaintext_full ciphertext_full : text) (pos : Z) : HillCipher.Tried :=
  HillCipher.mkTried pos (slice plaintext_full pos (pos + 4))
                     (slice ciphertext_full pos (pos + 4)) true
                     HillCipher.IsInvertible.

(* ===================================================================== *)
(** * Properties of the runtime operations *)
(* ===================================================================== *)

Lemma bind_ok {A B : Type} (c : Res A) (k : A -> Res B) (a : A) :
  c = Ok a -> bind c k = k a.
Proof. intros ->. reflexivity. Qed.

Lemma len_nonneg {A : Type} (l : list A) : 0 <= len l.
Proof. unfold len. lia. Qed.

Lemma len_app {A : Type} (l1 l2 : list A) : len (l1 ++ l2) = len l1 + len l2.
Proof. unfold len. rewrite length_app. lia. Qed.

Lemma len_cons {A : Type} (x : A) (l : list A) : len (x :: l) = 1 + len l.
Proof. unfold len. cbn [length]. lia. Qed.

Lemma mod_26 (n : Z) : mod_ n 26 = Ok (n mod 26).
Proof.
  unfold mod_, rem. cbn [Z.eqb bind].
  replace (n mod 26 + 26) with (n mod 26 + 1 * 26) by lia.
  rewrite Z_mod_plus_full, Z.mod_mod by lia. reflexivity.
Qed.

Lemma chr_letter (n : Z) : 0 <= n < 26 -> chr (n + ord (ch "A")) = Ok (n + 65).
Proof.
  intros Hn. unfold chr, ord. change (ch "A") with 65.
  replace ((0 <=? n + 65) && (n + 65 <? 1114112)) with true; [reflexivity|].
  symmetry. apply andb_true_intro. split; [apply Z.leb_le | apply Z.ltb_lt]; lia.
Qed.

(** A loop whose body cannot raise cannot raise. *)
Lemma foldM_total {A S : Type} (body : S -> A -> Res S) (l : list A) :
  (forall acc x, exists acc', body acc x = Ok acc') ->
  forall acc, exists acc', foldM body l acc = Ok acc'.
Proof.
  intros Hbody. induction l as [|x l IH]; intros acc; cbn [foldM].
  - eauto.
  - destruct (Hbody acc x) as [acc' ->]. cbn [bind]. apply IH.
Qed.

(* ===================================================================== *)
(** * Properties of math_utils *)
(* ===================================================================== *)

(** The loop of [gcd] computes the greatest common divisor. *)
Lemma gcd_loop_spec (a b : Z) : 0 <= a -> 0 <= b -> gcd_loop a b = Z.gcd a b.
Proof.
  funelim (gcd_loop a b); intros Ha Hb.
  - subst b. rewrite Z.gcd_0_r. lia.
  - match goal with IH : _ -> _ -> gcd_loop _ _ = _ |- _ => rewrite IH end.
    + rewrite Z.gcd_comm, Z.gcd_mod by assumption. apply Z.gcd_comm.
    + assumption.
    + apply Z.mod_pos_bound. lia.
Qed.

Lemma gcd_spec (a b : Z) : gcd a b = Z.gcd a b.
Proof.
  unfold gcd. rewrite gcd_loop_spec by lia.
  rewrite Z.gcd_abs_l, Z.gcd_abs_r. reflexivity.
Qed.

(** [extended_gcd] returns the gcd and Bezout coefficients. *)
Lemma extended_gcd_spec (a b : Z) :
  0 <= a -> 0 <= b ->
  forall g x y, extended_gcd a b = (g, x, y) ->
  g = Z.gcd a b /\ a * x + b * y = g.
Proof.
  funelim (extended_gcd a b); intros Ha Hb g x y Hres.
  - subst a. injection Hres as <- <- <-. rewrite Z.gcd_0_l. lia.
  - destruct (extended_gcd (b mod a) a) as [[g1 x1] y1] eqn:Hrec.
    injection Hres as <- <- <-.
    match goal with
    | IH : _ -> _ -> forall g x y, _ = _ -> _ |- _ =>
        destruct (IH (proj1 (Z.mod_pos_bound b a ltac:(lia))) Ha g1 x1 y1 eq_refl)
          as [Hg Hbez]
    end.
    split.
    + rewrite Hg. rewrite Z.gcd_mod by assumption. reflexivity.
    + rewrite <- Hbez. rewrite (Z.mod_eq b a) by assumption. ring.
Qed.

Lemma at2_2x2 (a b c d : Z) :
  at2 [[a; b]; [c; d]] 0 0 = Ok a /\ at2 [[a; b]; [c; d]] 0 1 = Ok b /\
  at2 [[a; b]; [c; d]] 1 0 = Ok c /\ at2 [[a; b]; [c; d]] 1 1 = Ok d.
Proof. repeat split; reflexivity. Qed.

Lemma determinant_2x2_eq (a b c d : Z) :
  determinant_2x2 [[a; b]; [c; d]] = Ok (a * d - b * c).
Proof. reflexivity. Qed.

Lemma matrix_vector_multiply_mod_eq (a b c d x y : Z) :
  matrix_vector_multiply_mod [[a; b]; [c; d]] [x; y] 26
  = Ok [(a * x + b * y) mod 26; (c * x + d * y) mod 26].
Proof.
  unfold matrix_vector_multiply_mod.
  destruct (at2_2x2 a b c d) as (-> & -> & -> & ->).
  change (getitem [x; y] 0) with (Ok x). change (getitem [x; y] 1) with (Ok y).
  cbn [bind]. rewrite !mod_26. reflexivity.
Qed.

Lemma matrix_multiply_mod_eq (a b c d a' b' c' d' : Z) :
  matrix_multiply_mod [[a; b]; [c; d]] [[a'; b']; [c'; d']] 26
  = Ok [[(a * a' + b * c') mod 26; (a * b' + b * d') mod 26];
        [(c * a' + d * c') mod 26; (c * b' + d * d') mod 26]].
Proof.
  unfold matrix_multiply_mod.
  destruct (at2_2x2 a b c d) as (-> & -> & -> & ->).
  destruct (at2_2x2 a' b' c' d') as (-> & -> & -> & ->).
  cbn [bind]. rewrite !mod_26. reflexivity.
Qed.

Lemma gcd_mod_26 (a : Z) : Z.gcd (a mod 26) 26 = Z.gcd a 26.
Proof. rewrite Z.gcd_mod by lia. apply Z.gcd_comm. Qed.

(** [mod_inverse(a, 26)] returns the inverse exactly when one exists. *)
Lemma mod_inverse_26 (a : Z) :
  (Z.gcd a 26 = 1 /\
   exists v, mod_inverse a 26 = Ok (Some v) /\ 0 <= v < 26 /\ (a * v) mod 26 = 1)
  \/ (Z.gcd a 26 <> 1 /\ mod_inverse a 26 = Ok None).
Proof.
  unfold mod_inverse. rewrite mod_26. cbn [bind].
  destruct (extended_gcd (a mod 26) 26) as [[g x] y] eqn:E.
  apply extended_gcd_spec in E as [Hg Hbez];
    [|apply Z.mod_pos_bound; lia|lia].
  rewrite gcd_mod_26 in Hg.
  destruct (Z.eqb_spec g 1) as [H1|H1]; cbn [negb].
  - left. split; [congruence|].
    exists (x mod 26). rewrite mod_26. cbn [bind].
    split; [reflexivity|]. split; [apply Z.mod_pos_bound; lia|].
    rewrite Zmult_mod_idemp_r, <- Zmult_mod_idemp_l.
    replace (a mod 26 * x) with (1 + (- y) * 26) by lia.
    rewrite Z_mod_plus_full. reflexivity.
  - right. split; [congruence|reflexivity].
Qed.

Lemma no_inverse_26 (a : Z) : Z.gcd a 26 <> 1 -> forall v, (a * v) mod 26 <> 1.
Proof.
  intros Hg v Hv. apply Hg, Z.bezout_1_gcd.
  exists v, (- ((a * v) / 26)).
  pose proof (Z.mod_eq (a * v) 26 ltac:(lia)). lia.
Qed.

Lemma mod26_comb (p q r s : Z) :
  ((p mod 26) * q + (r mod 26) * s) mod 26 = (p * q + r * s) mod 26.
Proof.
  rewrite Zplus_mod, !Zmult_mod_idemp_l, <- Zplus_mod. reflexivity.
Qed.

Lemma mod26_comb_r (p q r s : Z) :
  (p * (q mod 26) + r * (s mod 26)) mod 26 = (p * q + r * s) mod 26.
Proof.
  rewrite Zplus_mod, !Zmult_mod_idemp_r, <- Zplus_mod. reflexivity.
Qed.

Lemma matrix_inverse_2x2 (a b c d : Z) :
  matrix_inverse_mod_26 [[a; b]; [c; d]]
  = match mod_inverse ((a * d - b * c) mod 26) 26 with
    | Ok (Some v) =>
        Ok (Some [[(v * d) mod 26; (v * - b) mod 26];
                  [(v * - c) mod 26; (v * a) mod 26]])
    | Ok None => Ok None
    | Raise e => Raise e
    end.
Proof.
  unfold matrix_inverse_mod_26. rewrite determinant_2x2_eq. cbn [bind].
  rewrite mod_26. cbn [bind].
  destruct (mod_inverse ((a * d - b * c) mod 26) 26) as [[v|]|e]; cbn [bind];
    try reflexivity.
  destruct (at2_2x2 a b c d) as (-> & -> & -> & ->). cbn [bind].
  destruct (at2_2x2 d (- b) (- c) a) as (-> & -> & -> & ->). cbn [bind].
  rewrite !mod_26. reflexivity.
Qed.

(** C8. [matrix_inverse_mod_26] never raises on a 2x2 integer matrix: when
    det(M) has no inverse modulo 26 it returns [None]; otherwise it returns
    the adjugate [[d, -b], [-c, a]] scaled by the inverse of the
    determinant, every entry reduced into [0, 26), and the returned matrix
    times M is the identity modulo 26. *)
Theorem matrix_inverse_mod_26_spec (a b c d : Z) :
  let M := [[a; b]; [c; d]] in
  let det := a * d - b * c in
  (determinant_2x2 M = Ok det /\
   (forall v, (det * v) mod 26 <> 1) /\
   matrix_inverse_mod_26 M = Ok None)
  \/
  (exists v inv,
     determinant_2x2 M = Ok det /\
     0 <= v < 26 /\ (det * v) mod 26 = 1 /\
     inv = [[(v * d) mod 26; (v * - b) mod 26];
            [(v * - c) mod 26; (v * a) mod 26]] /\
     matrix_inverse_mod_26 M = Ok (Some inv) /\
     Forall (Forall (fun e => 0 <= e < 26)) inv /\
     matrix_multiply_mod inv M 26 = Ok [[1; 0]; [0; 1]]).
Proof.
  intros M det. subst M. rewrite matrix_inverse_2x2. fold det.
  destruct (mod_inverse_26 (det mod 26)) as [(Hg & v & -> & Hv & Hinv) | (Hg & ->)].
  - right. rewrite Zmult_mod_idemp_l in Hinv.
    eexists v, _. split; [reflexivity|]. split; [assumption|].
    split; [assumption|]. split; [reflexivity|]. split; [reflexivity|]. split.
    + repeat constructor; apply Z.mod_pos_bound; lia.
    + rewrite matrix_multiply_mod_eq. rewrite !mod26_comb.
      replace (v * d * a + v * - b * c) with (det * v) by (unfold det; ring).
      replace (v * d * b + v * - b * d) with 0 by ring.
      replace (v * - c * a + v * a * c) with 0 by ring.
      replace (v * - c * b + v * a * d) with (det * v) by (unfold det; ring).
      rewrite Hinv. reflexivity.
  - left. split; [reflexivity|]. split; [|reflexivity].
    rewrite gcd_mod_26 in Hg. apply no_inverse_26. assumption.
Qed.

(* ===================================================================== *)
(** * Characters: ASCII texts *)
(* ===================================================================== *)

(** Decides the integer comparisons of the goal that follow from the
    context. *)
Ltac cmp_lia :=
  repeat match goal with
    | |- context [?a <=? ?b] =>
        first [ replace (a <=? b) with true by (symmetry; apply Z.leb_le; lia)
              | replace (a <=? b) with false by (symmetry; apply Z.leb_gt; lia) ]
    | |- context [?a <? ?b] =>
        first [ replace (a <? b) with true by (symmetry; apply Z.ltb_lt; lia)
              | replace (a <? b) with false by (symmetry; apply Z.ltb_ge; lia) ]
    | |- context [?a =? ?b] =>
        first [ replace (a =? b) with true by (symmetry; apply Z.eqb_eq; lia)
              | replace (a =? b) with false by (symmetry; apply Z.eqb_neq; lia) ]
    end.

Lemma in_range_spec (lo hi c : Z) : in_range lo hi c = true <-> lo <= c <= hi.
Proof. unfold in_range. rewrite andb_true_iff, Z.leb_le, Z.leb_le. reflexivity. Qed.

Lemma ascii_upper_spec (c : Z) : ascii_upper c = true <-> 65 <= c <= 90.
Proof. apply in_range_spec. Qed.

Lemma ascii_lower_spec (c : Z) : ascii_lower c = true <-> 97 <= c <= 122.
Proof. apply in_range_spec. Qed.

Lemma ascii_letter_spec (c : Z) :
  ascii_letter c = true <-> 65 <= c <= 90 \/ 97 <= c <= 122.
Proof.
  unfold ascii_letter. rewrite orb_true_iff, ascii_upper_spec, ascii_lower_spec.
  reflexivity.
Qed.

Lemma ascii_letter_ascii (c : Z) : ascii_letter c = true -> ascii c = true.
Proof. rewrite ascii_letter_spec. intros H. apply in_range_spec. lia. Qed.

Lemma isalpha_ascii (c : Z) : ascii c = true -> isalpha c = ascii_letter c.
Proof.
  intros H. apply in_range_spec in H.
  unfold isalpha, in_range. cmp_lia.
  rewrite ?andb_false_r, ?andb_false_l, ?orb_false_r. reflexivity.
Qed.

Lemma isalpha_upper_letter (c : Z) : ascii_upper c = true -> isalpha c = true.
Proof.
  intros H. unfold isalpha, ascii_letter. rewrite H. reflexivity.
Qed.

Lemma upper_char_ascii (c : Z) : ascii c = true -> upper_char c = [ascii_up c].
Proof.
  intros H. apply in_range_spec in H. unfold upper_char, ascii_up.
  destruct (ascii_lower c); [reflexivity|].
  unfold in_range. cmp_lia. reflexivity.
Qed.

Lemma upper_ascii (s : text) : forallb ascii s = true -> upper s = map ascii_up s.
Proof.
  induction s as [|c s IH]; cbn [forallb]; [reflexivity|].
  intros [Hc Hs]%andb_true_iff. unfold upper in *. cbn [flat_map map].
  rewrite upper_char_ascii, IH by assumption. reflexivity.
Qed.

Lemma ascii_up_ascii (c : Z) : ascii c = true -> ascii (ascii_up c) = true.
Proof.
  unfold ascii_up. intros H. destruct (ascii_lower c) eqn:E; [|assumption].
  apply ascii_lower_spec in E. apply in_range_spec. lia.
Qed.

Lemma ascii_up_not_lower (c : Z) : ascii_lower (ascii_up c) = false.
Proof.
  unfold ascii_up. destruct (ascii_lower c) eqn:E; [|assumption].
  apply ascii_lower_spec in E. unfold ascii_lower, in_range. cmp_lia. reflexivity.
Qed.

Lemma ascii_up_letter (c : Z) : ascii_letter (ascii_up c) = ascii_letter c.
Proof.
  unfold ascii_up. destruct (ascii_lower c) eqn:E; [|reflexivity].
  unfold ascii_letter. rewrite E, orb_true_r.
  apply ascii_lower_spec in E. unfold ascii_upper, in_range. cmp_lia. reflexivity.
Qed.

(** An uppercased ASCII character is an uppercase letter or no letter. *)
Lemma ascii_up_cases (c : Z) :
  ascii c = true ->
  ascii_upper (ascii_up c) = true \/ isalpha (ascii_up c) = false.
Proof.
  intros H. rewrite isalpha_ascii by (apply ascii_up_ascii; assumption).
  unfold ascii_letter. rewrite ascii_up_not_lower, orb_false_r.
  destruct (ascii_upper (ascii_up c)); auto.
Qed.

Lemma forallb_map_ascii_up (s : text) :
  forallb ascii s = true -> forallb ascii (map ascii_up s) = true.
Proof.
  induction s as [|c s IH]; cbn [forallb map]; [reflexivity|].
  intros [Hc Hs]%andb_true_iff. rewrite ascii_up_ascii, IH by assumption.
  reflexivity.
Qed.

Lemma forallb_impl {A : Type} (p q : A -> bool) (l : list A) :
  (forall x, p x = true -> q x = true) ->
  forallb p l = true -> forallb q l = true.
Proof.
  intros Hpq. induction l as [|x l IH]; cbn [forallb]; [reflexivity|].
  intros [Hx Hl]%andb_true_iff. rewrite Hpq, IH by assumption. reflexivity.
Qed.

Lemma upper_fixed (s : text) :
  forallb (fun c => ascii c && negb (ascii_lower c)) s = true -> upper s = s.
Proof.
  induction s as [|c s IH]; cbn [forallb]; [reflexivity|].
  intros [[Hc Hl]%andb_true_iff Hs]%andb_true_iff.
  unfold upper in *. cbn [flat_map]. rewrite upper_char_ascii, IH by assumption.
  unfold ascii_up. apply negb_true_iff in Hl. rewrite Hl. reflexivity.
Qed.

(* ===================================================================== *)
(** * Caesar cipher *)
(* ===================================================================== *)

Section Caesar.

Import CaesarCipher.

Lemma caesar_enc_steps_cons (s c : Z) (l : text) :
  caesar_enc_steps s (c :: l) = caesar_enc_steps s [c] ++ caesar_enc_steps s l.
Proof. unfold caesar_enc_steps. cbn [flat_map]. rewrite app_nil_r. reflexivity. Qed.

Lemma caesar_dec_steps_cons (s c : Z) (l : text) :
  caesar_dec_steps s (c :: l) = caesar_dec_steps s [c] ++ caesar_dec_steps s l.
Proof. unfold caesar_dec_steps. cbn [flat_map]. rewrite app_nil_r. reflexivity. Qed.

Lemma caesar_encrypt_char_eq (s c : Z) (res : text) (st : list Step) :
  encrypt_char s (res, st) c
  = Ok (res ++ [caesar_enc s c], st ++ caesar_enc_steps s [c]).
Proof.
  unfold encrypt_char, caesar_enc, caesar_enc_steps, ord. cbn [flat_map].
  destruct (isalpha c).
  - rewrite mod_26. cbn [bind].
    rewrite chr_letter by (apply Z.mod_pos_bound; lia). reflexivity.
  - rewrite app_nil_r. reflexivity.
Qed.

Lemma caesar_decrypt_char_eq (s c : Z) (res : text) (st : list Step) :
  decrypt_char s (res, st) c
  = Ok (res ++ [caesar_dec s c], st ++ caesar_dec_steps s [c]).
Proof.
  unfold decrypt_char, caesar_dec, caesar_dec_steps, ord. cbn [flat_map].
  destruct (isalpha c).
  - rewrite mod_26. cbn [bind].
    rewrite chr_letter by (apply Z.mod_pos_bound; lia). reflexivity.
  - rewrite app_nil_r. reflexivity.
Qed.

Lemma caesar_encrypt_loop (s : Z) (l : text) :
  forall res st,
    foldM (encrypt_char s) l (res, st)
    = Ok (res ++ map (caesar_enc s) l, st ++ caesar_enc_steps s l).
Proof.
  induction l as [|c l IH]; intros res st; cbn [foldM map].
  - unfold caesar_enc_steps. cbn [flat_map]. rewrite !app_nil_r. reflexivity.
  - rewrite caesar_encrypt_char_eq. cbn [bind]. rewrite IH.
    rewrite (caesar_enc_steps_cons s c l), <- !app_assoc. reflexivity.
Qed.

Lemma caesar_decrypt_loop (s : Z) (l : text) :
  forall res st,
    foldM (decrypt_char s) l (res, st)
    = Ok (res ++ map (caesar_dec s) l, st ++ caesar_dec_steps s l).
Proof.
  induction l as [|c l IH]; intros res st; cbn [foldM map].
  - unfold caesar_dec_steps. cbn [flat_map]. rewrite !app_nil_r. reflexivity.
  - rewrite caesar_decrypt_char_eq. cbn [bind]. rewrite IH.
    rewrite (caesar_dec_steps_cons s c l), <- !app_assoc. reflexivity.
Qed.

(** [encrypt] and [decrypt] never raise; their results in closed form. *)
Lemma caesar_encrypt_eq (T : text) (s : Z) :
  encrypt T s
  = Ok (mkResult (map (caesar_enc (s mod 26)) (upper T))
                 (caesar_enc_steps (s mod 26) (upper T)) (s mod 26) Encrypt).
Proof.
  unfold encrypt. rewrite mod_26. cbn [bind].
  rewrite caesar_encrypt_loop. reflexivity.
Qed.

Lemma caesar_decrypt_eq (T : text) (s : Z) :
  decrypt T s
  = Ok (mkResult (map (caesar_dec (s mod 26)) (upper T))
                 (caesar_dec_steps (s mod 26) (upper T)) (s mod 26) Decrypt).
Proof.
  unfold decrypt. rewrite mod_26. cbn [bind].
  rewrite caesar_decrypt_loop. reflexivity.
Qed.

Lemma caesar_enc_upper_letter (s c : Z) :
  ascii_upper c = true -> ascii_upper (caesar_enc s c) = true.
Proof.
  intros H. unfold caesar_enc. rewrite isalpha_upper_letter by assumption.
  apply ascii_upper_spec. pose proof (Z.mod_pos_bound (c - 65 + s) 26). lia.
Qed.

Lemma caesar_dec_enc (s c : Z) :
  ascii_upper c = true \/ isalpha c = false ->
  caesar_dec s (caesar_enc s c) = c.
Proof.
  intros [H|H].
  - unfold caesar_dec. rewrite isalpha_upper_letter
      by (apply caesar_enc_upper_letter; assumption).
    unfold caesar_enc. rewrite isalpha_upper_letter by assumption.
    apply ascii_upper_spec in H.
    replace ((c - 65 + s) mod 26 + 65 - 65 - s) with ((c - 65 + s) mod 26 - s) by lia.
    rewrite Zminus_mod_idemp_l.
    replace (c - 65 + s - s) with (c - 65) by lia.
    rewrite Z.mod_small by lia. lia.
  - unfold caesar_enc. rewrite H. unfold caesar_dec. rewrite H. reflexivity.
Qed.

(** Round trip on any ASCII text and any integer shift: the uppercased
    text comes back. *)
Lemma caesar_roundtrip_ascii (T : text) (s : Z) :
  forallb ascii T = true ->
  exists e d,
    encrypt T s = Ok e /\ decrypt (result e) s = Ok d /\ result d = upper T.
Proof.
  intros HT. eexists. eexists.
  split; [apply caesar_encrypt_eq|]. cbn [result].
  split; [apply caesar_decrypt_eq|]. cbn [result].
  rewrite (upper_ascii T HT).
  rewrite upper_fixed.
  - rewrite map_map. induction T as [|c T IH]; [reflexivity|].
    cbn [forallb] in HT. apply andb_true_iff in HT as [Hc HT].
    cbn [map]. rewrite caesar_dec_enc by (apply ascii_up_cases; assumption).
    rewrite IH by assumption. reflexivity.
  - induction T as [|c T IH]; [reflexivity|].
    cbn [forallb] in HT. apply andb_true_iff in HT as [Hc HT].
    cbn [map forallb]. rewrite IH by assumption. rewrite andb_true_r.
    destruct (ascii_up_cases c Hc) as [H|H].
    + pose proof (caesar_enc_upper_letter (s mod 26) _ H) as H'.
      apply ascii_upper_spec in H'.
      unfold ascii, ascii_lower, in_range. cmp_lia. reflexivity.
    + unfold caesar_enc. rewrite H. rewrite ascii_up_ascii by assumption.
      rewrite ascii_up_not_lower. reflexivity.
Qed.

Lemma ascii_up_upper_letter (c : Z) : ascii_upper c = true -> ascii_up c = c.
Proof.
  intros H. apply ascii_upper_spec in H. unfold ascii_up, ascii_lower, in_range.
  cmp_lia. reflexivity.
Qed.

Lemma upper_of_uppercase (T : text) : forallb ascii_upper T = true -> upper T = T.
Proof.
  intros H. apply upper_fixed. revert H. apply forallb_impl.
  intros c Hc. apply ascii_upper_spec in Hc.
  unfold ascii, ascii_lower, in_range. cmp_lia. reflexivity.
Qed.

(** C6, as the code has it. For every shift in [0, 25] and every text of
    ASCII letters, decrypting the encryption returns the text uppercased;
    it is the text itself when the text is uppercase. *)
Theorem caesar_roundtrip_upper (s : Z) (T : text) :
  0 <= s <= 25 ->
  forallb ascii_letter T = true ->
  exists e d,
    encrypt T s = Ok e /\ decrypt (result e) s = Ok d /\
    result d = upper T /\
    (forallb ascii_upper T = true -> result d = T).
Proof.
  intros _ HT.
  destruct (caesar_roundtrip_ascii T s) as (e & d & He & Hd & Hr).
  { revert HT. apply forallb_impl, ascii_letter_ascii. }
  exists e, d. repeat split; try assumption.
  intros HU. rewrite Hr. apply upper_of_uppercase. assumption.
Qed.

Lemma caesar_roundtrip_upper_witness :
  exists e d,
    encrypt (str "Hello") 3 = Ok e /\ decrypt (result e) 3 = Ok d /\
    result d = upper (str "Hello") /\
    (forallb ascii_upper (str "Hello") = true -> result d = str "Hello").
Proof.
  apply (caesar_roundtrip_upper 3 (str "Hello")); [lia | reflexivity].
Defined.

(** C6, as stated, fails on lowercase letters: "a" comes back as "A". *)
Lemma caesar_roundtrip_lowercase_differs :
  ~ (forall (s : Z) (T : text),
       0 <= s <= 25 -> forallb isalpha T = true ->
       forall e d,
         encrypt T s = Ok e -> decrypt (result e) s = Ok d -> result d = T).
Proof.
  intros H.
  specialize (H 3 (str "a") ltac:(lia) eq_refl _ _ eq_refl eq_refl).
  discriminate H.
Qed.

End Caesar.

(* ===================================================================== *)
(** * Affine cipher *)
(* ===================================================================== *)

Section Affine.

Import AffineCipher.

Lemma affine_encrypt_char_total (a b : Z) (st : text * list Step) (c : Z) :
  exists st', encrypt_char a b st c = Ok st'.
Proof.
  destruct st as [res steps]. unfold encrypt_char.
  destruct (isalpha c); [|eauto].
  rewrite mod_26. cbn [bind].
  rewrite chr_letter by (apply Z.mod_pos_bound; lia). cbn [bind]. eauto.
Qed.

Lemma affine_decrypt_char_total (v b : Z) (st : text * list Step) (c : Z) :
  exists st', decrypt_char (Some v) b st c = Ok st'.
Proof.
  destruct st as [res steps]. unfold decrypt_char.
  destruct (isalpha c); [|eauto].
  cbn [mul_opt bind]. rewrite mod_26. cbn [bind].
  rewrite chr_letter by (apply Z.mod_pos_bound; lia). cbn [bind]. eauto.
Qed.

Lemma is_valid_key_spec (a : Z) : is_valid_key a = true <-> Z.gcd a 26 = 1.
Proof. unfold is_valid_key. rewrite gcd_spec. apply Z.eqb_eq. Qed.

Lemma get_inverse_valid (a : Z) :
  is_valid_key a = true ->
  exists v, get_inverse a = Ok (Some v) /\ 0 <= v < 26 /\ (a * v) mod 26 = 1.
Proof.
  intros H%is_valid_key_spec. unfold get_inverse.
  destruct (mod_inverse_26 a) as [(_ & v & Hv) | (Hg & _)]; [eauto | contradiction].
Qed.

Lemma affine_invalid (T : text) (a b : Z) :
  is_valid_key a = false ->
  encrypt T a b = Ok (InvalidKey a VALID_A_VALUES) /\
  decrypt T a b = Ok (InvalidKey a VALID_A_VALUES).
Proof. intros H. unfold encrypt, decrypt. rewrite H. split; reflexivity. Qed.

Lemma affine_valid (T : text) (a b : Z) :
  is_valid_key a = true ->
  exists r r', encrypt T a b = Ok (Done r) /\ decrypt T a b = Ok (Done r').
Proof.
  intros H. destruct (get_inverse_valid a H) as (v & Hv & _).
  unfold encrypt, decrypt. rewrite H, Hv. cbn [negb bind]. rewrite mod_26. cbn [bind].
  destruct (foldM_total (encrypt_char a (b mod 26)) (upper T)
              (affine_encrypt_char_total a (b mod 26)) ([], [])) as [[res st] ->].
  destruct (foldM_total (decrypt_char (Some v) (b mod 26)) (upper T)
              (affine_decrypt_char_total v (b mod 26)) ([], [])) as [[res' st'] ->].
  cbn [bind]. eauto.
Qed.

(** The list of valid values is the set of the integers of [1, 25] that
    pass the test of [is_valid_key]. *)
Lemma VALID_A_VALUES_spec (a : Z) :
  In a VALID_A_VALUES <-> 1 <= a <= 25 /\ is_valid_key a = true.
Proof.
  split.
  - intros H. unfold VALID_A_VALUES in H. cbn [In] in H.
    repeat (destruct H as [<-|H]; [split; [lia | vm_compute; reflexivity]|]).
    contradiction.
  - intros [Ha Hv].
    assert (H25 : In a (map Z.of_nat (seq 1 25))).
    { apply in_map_iff. exists (Z.to_nat a). split; [lia|]. apply in_seq. lia. }
    vm_compute in H25.
    repeat (destruct H25 as [<-|H25];
            [first [ vm_compute in Hv; discriminate Hv
                   | unfold VALID_A_VALUES; cbn [In]; lia ]|]).
    contradiction.
Qed.

(** C4, as the code has it. The key [a] is validated by the test
    [gcd(a, 26) == 1], not by membership in the list of twelve values:
    every [a] failing the test gets the error record (which carries no
    result), every [a] passing it gets a result, for [encrypt] and for
    [decrypt]; the twelve listed values are the integers of [1, 25] passing
    the test, so each of them gets a result. *)
Theorem affine_key_validation (T : text) (a b : Z) :
  (gcd a 26 <> 1 ->
   encrypt T a b = Ok (InvalidKey a VALID_A_VALUES) /\
   decrypt T a b = Ok (InvalidKey a VALID_A_VALUES))
  /\ (gcd a 26 = 1 ->
      exists r r', encrypt T a b = Ok (Done r) /\ decrypt T a b = Ok (Done r'))
  /\ (In a VALID_A_VALUES <-> 1 <= a <= 25 /\ gcd a 26 = 1)
  /\ (In a VALID_A_VALUES ->
      exists r r', encrypt T a b = Ok (Done r) /\ decrypt T a b = Ok (Done r')).
Proof.
  assert (Hv : is_valid_key a = true <-> gcd a 26 = 1) by apply Z.eqb_eq.
  assert (Hset : In a VALID_A_VALUES <-> 1 <= a <= 25 /\ gcd a 26 = 1).
  { rewrite VALID_A_VALUES_spec, Hv. reflexivity. }
  split; [|split; [|split]].
  - intros H. apply affine_invalid. destruct (is_valid_key a); [|reflexivity].
    exfalso. apply H, Hv. reflexivity.
  - intros H. apply affine_valid, Hv, H.
  - exact Hset.
  - intros H. apply affine_valid, Hv, Hset, H.
Qed.

Lemma affine_key_validation_witness :
  (encrypt (str "HELLO") 13 8 = Ok (InvalidKey 13 VALID_A_VALUES) /\
   decrypt (str "HELLO") 13 8 = Ok (InvalidKey 13 VALID_A_VALUES))
  /\ (exists r r', encrypt (str "HELLO") 5 8 = Ok (Done r) /\
                   decrypt (str "HELLO") 5 8 = Ok (Done r')).
Proof.
  split.
  - apply (proj1 (affine_key_validation (str "HELLO") 13 8)).
    vm_compute. discriminate.
  - apply (proj1 (proj2 (affine_key_validation (str "HELLO") 5 8))).
    vm_compute. reflexivity.
Defined.

(** C4, as stated, fails: 27 is outside the list of twelve values and is
    accepted, since gcd(27, 26) = 1. *)
Lemma affine_accepts_27 :
  ~ (forall (T : text) (a b : Z),
       ~ In a VALID_A_VALUES ->
       exists vs, encrypt T a b = Ok (InvalidKey a vs)).
Proof.
  intros H. destruct (H (str "HELLO") 27 8) as [vs Hvs].
  - unfold VALID_A_VALUES. cbn [In]. lia.
  - vm_compute in Hvs. discriminate Hvs.
Qed.

End Affine.

(* ===================================================================== *)
(** * Playfair cipher *)
(* ===================================================================== *)

Section Playfair.

Import PlayfairCipher.

(** ** Text preparation *)

Lemma pair_up_same (c : Z) (rest : text) :
  pair_up (c :: c :: rest) = [c; ch "X"] :: pair_up (c :: rest).
Proof. cbn [pair_up]. rewrite Z.eqb_refl. reflexivity. Qed.

Lemma pair_up_repeat (c : Z) (n : nat) :
  c = ch "X" -> pair_up (repeat c n) = repeat [c; c] n.
Proof.
  intros ->. induction n as [|n IH]; [reflexivity|].
  destruct n as [|n]; [reflexivity|].
  change (repeat (ch "X") (S (S n)))
    with (ch "X" :: ch "X" :: repeat (ch "X") n).
  rewrite pair_up_same.
  change (ch "X" :: repeat (ch "X") n) with (repeat (ch "X") (S n)).
  rewrite IH. reflexivity.
Qed.

(** C10. For every text whose cleaned letters form a non-empty run of 'X',
    such as "XX", [prepare_text] returns only digraphs "XX": the filler
    equals the repeated letter, so a digraph of two identical characters
    is produced. *)
Theorem prepare_text_run_of_X (s : text) (n : nat) :
  letters_only (replace (ch "J") (ch "I") (upper s)) = repeat (ch "X") (S n) ->
  prepare_text s = repeat (str "XX") (S n) /\
  In (str "XX") (prepare_text s) /\
  exists c, In [c; c] (prepare_text s).
Proof.
  intros H. unfold prepare_text. rewrite H.
  rewrite pair_up_repeat by reflexivity.
  change [ch "X"; ch "X"] with (str "XX").
  split; [reflexivity|]. split.
  - left. reflexivity.
  - exists (ch "X"). left. reflexivity.
Qed.

Lemma prepare_text_run_of_X_witness :
  prepare_text (str "XX") = repeat (str "XX") 2 /\
  In (str "XX") (prepare_text (str "XX")) /\
  exists c, In [c; c] (prepare_text (str "XX")).
Proof.
  apply (prepare_text_run_of_X (str "XX") 1). vm_compute. reflexivity.
Defined.

(** ** Key square *)

(** The loops of [generate_matrix] keep [seen] equal to the set of
    [matrix_chars], keep [matrix_chars] free of duplicates, and add
    exactly the characters they read. *)
Lemma add_char_fold (l : list Z) :
  forall (seen : gset Z) (mc : list Z),
    (forall c, c ∈ seen <-> c ∈ mc) -> NoDup mc ->
    forall seen' mc', fold_left add_char l (seen, mc) = (seen', mc') ->
    (forall c, c ∈ seen' <-> c ∈ mc') /\ NoDup mc' /\
    (forall c, c ∈ mc' <-> c ∈ mc \/ c ∈ l).
Proof.
  induction l as [|x l IH]; intros seen mc Hseen Hnd seen' mc' Hfold;
    cbn [fold_left] in Hfold.
  - injection Hfold as <- <-. split; [assumption|]. split; [assumption|].
    intros c. rewrite elem_of_nil. tauto.
  - unfold add_char at 2 in Hfold. destruct (decide (x ∈ seen)) as [Hin|Hnin].
    + destruct (IH _ _ Hseen Hnd _ _ Hfold) as (H1 & H2 & H3).
      split; [assumption|]. split; [assumption|].
      intros c. rewrite H3, elem_of_cons. split; [tauto|].
      intros [H|[->|H]]; auto. left. apply Hseen. assumption.
    + apply IH in Hfold as (H1 & H2 & H3).
      * split; [assumption|]. split; [assumption|].
        intros c. rewrite H3, elem_of_app, list_elem_of_singleton, elem_of_cons. tauto.
      * intros c. rewrite elem_of_union, elem_of_singleton, elem_of_app,
          list_elem_of_singleton, Hseen. tauto.
      * apply NoDup_app. split; [assumption|]. split; [|apply NoDup_singleton].
        intros c Hc ->%list_elem_of_singleton. apply Hnin, Hseen, Hc.
Qed.

Lemma ALPHABET_spec (c : Z) : c ∈ ALPHABET <-> 65 <= c <= 90 /\ c <> 74.
Proof.
  rewrite list_elem_of_In. split.
  - intros H. vm_compute in H.
    repeat (destruct H as [<-|H]; [lia|]). contradiction.
  - intros [Hc Hj].
    assert (H26 : In c (map Z.of_nat (seq 65 26))).
    { apply in_map_iff. exists (Z.to_nat c). split; [lia|]. apply in_seq. lia. }
    vm_compute in H26.
    repeat (destruct H26 as [<-|H26]; [first [lia | vm_compute; tauto]|]).
    contradiction.
Qed.

(** The letters kept from an ASCII keyword are letters of the alphabet of
    the square. *)
Lemma keyword_letters_ascii (keyword : text) (c : Z) :
  forallb ascii keyword = true ->
  c ∈ letters_only (replace (ch "J") (ch "I") (upper keyword)) ->
  c ∈ ALPHABET.
Proof.
  intros Hk. rewrite (upper_ascii keyword Hk). unfold letters_only, replace.
  rewrite list_elem_of_filter, list_elem_of_In, in_map_iff.
  intros (Halpha & u & Hu & Hin). apply in_map_iff in Hin as (c0 & <- & Hc0).
  rewrite forallb_forall in Hk. specialize (Hk c0 Hc0).
  pose proof (ascii_up_ascii c0 Hk) as Hasc.
  pose proof (ascii_up_not_lower c0) as Hnl.
  change (ch "J") with 74 in Hu. change (ch "I") with 73 in Hu.
  apply ALPHABET_spec.
  destruct (Z.eqb_spec (ascii_up c0) 74) as [E|E]; [lia|]. subst c.
  rewrite isalpha_ascii in Halpha by assumption.
  unfold ascii_letter in Halpha. rewrite Hnl, orb_false_r in Halpha.
  apply ascii_upper_spec in Halpha. lia.
Qed.

Lemma NoDup_ALPHABET : NoDup ALPHABET.
Proof. apply (bool_decide_unpack _). vm_compute. exact I. Qed.

(** For an ASCII keyword the square is 5x5 and its cells are the 25
    letters A-Z without J, each exactly once. *)
Lemma generate_matrix_ascii (keyword : text) :
  forallb ascii keyword = true ->
  length (generate_matrix keyword) = 5%nat /\
  Forall (fun row => length row = 5%nat) (generate_matrix keyword) /\
  concat (generate_matrix keyword) ≡ₚ ALPHABET.
Proof.
  intros Hk. unfold generate_matrix.
  set (kw := letters_only (replace (ch "J") (ch "I") (upper keyword))).
  destruct (fold_left add_char kw (∅, [])) as [seen1 mc1] eqn:E1.
  destruct (fold_left add_char ALPHABET (seen1, mc1)) as [seen2 mc2] eqn:E2.
  apply add_char_fold in E1 as (Hs1 & Hnd1 & Hel1);
    [|intros c; rewrite elem_of_empty, elem_of_nil; tauto|apply NoDup_nil; exact I].
  apply add_char_fold in E2 as (Hs2 & Hnd2 & Hel2); [|assumption|assumption].
  assert (Hperm : mc2 ≡ₚ ALPHABET).
  { apply NoDup_Permutation; [assumption|apply NoDup_ALPHABET|].
    intros c. rewrite Hel2, Hel1, elem_of_nil. split; [|tauto].
    intros [[[]|H]|H]; [|assumption].
    apply (keyword_letters_ascii keyword); assumption. }
  assert (Hlen : length mc2 = 25%nat).
  { rewrite Hperm. reflexivity. }
  do 25 (destruct mc2 as [|? mc2]; [discriminate Hlen|]).
  destruct mc2; [|discriminate Hlen].
  split; [reflexivity|]. split.
  - repeat constructor.
  - exact Hperm.
Qed.

(** C7 at a keyword with a letter outside ASCII. For the keyword "é"
    (U+00E9) the square starts with "É" (U+00C9), which [isalpha] accepts,
    and the 26th character, "Z", falls outside the 25 cells. *)
Theorem generate_matrix_e_acute :
  generate_matrix [233]
  = [201 :: str "ABCD"; str "EFGHI"; str "KLMNO"; str "PQRST"; str "UVWXY"] /\
  ~ In (ch "Z") (concat (generate_matrix [233])) /\
  In 201 (concat (generate_matrix [233])).
Proof.
  split; [vm_compute; reflexivity|]. split.
  - vm_compute. intros H.
    repeat (destruct H as [H|H]; [discriminate H|]). contradiction.
  - vm_compute. left. reflexivity.
Qed.

(** C5. With keyword "PLAYFAIR", "HELLO" is prepared as HE LX LO (the
    pair "LL" is broken by the filler and the second L is paired with O),
    encrypts to "KGYVRV", and decrypting that returns "HELXLO". *)
Theorem playfair_hello_roundtrip :
  exists e d,
    prepare_text (str "HELLO") = [str "HE"; str "LX"; str "LO"] /\
    encrypt (str "HELLO") (str "PLAYFAIR") = Ok e /\
    prepared_text e = Some (str "HELXLO") /\
    decrypt (result e) (str "PLAYFAIR") = Ok d /\
    result d = str "HELXLO".
Proof.
  eexists. eexists.
  split; [vm_compute; reflexivity|].
  split; [vm_compute; reflexivity|].
  split; [vm_compute; reflexivity|].
  split; [vm_compute; reflexivity|].
  vm_compute. reflexivity.
Qed.

End Playfair.

(* ===================================================================== *)
(** * Hill cipher: encryption and decryption *)
(* ===================================================================== *)

Section Hill.

Import HillCipher.

Lemma getitem_app_len {A : Type} (p : list A) (x : A) (r : list A) :
  getitem (p ++ x :: r) (len p) = Ok x.
Proof.
  unfold getitem. pose proof (len_nonneg p). cmp_lia.
  unfold len. rewrite Nat2Z.id, nth_error_app2, Nat.sub_diag by lia. reflexivity.
Qed.

Lemma getitem_app_len1 {A : Type} (p : list A) (x y : A) (r : list A) :
  getitem (p ++ x :: y :: r) (len p + 1) = Ok y.
Proof.
  replace (len p + 1) with (len (p ++ [x])) by (rewrite len_app; reflexivity).
  replace (p ++ x :: y :: r) with ((p ++ [x]) ++ y :: r)
    by (rewrite <- app_assoc; reflexivity).
  apply getitem_app_len.
Qed.

(** ** Validation *)

Lemma validate_matrix_2x2 (a b c d : Z) :
  let det := a * d - b * c in
  let inv := gcd (det mod 26) 26 =? 1 in
  validate_matrix [[a; b]; [c; d]]
  = Ok (Checked inv det (det mod 26) (gcd (det mod 26) 26)
                (if inv then None
                 else Some (NotInvertible (det mod 26) (gcd (det mod 26) 26)))).
Proof.
  intros det inv. unfold validate_matrix.
  change (len [[a; b]; [c; d]] =? 2) with true.
  change (getitem [[a; b]; [c; d]] 0) with (Ok [a; b]).
  change (getitem [[a; b]; [c; d]] 1) with (Ok [c; d]).
  cbn [negb bind]. change (len [a; b] =? 2) with true.
  change (len [c; d] =? 2) with true. cbn [negb bind].
  unfold is_matrix_invertible_mod_26. rewrite determinant_2x2_eq. cbn [bind].
  rewrite mod_26. cbn [bind]. reflexivity.
Qed.

(** ** Text preparation *)

Lemma length_prepare_text_even (s : text) : Nat.Even (length (prepare_text s)).
Proof.
  unfold prepare_text. set (t := letters_only (upper s)).
  destruct (Z.eqb_spec (len t mod 2) 0) as [E|E]; cbn [negb].
  - exists (Z.to_nat (len t / 2)).
    pose proof (Z.div_mod (len t) 2 ltac:(lia)). unfold len in *. lia.
  - rewrite length_app. cbn [length].
    exists (Z.to_nat (len t / 2) + 1)%nat.
    pose proof (Z.div_mod (len t) 2 ltac:(lia)).
    pose proof (Z.mod_pos_bound (len t) 2 ltac:(lia)). unfold len in *. lia.
Qed.

Lemma prepare_text_ascii_upper (s : text) :
  forallb ascii s = true -> forallb ascii_upper (prepare_text s) = true.
Proof.
  intros Hs. unfold prepare_text. rewrite (upper_ascii s Hs).
  assert (H : forallb ascii_upper (letters_only (map ascii_up s)) = true).
  { apply forallb_forall. intros c Hc%list_elem_of_In.
    unfold letters_only in Hc. apply list_elem_of_filter in Hc as [Halpha Hc].
    apply list_elem_of_In, in_map_iff in Hc as (c0 & <- & Hc0).
    rewrite forallb_forall in Hs. specialize (Hs c0 Hc0).
    destruct (ascii_up_cases c0 Hs) as [H|H]; [assumption|congruence]. }
  destruct (negb _); [|assumption].
  rewrite forallb_app, H. reflexivity.
Qed.

Lemma letters_only_fixed (s : text) :
  forallb isalpha s = true -> letters_only s = s.
Proof.
  induction s as [|c s IH]; cbn [forallb]; [reflexivity|].
  intros [Hc Hs]%andb_true_iff. unfold letters_only in *.
  rewrite filter_cons. destruct (decide (isalpha c = true)); [|contradiction].
  rewrite IH by assumption. reflexivity.
Qed.

(** An even-length text of uppercase letters is its own preparation. *)
Lemma prepare_text_fixed (s : text) :
  forallb ascii_upper s = true -> Nat.Even (length s) -> prepare_text s = s.
Proof.
  intros Hu [m Hm]. unfold prepare_text.
  rewrite upper_of_uppercase by assumption.
  rewrite letters_only_fixed
    by (revert Hu; apply forallb_impl, isalpha_upper_letter).
  replace (len s mod 2) with 0; [reflexivity|].
  unfold len. rewrite Hm. rewrite Nat2Z.inj_mul, Z.mul_comm.
  rewrite Z_mod_mult. reflexivity.
Qed.

(** A text of ASCII letters of even length is prepared by uppercasing. *)
Lemma prepare_text_letters (s : text) :
  forallb ascii_letter s = true -> Nat.Even (length s) ->
  prepare_text s = upper s.
Proof.
  intros Hl [m Hm].
  assert (Ha : forallb ascii s = true)
    by (revert Hl; apply forallb_impl, ascii_letter_ascii).
  unfold prepare_text. rewrite (upper_ascii s Ha).
  rewrite letters_only_fixed.
  - replace (len (map ascii_up s) mod 2) with 0; [reflexivity|].
    unfold len. rewrite length_map, Hm, Nat2Z.inj_mul, Z.mul_comm, Z_mod_mult.
    reflexivity.
  - apply forallb_forall. intros c (c0 & <- & Hc0)%in_map_iff.
    rewrite forallb_forall in Hl, Ha.
    rewrite isalpha_ascii by (apply ascii_up_ascii, Ha, Hc0).
    rewrite ascii_up_letter. apply Hl, Hc0.
Qed.

(** ** The stages of [encrypt] and [decrypt] *)

Lemma range_even (m : nat) :
  range 0 (2 * Z.of_nat m) 2 = map (fun k : nat => 2 * Z.of_nat k) (seq 0 m).
Proof.
  unfold range.
  replace ((2 * Z.of_nat m - 0 + 2 - 1) / 2) with (Z.of_nat m).
  - rewrite Nat2Z.id. apply map_ext. intros k. lia.
  - apply Z.div_unique with (r := 1); lia.
Qed.

Lemma text_to_vectors_loop (m : nat) :
  forall (q p : text) (acc : list (list Z)),
    length q = (2 * m)%nat ->
    foldM (fun vectors i =>
             a <- getitem (p ++ q) i ;;
             b <- getitem (p ++ q) (i + 1) ;;
             Ok (vectors ++ [[ord a - ord (ch "A"); ord b - ord (ch "A")]]))
          (map (fun k : nat => len p + 2 * Z.of_nat k) (seq 0 m)) acc
    = Ok (acc ++ vectors_of q).
Proof.
  induction m as [|m IH]; intros q p acc Hq.
  - destruct q; [|discriminate Hq]. cbn [seq map foldM vectors_of].
    rewrite app_nil_r. reflexivity.
  - destruct q as [|x [|y q]]; try (cbn [length] in Hq; lia).
    cbn [seq map foldM].
    replace (len p + 2 * Z.of_nat 0) with (len p) by lia.
    rewrite getitem_app_len. cbn [bind].
    rewrite getitem_app_len1. cbn [bind].
    rewrite <- seq_shift, map_map.
    replace (p ++ x :: y :: q) with ((p ++ [x; y]) ++ q)
      by (rewrite <- app_assoc; reflexivity).
    rewrite (map_ext _ (fun k : nat => len (p ++ [x; y]) + 2 * Z.of_nat k)).
    + rewrite IH by (cbn [length] in Hq; lia).
      cbn [vectors_of]. rewrite <- app_assoc. reflexivity.
    + intros k. unfold len. rewrite length_app. cbn [length]. lia.
Qed.

Lemma text_to_vectors_even (s : text) :
  Nat.Even (length s) -> text_to_vectors s = Ok (vectors_of s).
Proof.
  intros [m Hm]. unfold text_to_vectors, len. rewrite Hm, Nat2Z.inj_mul.
  change (Z.of_nat 2) with 2. rewrite range_even.
  apply (text_to_vectors_loop m s [] []). assumption.
Qed.

Lemma enumerate_snd {A : Type} (l : list A) : map snd (enumerate l) = l.
Proof.
  unfold enumerate. generalize 0%nat.
  induction l as [|x l IH]; intros n; [reflexivity|].
  cbn [length seq map combine snd]. rewrite IH. reflexivity.
Qed.

Lemma enumerate_Forall {A : Type} (P : A -> Prop) (l : list A) :
  Forall P l -> Forall (fun iv => P (snd iv)) (enumerate l).
Proof.
  intros H. unfold enumerate. generalize 0%nat.
  induction H as [|x l Hx _ IH]; intros n; cbn [length seq map combine].
  - constructor.
  - constructor; [exact Hx|apply IH].
Qed.

(** The loop of [encrypt] and [decrypt] applies the matrix to every vector
    and never raises on two-element vectors. *)
Lemma convert_loop (a b c d : Z) (prepared : text) (ivs : list (Z * list Z)) :
  Forall (fun iv => exists x y, snd iv = [x; y]) ivs ->
  forall rv st,
  exists st',
    foldM (convert_vector [[a; b]; [c; d]] prepared) ivs (rv, st)
    = Ok (rv ++ map (apply2 a b c d) (map snd ivs), st').
Proof.
  induction 1 as [|[i v] ivs (x & y & Hv) _ IH]; intros rv st; cbn [foldM map].
  - exists st. rewrite app_nil_r. reflexivity.
  - cbn [snd] in *. subst v. unfold convert_vector at 1.
    rewrite matrix_vector_multiply_mod_eq. cbn [bind].
    change (getitem [(a * x + b * y) mod 26; (c * x + d * y) mod 26] 0)
      with (Ok ((a * x + b * y) mod 26)).
    change (getitem [(a * x + b * y) mod 26; (c * x + d * y) mod 26] 1)
      with (Ok ((c * x + d * y) mod 26)).
    cbn [bind]. rewrite !chr_letter by (apply Z.mod_pos_bound; lia). cbn [bind].
    edestruct IH as [st' ->]. exists st'. cbn [apply2].
    rewrite <- app_assoc. reflexivity.
Qed.

Lemma vectors_to_text_loop (vs : list (list Z)) :
  Forall positions2 vs ->
  forall acc, foldM (fun s v =>
                       v0 <- getitem v 0 ;;
                       c0 <- chr (v0 + ord (ch "A")) ;;
                       v1 <- getitem v 1 ;;
                       c1 <- chr (v1 + ord (ch "A")) ;;
                       Ok ((s ++ [c0]) ++ [c1])) vs acc
              = Ok (acc ++ letters_of vs).
Proof.
  induction 1 as [|v vs (x & y & -> & Hx & Hy) _ IH]; intros acc; cbn [foldM].
  - unfold letters_of. cbn [flat_map]. rewrite app_nil_r. reflexivity.
  - change (getitem [x; y] 0) with (Ok x). change (getitem [x; y] 1) with (Ok y).
    cbn [bind]. rewrite !chr_letter by assumption. cbn [bind]. rewrite IH.
    unfold letters_of. cbn [flat_map map]. rewrite <- !app_assoc. reflexivity.
Qed.

Lemma vectors_to_text_eq (vs : list (list Z)) :
  Forall positions2 vs -> vectors_to_text vs = Ok (letters_of vs).
Proof. intros H. unfold vectors_to_text. apply (vectors_to_text_loop vs H []). Qed.

Lemma vectors_of_pairs (s : text) :
  Forall (fun v => exists x y, v = [x; y]) (vectors_of s).
Proof.
  induction s as [s IH] using (induction_ltof1 _ (@length Z)). unfold ltof in IH.
  destruct s as [|x [|y s]]; cbn [vectors_of]; try constructor.
  - eauto.
  - apply IH. cbn [length]. lia.
Qed.

Lemma apply2_positions (a b c d : Z) (vs : list (list Z)) :
  Forall (fun v => exists x y, v = [x; y]) vs ->
  Forall positions2 (map (apply2 a b c d) vs).
Proof.
  induction 1 as [|v vs (x & y & ->) _ IH]; cbn [map]; constructor; [|assumption].
  cbn [apply2]. eexists _, _. split; [reflexivity|].
  split; apply Z.mod_pos_bound; lia.
Qed.

(** ** [encrypt] and [decrypt] in closed form *)

Lemma hill_encrypt_eq (a b c d : Z) (T : text) :
  gcd ((a * d - b * c) mod 26) 26 = 1 ->
  exists steps inv,
    encrypt T [[a; b]; [c; d]]
    = Ok (Done (mkResult
                  (letters_of (map (apply2 a b c d) (vectors_of (prepare_text T))))
                  steps [[a; b]; [c; d]] inv (a * d - b * c)
                  ((a * d - b * c) mod 26) (prepare_text T) Encrypt)).
Proof.
  intros Hg. unfold encrypt. rewrite validate_matrix_2x2. cbn [bind v_valid].
  rewrite Hg. cbn [Z.eqb Pos.eqb negb].
  rewrite text_to_vectors_even by apply length_prepare_text_even. cbn [bind].
  destruct (convert_loop a b c d (prepare_text T)
              (enumerate (vectors_of (prepare_text T)))) with (rv := @nil (list Z))
      (st := @nil Step) as [steps ->].
  { apply (enumerate_Forall (fun v => exists x y, v = [x; y])), vectors_of_pairs. }
  cbn [bind app]. rewrite enumerate_snd.
  rewrite vectors_to_text_eq by apply apply2_positions, vectors_of_pairs.
  cbn [bind]. rewrite matrix_inverse_2x2.
  destruct (mod_inverse_26 ((a * d - b * c) mod 26))
    as [(_ & v & -> & _) | (_ & ->)]; cbn [bind v_determinant v_determinant_mod_26];
    eauto.
Qed.

Lemma hill_encrypt_invalid (a b c d : Z) (T : text) :
  gcd ((a * d - b * c) mod 26) 26 <> 1 ->
  encrypt T [[a; b]; [c; d]]
  = Ok (Failed (Some (NotInvertible ((a * d - b * c) mod 26)
                                    (gcd ((a * d - b * c) mod 26) 26)))).
Proof.
  intros Hg. unfold encrypt. rewrite validate_matrix_2x2. cbn [bind v_valid v_error].
  destruct (Z.eqb_spec (gcd ((a * d - b * c) mod 26) 26) 1) as [E|E];
    [contradiction|reflexivity].
Qed.

(** [encrypt] never raises on a 2x2 key. *)
Lemma hill_encrypt_total (a b c d : Z) (T : text) :
  exists o, encrypt T [[a; b]; [c; d]] = Ok o.
Proof.
  destruct (Z.eq_dec (gcd ((a * d - b * c) mod 26) 26) 1) as [E|E].
  - destruct (hill_encrypt_eq a b c d T E) as (steps & inv & ->). eauto.
  - rewrite hill_encrypt_invalid by assumption. eauto.
Qed.

Lemma hill_decrypt_eq (a b c d : Z) (T : text) :
  gcd ((a * d - b * c) mod 26) 26 = 1 ->
  exists v steps,
    0 <= v < 26 /\ ((a * d - b * c) * v) mod 26 = 1 /\
    decrypt T [[a; b]; [c; d]]
    = Ok (Done (mkResult
                  (letters_of
                     (map (apply2 ((v * d) mod 26) ((v * - b) mod 26)
                                  ((v * - c) mod 26) ((v * a) mod 26))
                          (vectors_of (prepare_text T))))
                  steps [[a; b]; [c; d]]
                  (Some [[(v * d) mod 26; (v * - b) mod 26];
                         [(v * - c) mod 26; (v * a) mod 26]])
                  (a * d - b * c) ((a * d - b * c) mod 26)
                  (prepare_text T) Decrypt)).
Proof.
  intros Hg. unfold decrypt. rewrite validate_matrix_2x2. cbn [bind v_valid].
  rewrite Hg. cbn [Z.eqb Pos.eqb negb]. rewrite matrix_inverse_2x2.
  rewrite gcd_spec in Hg.
  destruct (mod_inverse_26 ((a * d - b * c) mod 26))
    as [(_ & v & -> & Hv & Hinv) | (Hn & _)]; [|contradiction].
  rewrite Zmult_mod_idemp_l in Hinv. cbn [bind].
  rewrite text_to_vectors_even by apply length_prepare_text_even. cbn [bind].
  destruct (convert_loop ((v * d) mod 26) ((v * - b) mod 26)
              ((v * - c) mod 26) ((v * a) mod 26) (prepare_text T)
              (enumerate (vectors_of (prepare_text T)))) with (rv := @nil (list Z))
      (st := @nil Step) as [steps ->].
  { apply (enumerate_Forall (fun v => exists x y, v = [x; y])), vectors_of_pairs. }
  cbn [bind app]. rewrite enumerate_snd.
  rewrite vectors_to_text_eq by apply apply2_positions, vectors_of_pairs.
  cbn [bind v_determinant v_determinant_mod_26]. eauto 10.
Qed.

(** ** Round trip *)

Lemma letters_of_upper (vs : list (list Z)) :
  Forall positions2 vs ->
  forallb ascii_upper (letters_of vs) = true /\ Nat.Even (length (letters_of vs)).
Proof.
  induction 1 as [|v vs (x & y & -> & Hx & Hy) _ [IH1 IH2]].
  - split; [reflexivity|]. exists 0%nat. reflexivity.
  - unfold letters_of in *. cbn [flat_map map app forallb length]. split.
    + rewrite IH1. unfold ascii_upper, in_range. cmp_lia. reflexivity.
    + destruct IH2 as [m Hm]. exists (S m). lia.
Qed.

Lemma vectors_of_letters_of (vs : list (list Z)) :
  Forall (fun v => exists x y, v = [x; y]) vs -> vectors_of (letters_of vs) = vs.
Proof.
  induction 1 as [|v vs (x & y & ->) _ IH]; [reflexivity|].
  unfold letters_of in *. cbn [flat_map map app vectors_of]. rewrite IH.
  f_equal. f_equal; [lia|]. f_equal. lia.
Qed.

Lemma letters_of_vectors_of (s : text) :
  Nat.Even (length s) -> letters_of (vectors_of s) = s.
Proof.
  intros [m Hm]. revert s Hm. induction m as [|m IH]; intros s Hm.
  - destruct s; [reflexivity|discriminate Hm].
  - destruct s as [|x [|y s]]; try (cbn [length] in Hm; lia).
    cbn [vectors_of]. unfold letters_of in *. cbn [flat_map map app].
    rewrite IH by (cbn [length] in Hm; lia). f_equal; [lia|]. f_equal. lia.
Qed.

Lemma vectors_of_upper (s : text) :
  forallb ascii_upper s = true -> Forall positions2 (vectors_of s).
Proof.
  induction s as [s IH] using (induction_ltof1 _ (@length Z)). unfold ltof in IH.
  destruct s as [|x [|y s]]; cbn [vectors_of forallb]; try constructor.
  - apply andb_true_iff in H as [Hx [Hy _]%andb_true_iff].
    apply ascii_upper_spec in Hx, Hy. exists (x - 65), (y - 65).
    split; [reflexivity|lia].
  - apply IH; [cbn [length]; lia|].
    apply andb_true_iff in H as [_ [_ H]%andb_true_iff]. assumption.
Qed.

Lemma positions2_pairs (vs : list (list Z)) :
  Forall positions2 vs -> Forall (fun v => exists x y, v = [x; y]) vs.
Proof.
  intros H. eapply Forall_impl; [exact H|]. intros v (x & y & -> & _). eauto.
Qed.

(** The inverse matrix undoes the key matrix on vectors of positions. *)
Lemma apply2_inverse (a b c d v : Z) (vs : list (list Z)) :
  ((a * d - b * c) * v) mod 26 = 1 ->
  Forall positions2 vs ->
  map (apply2 ((v * d) mod 26) ((v * - b) mod 26) ((v * - c) mod 26) ((v * a) mod 26))
      (map (apply2 a b c d) vs) = vs.
Proof.
  intros Hinv. induction 1 as [|w vs (x & y & -> & Hx & Hy) _ IH]; [reflexivity|].
  cbn [map apply2]. rewrite IH. f_equal.
  rewrite !mod26_comb, !mod26_comb_r.
  replace (v * d * (a * x + b * y) + v * - b * (c * x + d * y))
    with (((a * d - b * c) * v) * x) by ring.
  replace (v * - c * (a * x + b * y) + v * a * (c * x + d * y))
    with (((a * d - b * c) * v) * y) by ring.
  rewrite <- (Zmult_mod_idemp_l _ x), <- (Zmult_mod_idemp_l _ y), Hinv.
  rewrite !Z.mul_1_l, !Z.mod_small by lia. reflexivity.
Qed.

(** Round trip on any ASCII text: the prepared text comes back. *)
Lemma hill_roundtrip_ascii (a b c d : Z) (T : text) :
  gcd ((a * d - b * c) mod 26) 26 = 1 ->
  forallb ascii T = true ->
  exists e r,
    encrypt T [[a; b]; [c; d]] = Ok (Done e) /\
    decrypt (result e) [[a; b]; [c; d]] = Ok (Done r) /\
    result r = prepare_text T.
Proof.
  intros Hg HT.
  destruct (hill_encrypt_eq a b c d T Hg) as (steps & inv & He).
  eexists. rewrite He. cbn [result].
  set (V := vectors_of (prepare_text T)).
  assert (HV : Forall positions2 V)
    by (apply vectors_of_upper, prepare_text_ascii_upper; assumption).
  assert (HC : Forall positions2 (map (apply2 a b c d) V))
    by (apply apply2_positions, positions2_pairs; assumption).
  destruct (letters_of_upper _ HC) as [Hup Hev].
  destruct (hill_decrypt_eq a b c d (letters_of (map (apply2 a b c d) V)) Hg)
    as (v & dsteps & Hv & Hinv & Hd).
  eexists. split; [reflexivity|]. split; [exact Hd|]. cbn [result].
  rewrite prepare_text_fixed by assumption.
  rewrite vectors_of_letters_of by (apply positions2_pairs; assumption).
  rewrite apply2_inverse by assumption.
  apply letters_of_vectors_of, length_prepare_text_even.
Qed.

(** C1, as the code has it. For every 2x2 integer key whose determinant
    modulo 26 is coprime with 26 and every even-length text of ASCII
    letters, decrypting the encryption returns the text uppercased; it is
    the text itself when the text is uppercase. *)
Theorem hill_roundtrip_upper (a b c d : Z) (T : text) :
  Z.gcd ((a * d - b * c) mod 26) 26 = 1 ->
  forallb ascii_letter T = true ->
  Nat.Even (length T) ->
  exists e r,
    encrypt T [[a; b]; [c; d]] = Ok (Done e) /\
    decrypt (result e) [[a; b]; [c; d]] = Ok (Done r) /\
    result r = upper T /\
    (forallb ascii_upper T = true -> result r = T).
Proof.
  intros Hg HT Hev. rewrite <- gcd_spec in Hg.
  destruct (hill_roundtrip_ascii a b c d T Hg) as (e & r & He & Hr & Hres).
  { revert HT. apply forallb_impl, ascii_letter_ascii. }
  exists e, r. split; [assumption|]. split; [assumption|].
  rewrite Hres, prepare_text_letters by assumption.
  split; [reflexivity|]. apply upper_of_uppercase.
Qed.

Lemma hill_roundtrip_upper_witness :
  exists e r,
    encrypt (str "Help") [[3; 3]; [2; 5]] = Ok (Done e) /\
    decrypt (result e) [[3; 3]; [2; 5]] = Ok (Done r) /\
    result r = upper (str "Help") /\
    (forallb ascii_upper (str "Help") = true -> result r = str "Help").
Proof.
  apply (hill_roundtrip_upper 3 3 2 5 (str "Help"));
    [reflexivity | reflexivity | exists 2%nat; reflexivity].
Defined.

(** C1, as stated, fails on lowercase letters: with the key [[3,3],[2,5]],
    "ab" comes back as "AB". *)
Lemma hill_roundtrip_lowercase_differs :
  ~ (forall (a b c d : Z) (T : text),
       Z.gcd ((a * d - b * c) mod 26) 26 = 1 ->
       forallb isalpha T = true ->
       Nat.Even (length T) ->
       forall e r,
         encrypt T [[a; b]; [c; d]] = Ok (Done e) ->
         decrypt (result e) [[a; b]; [c; d]] = Ok (Done r) ->
         result r = T).
Proof.
  intros H.
  destruct (hill_roundtrip_ascii 3 3 2 5 (str "ab")) as (e & r & He & Hr & Hres);
    [vm_compute; reflexivity | reflexivity |].
  specialize (H 3 3 2 5 (str "ab") eq_refl eq_refl
                (ex_intro _ 1%nat eq_refl) e r He Hr).
  rewrite Hres in H. vm_compute in H. discriminate H.
Qed.

(** C2. With K = [[3,3],[2,5]], "HELP" encrypts to "HIAT", and [crack] on
    the pair ("HELP", "HIAT") returns exactly K with success true. *)
Theorem hill_crack_help :
  exists e r,
    encrypt (str "HELP") [[3; 3]; [2; 5]] = Ok (Done e) /\
    result e = str "HIAT" /\
    crack (str "HELP") (result e) = Ok (CrackFound r) /\
    found_key_matrix r = [[3; 3]; [2; 5]] /\
    success r = true.
Proof.
  eexists. eexists.
  split; [vm_compute; reflexivity|].
  split; [vm_compute; reflexivity|].
  split; [vm_compute; reflexivity|].
  split; vm_compute; reflexivity.
Qed.

End Hill.

(* ===================================================================== *)
(** * Hill cipher: known-plaintext key recovery *)
(* ===================================================================== *)

Section Crack.

Import HillCipher.

(** ** Windows *)

Lemma length_slice {A : Type} (l : list A) (lo hi : Z) :
  0 <= lo <= hi -> hi <= len l -> len (slice l lo hi) = hi - lo.
Proof.
  intros Hlo Hhi. unfold slice, slice_bound. cmp_lia.
  rewrite !Z.min_r, !Z.max_r by lia.
  unfold len in *. rewrite length_firstn, length_skipn. lia.
Qed.

Lemma window_4 (l : text) (pos : Z) :
  0 <= pos -> pos + 4 <= len l ->
  exists w0 w1 w2 w3, slice l pos (pos + 4) = [w0; w1; w2; w3].
Proof.
  intros H0 H4. pose proof (length_slice l pos (pos + 4) ltac:(lia) H4) as Hlen.
  unfold len in Hlen.
  destruct (slice l pos (pos + 4)) as [|w0 [|w1 [|w2 [|w3 [|w4 r]]]]];
    cbn [length] in Hlen; try lia.
  eauto.
Qed.

Lemma window_matrix_4 (w0 w1 w2 w3 : Z) :
  window_matrix [w0; w1; w2; w3] = Ok [[w0 - 65; w2 - 65]; [w1 - 65; w3 - 65]].
Proof. reflexivity. Qed.

Lemma invertible_at_window (pt : text) (pos w0 w1 w2 w3 : Z) :
  slice pt pos (pos + 4) = [w0; w1; w2; w3] ->
  invertible_at pt pos
  = (gcd (((w0 - 65) * (w3 - 65) - (w2 - 65) * (w1 - 65)) mod 26) 26 =? 1).
Proof.
  intros E. unfold invertible_at. rewrite E, window_matrix_4. cbn [bind].
  unfold is_matrix_invertible_mod_26. rewrite determinant_2x2_eq. cbn [bind].
  rewrite mod_26. reflexivity.
Qed.

Lemma window_det_mod_4 (w0 w1 w2 w3 : Z) :
  window_det_mod [w0; w1; w2; w3]
  = ((w0 - 65) * (w3 - 65) - (w2 - 65) * (w1 - 65)) mod 26.
Proof.
  unfold window_det_mod. rewrite window_matrix_4. cbn [bind].
  rewrite determinant_2x2_eq. cbn [bind]. rewrite mod_26. reflexivity.
Qed.

(** ** One offset *)

Lemma try_crack_rejects (pt ct : text) (pos : Z) :
  0 <= pos -> pos + 4 <= len pt -> pos + 4 <= len ct ->
  invertible_at pt pos = false ->
  _try_crack_at_position pt ct pos = Ok None.
Proof.
  intros H0 Hp Hc Hinv.
  destruct (window_4 pt pos H0 Hp) as (p0 & p1 & p2 & p3 & Ep).
  destruct (window_4 ct pos H0 Hc) as (c0 & c1 & c2 & c3 & Ec).
  rewrite (invertible_at_window _ _ _ _ _ _ Ep) in Hinv.
  unfold _try_crack_at_position. rewrite Ep, Ec.
  change ((len [p0; p1; p2; p3] <? 4) || (len [c0; c1; c2; c3] <? 4)) with false.
  cbv iota. rewrite window_matrix_4. cbn [bind].
  rewrite determinant_2x2_eq. cbn [bind]. rewrite mod_26. cbn [bind].
  rewrite Hinv. reflexivity.
Qed.

(** At an invertible window the candidate key is C times the inverse of P,
    a 2x2 matrix. *)
Lemma try_crack_accepts (pt ct : text) (pos : Z) :
  0 <= pos -> pos + 4 <= len pt -> pos + 4 <= len ct ->
  invertible_at pt pos = true ->
  exists cand Pinv k00 k01 k10 k11,
    _try_crack_at_position pt ct pos = Ok (Some cand) /\
    position cand = pos /\
    used_plaintext cand = slice pt pos (pos + 4) /\
    used_ciphertext cand = slice ct pos (pos + 4) /\
    window_matrix (slice pt pos (pos + 4)) = Ok (P cand) /\
    window_matrix (slice ct pos (pos + 4)) = Ok (C cand) /\
    matrix_inverse_mod_26 (P cand) = Ok (Some Pinv) /\
    P_inv cand = Pinv /\
    matrix_multiply_mod (C cand) Pinv 26 = Ok (cand_key_matrix cand) /\
    cand_key_matrix cand = [[k00; k01]; [k10; k11]].
Proof.
  intros H0 Hp Hc Hinv.
  destruct (window_4 pt pos H0 Hp) as (p0 & p1 & p2 & p3 & Ep).
  destruct (window_4 ct pos H0 Hc) as (c0 & c1 & c2 & c3 & Ec).
  rewrite (invertible_at_window _ _ _ _ _ _ Ep) in Hinv.
  set (det := (p0 - 65) * (p3 - 65) - (p2 - 65) * (p1 - 65)) in *.
  pose proof Hinv as Hg. apply Z.eqb_eq in Hg. rewrite gcd_spec in Hg.
  destruct (mod_inverse_26 (det mod 26)) as [(_ & v & Ev & _) | (Hn & _)];
    [|contradiction].
  assert (HPinv :
    matrix_inverse_mod_26 [[p0 - 65; p2 - 65]; [p1 - 65; p3 - 65]]
    = Ok (Some [[(v * (p3 - 65)) mod 26; (v * - (p2 - 65)) mod 26];
                [(v * - (p1 - 65)) mod 26; (v * (p0 - 65)) mod 26]])).
  { rewrite matrix_inverse_2x2. fold det. rewrite Ev. reflexivity. }
  pose proof (matrix_multiply_mod_eq (c0 - 65) (c2 - 65) (c1 - 65) (c3 - 65)
                ((v * (p3 - 65)) mod 26) ((v * - (p2 - 65)) mod 26)
                ((v * - (p1 - 65)) mod 26) ((v * (p0 - 65)) mod 26)) as HK.
  eexists (mkCandidate pos _ _ _ _ _ _ det (det mod 26)), _, _, _, _, _.
  cbn [position used_plaintext used_ciphertext P C P_inv cand_key_matrix].
  split.
  { unfold _try_crack_at_position. rewrite Ep, Ec.
    change ((len [p0; p1; p2; p3] <? 4) || (len [c0; c1; c2; c3] <? 4)) with false.
    cbv iota. rewrite !window_matrix_4. cbn [bind].
    rewrite determinant_2x2_eq. cbn [bind]. rewrite mod_26. cbn [bind].
    fold det. rewrite Hinv. cbn [negb]. rewrite HPinv. cbn [bind].
    rewrite HK. cbn [bind]. reflexivity. }
  rewrite Ep, Ec, !window_matrix_4.
  repeat (split; [reflexivity|]).
  split; [exact HPinv|]. split; [reflexivity|]. split; [exact HK|reflexivity].
Qed.

(** ** The offsets scanned *)

Lemma in_range2 (N q : Z) :
  In q (range 0 N 2) -> 0 <= q < N /\ exists j : nat, q = 2 * Z.of_nat j.
Proof.
  unfold range. intros (k & <- & Hk)%in_map_iff. apply in_seq in Hk.
  split; [|exists k; lia].
  destruct (Z.le_gt_cases ((N - 0 + 2 - 1) / 2) 0) as [Hle|Hgt]; [lia|].
  pose proof (Z.div_mod (N - 0 + 2 - 1) 2 ltac:(lia)).
  pose proof (Z.mod_pos_bound (N - 0 + 2 - 1) 2 ltac:(lia)). lia.
Qed.

Lemma range2_split (N pos : Z) :
  In pos (range 0 N 2) ->
  exists after, range 0 N 2 = range 0 pos 2 ++ pos :: after.
Proof.
  unfold range. intros (j & <- & Hj)%in_map_iff. apply in_seq in Hj.
  set (cnt := Z.to_nat ((N - 0 + 2 - 1) / 2)) in *.
  replace (Z.to_nat ((0 + 2 * Z.of_nat j - 0 + 2 - 1) / 2)) with j.
  - replace cnt with (j + S (cnt - j - 1))%nat by lia.
    rewrite seq_app, map_app. cbn [seq map Nat.add]. eauto.
  - replace ((0 + 2 * Z.of_nat j - 0 + 2 - 1) / 2) with (Z.of_nat j); [lia|].
    apply Z.div_unique with (r := 1); lia.
Qed.

Lemma range2_nonempty (N : Z) : 1 <= N -> range 0 N 2 <> [].
Proof.
  intros HN. unfold range.
  assert (1 <= (N - 0 + 2 - 1) / 2) by (apply Z.div_le_lower_bound; lia).
  destruct (Z.to_nat ((N - 0 + 2 - 1) / 2)) eqn:E; [lia|]. discriminate.
Qed.

(** ** The search loop *)

Lemma search_rejects (pt ct : text) (positions : list Z) :
  Forall (fun q => 0 <= q /\ q + 4 <= len pt /\ q + 4 <= len ct /\
                   invertible_at pt q = false) positions ->
  forall tried,
    search pt ct positions tried
    = Ok (tried ++ map (rejected pt ct) positions, None).
Proof.
  induction 1 as [|q positions (H0 & Hp & Hc & Hinv) _ IH]; intros tried;
    cbn [search map].
  - rewrite app_nil_r. reflexivity.
  - rewrite try_crack_rejects by assumption. cbn [bind].
    destruct (window_4 pt q H0 Hp) as (p0 & p1 & p2 & p3 & Ep).
    unfold rejected at 1. rewrite Ep, window_det_mod_4, window_matrix_4. cbn [bind].
    rewrite determinant_2x2_eq. cbn [bind]. rewrite mod_26. cbn [bind].
    rewrite IH, <- app_assoc. reflexivity.
Qed.

Lemma search_accepts (pt ct : text) (before : list Z) (pos : Z) (cand : Candidate) :
  Forall (fun q => 0 <= q /\ q + 4 <= len pt /\ q + 4 <= len ct /\
                   invertible_at pt q = false) before ->
  _try_crack_at_position pt ct pos = Ok (Some cand) ->
  forall after tried,
    search pt ct (before ++ pos :: after) tried
    = Ok (tried ++ map (rejected pt ct) before ++ [accepted pt ct pos], Some cand).
Proof.
  intros Hbefore Htry after.
  induction Hbefore as [|q before (H0 & Hp & Hc & Hinv) _ IH]; intros tried;
    cbn [search map app].
  - rewrite Htry. reflexivity.
  - rewrite try_crack_rejects by assumption. cbn [bind].
    destruct (window_4 pt q H0 Hp) as (p0 & p1 & p2 & p3 & Ep).
    unfold rejected at 1. rewrite Ep, window_det_mod_4, window_matrix_4. cbn [bind].
    rewrite determinant_2x2_eq. cbn [bind]. rewrite mod_26. cbn [bind].
    rewrite IH, <- app_assoc. reflexivity.
Qed.

(** Every rejected entry records a determinant modulo 26 that is not
    coprime with 26. *)
Lemma rejected_reason (pt ct : text) (q : Z) :
  0 <= q -> q + 4 <= len pt -> invertible_at pt q = false ->
  exists window det,
    window_matrix (slice pt q (q + 4)) = Ok window /\
    determinant_2x2 window = Ok det /\
    t_reason (rejected pt ct q) = NotCoprime (det mod 26) (gcd (det mod 26) 26) /\
    gcd (det mod 26) 26 <> 1.
Proof.
  intros H0 Hp Hinv. destruct (window_4 pt q H0 Hp) as (p0 & p1 & p2 & p3 & Ep).
  rewrite (invertible_at_window _ _ _ _ _ _ Ep) in Hinv. apply Z.eqb_neq in Hinv.
  unfold rejected. cbn [t_reason]. rewrite Ep, window_det_mod_4, window_matrix_4.
  eexists _, _. split; [reflexivity|]. split; [apply determinant_2x2_eq|].
  split; [reflexivity|assumption].
Qed.

(** ** The step "Search for invertible plaintext matrix" *)

Lemma len_map {A B : Type} (f : A -> B) (l : list A) : len (map f l) = len l.
Proof. unfold len. rewrite length_map. reflexivity. Qed.

Lemma show_search_rejected (pt ct : text) (positions : list Z) :
  positions <> [] ->
  (if 1 <? len (map (rejected pt ct) positions) then Ok true
   else if len (map (rejected pt ct) positions) =? 1 then
          t0 <- getitem (map (rejected pt ct) positions) 0 ;;
          Ok (negb (t_invertible t0))
        else Ok false)
  = Ok true.
Proof.
  intros Hne. destruct positions as [|q [|q' r]]; [contradiction|reflexivity|].
  cbn [map]. rewrite !len_cons. pose proof (len_nonneg (map (rejected pt ct) r)).
  cmp_lia. reflexivity.
Qed.

Lemma show_search_accepted (pt ct : text) (before : list Z) (pos : Z) :
  (if 1 <? len (map (rejected pt ct) before ++ [accepted pt ct pos]) then Ok true
   else if len (map (rejected pt ct) before ++ [accepted pt ct pos]) =? 1 then
          t0 <- getitem (map (rejected pt ct) before ++ [accepted pt ct pos]) 0 ;;
          Ok (negb (t_invertible t0))
        else Ok false)
  = Ok (negb (len before =? 0)).
Proof.
  destruct before as [|q r]; [reflexivity|].
  cbn [map app]. rewrite !len_cons, len_app.
  pose proof (len_nonneg (map (rejected pt ct) r)).
  change (len [accepted pt ct pos]) with 1. pose proof (len_nonneg r).
  cmp_lia. reflexivity.
Qed.

Lemma len_range2 (pos : Z) :
  In pos (range 0 (pos + 1) 2) -> (len (range 0 pos 2) =? 0) = (pos =? 0).
Proof.
  intros (_ & j & ->)%in_range2. unfold range, len.
  rewrite length_map, length_seq.
  replace ((2 * Z.of_nat j - 0 + 2 - 1) / 2) with (Z.of_nat j)
    by (apply Z.div_unique with (r := 1); lia).
  rewrite Nat2Z.id. destruct (Z.eqb_spec (Z.of_nat j) 0), (Z.eqb_spec (2 * Z.of_nat j) 0);
    lia || reflexivity.
Qed.

(** ** Exhaustion *)

(** C9. For ASCII texts (on which [isalpha] and [upper] are the tables
    of Python): when both prepared texts have at least 4 letters and no
    even offset from 0 to length-4 of the truncated texts has an invertible
    plaintext window, [crack] returns the failure record: success false,
    the error message, no key, the suggestion, and the log with one entry
    per offset, each marked not invertible with the determinant modulo 26
    and its gcd with 26, which is not 1. *)
Theorem hill_crack_exhausted (kp kc pt ct : text) (n : Z) :
  forallb ascii kp = true ->
  forallb ascii kc = true ->
  n = Z.min (len (prepare_text kp)) (len (prepare_text kc)) ->
  pt = slice (prepare_text kp) 0 n ->
  ct = slice (prepare_text kc) 0 n ->
  4 <= n ->
  (forall q, In q (range 0 (n - 3) 2) -> invertible_at pt q = false) ->
  let log := map (rejected pt ct) (range 0 (n - 3) 2) in
  crack kp kc
  = Ok (CrackExhausted
          (mkExhausted NoInvertibleWindow false [SearchStep (len log) log] log
                       TryLongerPair)) /\
  log <> [] /\
  map t_position log = range 0 (n - 3) 2 /\
  Forall (fun t =>
            t_invertible t = false /\
            exists window det,
              window_matrix (t_plaintext t) = Ok window /\
              determinant_2x2 window = Ok det /\
              t_reason t = NotCoprime (det mod 26) (gcd (det mod 26) 26) /\
              gcd (det mod 26) 26 <> 1) log.
Proof.
  intros _ _ Hn Hpt Hct H4 Hnone log.
  assert (Hlp : len pt = n) by (subst pt; rewrite length_slice; lia).
  assert (Hlc : len ct = n) by (subst ct; rewrite length_slice; lia).
  assert (Hpos : Forall (fun q => 0 <= q /\ q + 4 <= len pt /\ q + 4 <= len ct /\
                                  invertible_at pt q = false)
                        (range 0 (n - 3) 2)).
  { apply Forall_forall. intros q Hq%list_elem_of_In.
    pose proof (in_range2 _ _ Hq) as [Hr _]. specialize (Hnone q Hq).
    repeat split; try assumption; lia. }
  assert (Hne : range 0 (n - 3) 2 <> []) by (apply range2_nonempty; lia).
  split; [|split; [|split]].
  - unfold crack. cbv zeta.
    replace ((len (prepare_text kp) <? 4) || (len (prepare_text kc) <? 4))
      with false by (cmp_lia; reflexivity).
    rewrite <- Hn, <- Hpt, <- Hct.
    rewrite (search_rejects pt ct _ Hpos []). cbn [bind app].
    rewrite show_search_rejected by assumption. cbn [bind]. reflexivity.
  - subst log. destruct (range 0 (n - 3) 2); [contradiction|discriminate].
  - subst log. rewrite map_map. cbn [rejected t_position]. apply map_id.
  - subst log. apply Forall_forall. intros t Ht%list_elem_of_In.
    apply in_map_iff in Ht as (q & <- & Hq).
    rewrite Forall_forall in Hpos.
    destruct (Hpos q) as (H0 & Hp & _ & Hinv); [apply list_elem_of_In, Hq|].
    split; [reflexivity|]. apply rejected_reason; assumption.
Qed.

Lemma hill_crack_exhausted_witness :
  let log := map (rejected (str "AAAAAA") (str "BBBBBB")) (range 0 (6 - 3) 2) in
  crack (str "AAAAAA") (str "BBBBBB")
  = Ok (CrackExhausted
          (mkExhausted NoInvertibleWindow false [SearchStep (len log) log] log
                       TryLongerPair)) /\
  log <> [] /\
  map t_position log = range 0 (6 - 3) 2 /\
  Forall (fun t =>
            t_invertible t = false /\
            exists window det,
              window_matrix (t_plaintext t) = Ok window /\
              determinant_2x2 window = Ok det /\
              t_reason t = NotCoprime (det mod 26) (gcd (det mod 26) 26) /\
              gcd (det mod 26) 26 <> 1) log.
Proof.
  apply (hill_crack_exhausted (str "AAAAAA") (str "BBBBBB")
                              (str "AAAAAA") (str "BBBBBB") 6);
    [reflexivity | reflexivity
    | vm_compute; reflexivity | vm_compute; reflexivity | vm_compute; reflexivity
    | lia | ].
  intros q Hq. vm_compute in Hq.
  destruct Hq as [<-|[<-|[]]]; vm_compute; reflexivity.
Defined.

(** ** The first invertible offset *)

(** C3. For ASCII texts (on which [isalpha] and [upper] are the tables
    of Python): when [pos] is the first even offset of the scan whose
    plaintext window is invertible modulo 26,
    [crack] takes the candidate key of that offset (C times the inverse of
    P), encrypts the whole truncated plaintext with it and compares the
    result with the whole truncated ciphertext: success is exactly that
    comparison, so a mismatch gives success false, reported with the
    expected and the actual text in the record without "error" key; the
    offset log ends at [pos], no later offset is tried. *)
Theorem hill_crack_first_invertible (kp kc pt ct : text) (n pos : Z) :
  forallb ascii kp = true ->
  forallb ascii kc = true ->
  n = Z.min (len (prepare_text kp)) (len (prepare_text kc)) ->
  pt = slice (prepare_text kp) 0 n ->
  ct = slice (prepare_text kc) 0 n ->
  In pos (range 0 (n - 3) 2) ->
  invertible_at pt pos = true ->
  (forall q, In q (range 0 pos 2) -> invertible_at pt q = false) ->
  let log := map (rejected pt ct) (range 0 pos 2) ++ [accepted pt ct pos] in
  exists cand Pinv check d,
    _try_crack_at_position pt ct pos = Ok (Some cand) /\
    window_matrix (slice pt pos (pos + 4)) = Ok (P cand) /\
    window_matrix (slice ct pos (pos + 4)) = Ok (C cand) /\
    matrix_inverse_mod_26 (P cand) = Ok (Some Pinv) /\
    matrix_multiply_mod (C cand) Pinv 26 = Ok (cand_key_matrix cand) /\
    encrypt pt (cand_key_matrix cand) = Ok check /\
    crack kp kc = Ok (CrackFound d) /\
    found_key_matrix d = cand_key_matrix cand /\
    known_plaintext d = pt /\
    known_ciphertext d = ct /\
    used_window d = mkWindow pos (slice pt pos (pos + 4)) (slice ct pos (pos + 4)) /\
    verification d = mkVerification (get_result check []) ct (success d) /\
    success d = bool_decide (get_result check [] = ct) /\
    (get_result check [] <> ct -> success d = false) /\
    f_steps d
    = (if pos =? 0 then [] else [SearchStep (len log) log])
      ++ [FormP (slice pt pos (pos + 4)) pos (P cand);
          FormC (slice ct pos (pos + 4)) (C cand);
          DetP (P cand) (det_P cand) (det_P_mod cand);
          InvertP Pinv;
          ComputeK (cand_key_matrix cand);
          Verify pt (get_result check (str "ERROR")) ct (success d)].
Proof.
  intros _ _ Hn Hpt Hct Hpos Hinv Hfirst log.
  pose proof (in_range2 _ _ Hpos) as [Hr (j & Hj)].
  assert (H4 : 4 <= n) by lia.
  assert (Hlp : len pt = n) by (subst pt; rewrite length_slice; lia).
  assert (Hlc : len ct = n) by (subst ct; rewrite length_slice; lia).
  destruct (range2_split _ _ Hpos) as [after Hsplit].
  assert (Hbefore : Forall (fun q => 0 <= q /\ q + 4 <= len pt /\ q + 4 <= len ct /\
                                     invertible_at pt q = false)
                           (range 0 pos 2)).
  { apply Forall_forall. intros q Hq%list_elem_of_In.
    pose proof (in_range2 _ _ Hq) as [Hq' _]. specialize (Hfirst q Hq).
    repeat split; try assumption; lia. }
  destruct (try_crack_accepts pt ct pos) as
    (cand & Pinv & k00 & k01 & k10 & k11 & Htry & Hcp & Hup & Huc & HP & HC &
     HPinv & HPi & HK & Hshape); try assumption; try lia.
  destruct (hill_encrypt_total k00 k01 k10 k11 pt) as [check Hcheck].
  rewrite <- Hshape in Hcheck.
  assert (Hempty : (len (range 0 pos 2) =? 0) = (pos =? 0)).
  { apply len_range2. unfold range.
    apply in_map_iff. exists j. split; [lia|]. apply in_seq.
    replace ((pos + 1 - 0 + 2 - 1) / 2) with (Z.of_nat j + 1)
      by (apply Z.div_unique with (r := 0); lia).
    lia. }
  exists cand, Pinv, check.
  eexists. split; [exact Htry|]. split; [exact HP|]. split; [exact HC|].
  split; [exact HPinv|]. split; [exact HK|]. split; [exact Hcheck|].
  split.
  { unfold crack. cbv zeta.
    replace ((len (prepare_text kp) <? 4) || (len (prepare_text kc) <? 4))
      with false by (cmp_lia; reflexivity).
    rewrite <- Hn, <- Hpt, <- Hct. rewrite Hsplit.
    rewrite (search_accepts pt ct _ pos cand Hbefore Htry after []).
    cbn [bind app]. rewrite show_search_accepted. cbn [bind].
    rewrite Hcheck. cbn [bind]. reflexivity. }
  cbn [found_key_matrix known_plaintext known_ciphertext used_window verification
       success f_steps].
  rewrite Hcp, Hup, Huc, HPi, Hempty.
  repeat (split; [reflexivity|]). split.
  - intros Hne. apply bool_decide_eq_false. assumption.
  - fold log. destruct (pos =? 0); reflexivity.
Qed.

(** An instance: in "AAAAHELPME" the windows at offsets 0 and 2 are
    singular and the one at offset 4 is invertible; the ciphertext
    "AAAAHIATZZ" agrees with the key of that window on the first eight
    letters only, so the verification fails. *)
Lemma hill_crack_first_invertible_witness :
  exists d,
    crack (str "AAAAHELPME") (str "AAAAHIATZZ") = Ok (CrackFound d) /\
    found_key_matrix d = [[3; 3]; [2; 5]] /\
    w_position (used_window d) = 4 /\
    encrypted (verification d) = str "AAAAHIATWS" /\
    expected (verification d) = str "AAAAHIATZZ" /\
    success d = false.
Proof.
  destruct (hill_crack_first_invertible
              (str "AAAAHELPME") (str "AAAAHIATZZ")
              (str "AAAAHELPME") (str "AAAAHIATZZ") 10 4)
    as (cand & Pinv & check & d & Htry & _ & _ & _ & _ & Hcheck & Hcrack & HK &
        _ & _ & Hw & Hv & Hs & _).
  - reflexivity.
  - reflexivity.
  - vm_compute. reflexivity.
  - vm_compute. reflexivity.
  - vm_compute. reflexivity.
  - vm_compute. right. right. left. reflexivity.
  - vm_compute. reflexivity.
  - intros q Hq. vm_compute in Hq.
    destruct Hq as [<-|[<-|[]]]; vm_compute; reflexivity.
  - exists d. split; [exact Hcrack|].
    vm_compute in Htry. injection Htry as <-.
    vm_compute in Hcheck. injection Hcheck as <-.
    rewrite Hv, Hw, HK, Hs. repeat split; vm_compute; reflexivity.
Defined.

End Crack.

(* ===================================================================== *)
(** * Further properties of math_utils *)
(* ===================================================================== *)

Section MathUtilsMore.

Lemma mod_nonzero (n m : Z) : m <> 0 -> mod_ n m = Ok (n mod m).
Proof.
  intros Hm. unfold mod_, rem. cmp_lia. cbn [bind].
  replace (n mod m + m) with (n mod m + 1 * m) by lia.
  rewrite Z_mod_plus_full, Z.mod_mod by assumption. reflexivity.
Qed.

(** X1. [mod(n, m)] is the floor remainder for every non-zero modulus: in
    [0, m) when m is positive, in (m, 0] when m is negative; with m = 0 it
    raises ZeroDivisionError. *)
Theorem mod_spec (n m : Z) :
  (m = 0 -> mod_ n m = Raise ZeroDivisionError) /\
  (m <> 0 -> mod_ n m = Ok (n mod m)) /\
  (0 < m -> 0 <= n mod m < m) /\
  (m < 0 -> m < n mod m <= 0).
Proof.
  split; [intros ->; reflexivity|]. split; [apply mod_nonzero|].
  split; [apply Z.mod_pos_bound | apply Z.mod_neg_bound].
Qed.

Lemma mod_spec_witness :
  mod_ (-7) 0 = Raise ZeroDivisionError /\
  mod_ (-7) 26 = Ok ((-7) mod 26) /\
  0 <= (-7) mod 26 < 26 /\
  -3 < 5 mod -3 <= 0.
Proof.
  split; [apply (proj1 (mod_spec (-7) 0)); reflexivity|].
  split; [apply (proj1 (proj2 (mod_spec (-7) 26))); lia|].
  split; [apply (proj1 (proj2 (proj2 (mod_spec (-7) 26)))); lia|].
  apply (proj2 (proj2 (proj2 (mod_spec 5 (-3))))). lia.
Defined.

(** X2. [gcd] is the greatest common divisor of the absolute values, for
    all integers of either sign; in particular gcd(0, 0) = 0 and the
    result is never negative. *)
Theorem gcd_is_Zgcd (a b : Z) :
  gcd a b = Z.gcd a b /\ 0 <= gcd a b /\ gcd 0 0 = 0 /\
  gcd a b = gcd (- a) b /\ gcd a b = gcd b a.
Proof.
  rewrite !gcd_spec. split; [reflexivity|]. split; [apply Z.gcd_nonneg|].
  split; [reflexivity|]. split; [symmetry; apply Z.gcd_opp_l | apply Z.gcd_comm].
Qed.

Lemma extended_gcd_bezout (a b : Z) :
  forall g x y, extended_gcd a b = (g, x, y) ->
  a * x + b * y = g /\ Z.abs g = Z.gcd a b.
Proof.
  funelim (extended_gcd a b); intros g x y Hres.
  - subst a. inversion Hres; subst. split; [lia|]. symmetry. apply Z.gcd_0_l.
  - destruct (extended_gcd (b mod a) a) as [[g1 x1] y1] eqn:Hrec.
    injection Hres as <- <- <-.
    match goal with
    | IH : forall g x y, _ = _ -> _ |- _ =>
        destruct (IH g1 x1 y1 eq_refl) as [Hbez Hg]
    end.
    split.
    + rewrite <- Hbez. rewrite (Z.mod_eq b a) by assumption. ring.
    + rewrite Hg. apply Z.gcd_mod. assumption.
Qed.

(** The recursion within a stack of frames. *)
Lemma extended_gcd_zero (b : Z) : extended_gcd 0 b = (b, 0, 1).
Proof. simp extended_gcd. reflexivity. Qed.

Lemma extended_gcd_step (a b : Z) :
  a <> 0 ->
  extended_gcd a b
  = let '(gcd_val, x1, y1) := extended_gcd (b mod a) a in
    (gcd_val, y1 - (b / a) * x1, x1).
Proof.
  intros Ha. rewrite (extended_gcd_unfold_eq a b). unfold extended_gcd_unfold.
  destruct (Z.eq_dec a 0) as [E|E]; [contradiction|]. reflexivity.
Qed.

Lemma within_zero (frames : nat) (b : Z) :
  extended_gcd_within (S frames) 0 b = Some (extended_gcd 0 b).
Proof. rewrite extended_gcd_zero. reflexivity. Qed.

Lemma within_step (frames : nat) (a b : Z) :
  a <> 0 ->
  extended_gcd_within frames (b mod a) a = Some (extended_gcd (b mod a) a) ->
  extended_gcd_within (S frames) a b = Some (extended_gcd a b).
Proof.
  intros Ha Hrec. cbn [extended_gcd_within]. cmp_lia.
  rewrite Hrec, (extended_gcd_step a b) by assumption.
  destruct (extended_gcd (b mod a) a) as [[g x1] y1]. reflexivity.
Qed.

(** Two division steps halve the first operand. *)
Lemma euclid_halves (a b : Z) :
  a <> 0 -> b mod a <> 0 -> 2 * Z.abs (a mod (b mod a)) < Z.abs a.
Proof.
  intros Ha Hr. set (r := b mod a) in *.
  pose proof (Z.div_mod a r Hr) as Hdiv.
  destruct (Z.lt_trichotomy a 0) as [Hneg|[H0|Hpos]]; [|contradiction|].
  - pose proof (Z.mod_neg_bound b a Hneg) as Hb. fold r in Hb.
    pose proof (Z.mod_neg_bound a r ltac:(lia)) as Hm.
    assert (1 <= a / r) by nia. nia.
  - pose proof (Z.mod_pos_bound b a Hpos) as Hb. fold r in Hb.
    pose proof (Z.mod_pos_bound a r ltac:(lia)) as Hm.
    assert (1 <= a / r) by nia. nia.
Qed.

Lemma within_enough (k : nat) :
  forall (frames : nat) (a b : Z),
    Z.abs a < 2 ^ Z.of_nat k -> (2 * k + 1 <= frames)%nat ->
    extended_gcd_within frames a b = Some (extended_gcd a b).
Proof.
  induction k as [|k IH]; intros frames a b Ha Hf.
  - change (2 ^ Z.of_nat 0) with 1 in Ha. assert (a = 0) as -> by lia.
    destruct frames; [lia|]. apply within_zero.
  - destruct frames as [|[|frames]]; try lia.
    destruct (Z.eq_dec a 0) as [->|Ha0]; [apply within_zero|].
    apply within_step; [assumption|].
    destruct (Z.eq_dec (b mod a) 0) as [E|E]; [rewrite E; apply within_zero|].
    apply within_step; [assumption|]. apply IH; [|lia].
    pose proof (euclid_halves a b Ha0 E).
    rewrite Nat2Z.inj_succ, Z.pow_succ_r in Ha by lia. lia.
Qed.

(** X3. [extended_gcd] is recursive, one frame per division step, and two
    steps halve the first operand: for |a| < 2^k and any b, with at least
    2k+1 free frames [extended_gcd(a, b)] returns (without RecursionError)
    a triple (g, x, y) with a*x + b*y = g; |g| is the gcd of a and b, and
    g is the gcd itself when a and b are not negative. *)
Theorem extended_gcd_correct (k frames : nat) (a b : Z) :
  Z.abs a < 2 ^ Z.of_nat k ->
  (2 * k + 1 <= frames)%nat ->
  exists g x y,
    extended_gcd_within frames a b = Some (g, x, y) /\
    a * x + b * y = g /\
    Z.abs g = Z.gcd a b /\
    (0 <= a -> 0 <= b -> g = Z.gcd a b).
Proof.
  intros Ha Hf. rewrite (within_enough k) by assumption.
  destruct (extended_gcd a b) as [[g x] y] eqn:E. exists g, x, y.
  destruct (extended_gcd_bezout a b g x y E) as [Hbez Hg].
  split; [reflexivity|]. split; [assumption|]. split; [assumption|].
  intros Ha0 Hb0. apply (extended_gcd_spec a b Ha0 Hb0 g x y E).
Qed.

Lemma extended_gcd_correct_witness :
  exists g x y,
    extended_gcd_within 17 240 46 = Some (g, x, y) /\
    240 * x + 46 * y = g /\ g = Z.gcd 240 46.
Proof.
  destruct (extended_gcd_correct 8 17 240 46) as (g & x & y & E & Hbez & _ & Hg);
    [reflexivity | lia |].
  exists g, x, y. split; [exact E|]. split; [exact Hbez|]. apply Hg; lia.
Defined.

Lemma mod_inverse_general (a m : Z) :
  1 < m ->
  (Z.gcd a m = 1 /\
   exists v, mod_inverse a m = Ok (Some v) /\ 0 <= v < m /\ (a * v) mod m = 1)
  \/ (Z.gcd a m <> 1 /\ mod_inverse a m = Ok None).
Proof.
  intros Hm. unfold mod_inverse. rewrite mod_nonzero by lia. cbn [bind].
  destruct (extended_gcd (a mod m) m) as [[g x] y] eqn:E.
  apply extended_gcd_spec in E as [Hg Hbez];
    [|apply Z.mod_pos_bound; lia|lia].
  rewrite Z.gcd_mod, Z.gcd_comm in Hg by lia.
  destruct (Z.eqb_spec g 1) as [H1|H1]; cbn [negb].
  - left. split; [congruence|].
    exists (x mod m). rewrite mod_nonzero by lia. cbn [bind].
    split; [reflexivity|]. split; [apply Z.mod_pos_bound; lia|].
    rewrite Zmult_mod_idemp_r, <- Zmult_mod_idemp_l.
    replace (a mod m * x) with (1 + (- y) * m) by lia.
    rewrite Z_mod_plus_full. apply Z.mod_small. lia.
  - right. split; [congruence|reflexivity].
Qed.

Lemma no_inverse_general (a m : Z) :
  1 < m -> Z.gcd a m <> 1 -> forall v, (a * v) mod m <> 1.
Proof.
  intros Hm Hg v Hv. apply Hg, Z.bezout_1_gcd.
  exists v, (- ((a * v) / m)).
  pose proof (Z.mod_eq (a * v) m ltac:(lia)). lia.
Qed.

Lemma inverse_unique (a m v w : Z) :
  1 < m -> 0 <= v < m -> 0 <= w < m ->
  (a * v) mod m = 1 -> (a * w) mod m = 1 -> v = w.
Proof.
  intros Hm Hv Hw Hav Haw.
  assert (Hv' : v = (v * (a * w)) mod m).
  { rewrite <- Zmult_mod_idemp_r, Haw, Z.mul_1_r. symmetry. apply Z.mod_small. lia. }
  assert (Hw' : w = (w * (a * v)) mod m).
  { rewrite <- Zmult_mod_idemp_r, Hav, Z.mul_1_r. symmetry. apply Z.mod_small. lia. }
  transitivity ((v * (a * w)) mod m); [exact Hv'|].
  transitivity ((w * (a * v)) mod m); [|symmetry; exact Hw'].
  f_equal. ring.
Qed.

Lemma mod_inverse_within_enough (k frames : nat) (a m : Z) :
  1 < m < 2 ^ Z.of_nat k -> (2 * k + 1 <= frames)%nat ->
  mod_inverse_within frames a m = Some (mod_inverse a m).
Proof.
  intros Hm Hf. unfold mod_inverse_within, mod_inverse.
  rewrite mod_nonzero by lia. cbn [bind].
  rewrite (within_enough k);
    [|pose proof (Z.mod_pos_bound a m ltac:(lia)); lia|assumption].
  destruct (extended_gcd (a mod m) m) as [[g x] y]. reflexivity.
Qed.

(** X4. For a modulus 1 < m < 2^k and at least 2k+1 free frames for the
    recursion of [extended_gcd], [mod_inverse(a, m)] returns the unique v
    in [0, m) with a*v = 1 (mod m) when gcd(a, m) = 1, and None when
    gcd(a, m) is not 1, in which case no inverse exists. With m = 0 it
    raises ZeroDivisionError, whatever the frames. *)
Theorem mod_inverse_correct (k frames : nat) (a m : Z) :
  1 < m < 2 ^ Z.of_nat k ->
  (2 * k + 1 <= frames)%nat ->
  (Z.gcd a m = 1 ->
   exists v, mod_inverse_within frames a m = Some (Ok (Some v)) /\
             0 <= v < m /\ (a * v) mod m = 1 /\
             forall w, 0 <= w < m -> (a * w) mod m = 1 -> w = v) /\
  (Z.gcd a m <> 1 ->
   mod_inverse_within frames a m = Some (Ok None) /\
   forall v, (a * v) mod m <> 1) /\
  mod_inverse_within frames a 0 = Some (Raise ZeroDivisionError).
Proof.
  intros Hm Hf. rewrite (mod_inverse_within_enough k) by assumption.
  assert (Hm1 : 1 < m) by lia.
  split; [|split; [|reflexivity]].
  - intros Hg. destruct (mod_inverse_general a m Hm1)
      as [(_ & v & E & Hv & Hav) | (Hn & _)]; [|contradiction].
    exists v. split; [rewrite E; reflexivity|]. repeat (split; [assumption|]).
    intros w Hw Haw. apply (inverse_unique a m); assumption.
  - intros Hg. destruct (mod_inverse_general a m Hm1)
      as [(Hy & _) | (_ & E)]; [contradiction|].
    split; [rewrite E; reflexivity|]. apply no_inverse_general; assumption.
Qed.

Lemma mod_inverse_correct_witness :
  (exists v, mod_inverse_within 11 7 26 = Some (Ok (Some v)) /\
             0 <= v < 26 /\ (7 * v) mod 26 = 1 /\
             forall w, 0 <= w < 26 -> (7 * w) mod 26 = 1 -> w = v) /\
  (mod_inverse_within 11 13 26 = Some (Ok None) /\
   forall v, (13 * v) mod 26 <> 1).
Proof.
  split.
  - apply (proj1 (mod_inverse_correct 5 11 7 26 ltac:(split; [lia|reflexivity])
                    ltac:(lia))).
    reflexivity.
  - apply (proj1 (proj2 (mod_inverse_correct 5 11 13 26
                           ltac:(split; [lia|reflexivity]) ltac:(lia)))).
    vm_compute. discriminate.
Defined.

Lemma is_matrix_invertible_2x2 (a b c d : Z) :
  is_matrix_invertible_mod_26 [[a; b]; [c; d]]
  = Ok (gcd ((a * d - b * c) mod 26) 26 =? 1).
Proof.
  unfold is_matrix_invertible_mod_26. rewrite determinant_2x2_eq. cbn [bind].
  rewrite mod_26. reflexivity.
Qed.

(** X5. On a 2x2 matrix the invertibility test and the inverse agree:
    [is_matrix_invertible_mod_26] answers true exactly when
    [matrix_inverse_mod_26] returns a matrix, and that matrix is a
    two-sided inverse modulo 26; when the test answers false the inverse
    is None. *)
Theorem invertible_iff_inverse (a b c d : Z) :
  let M := [[a; b]; [c; d]] in
  exists flag,
    is_matrix_invertible_mod_26 M = Ok flag /\
    (flag = true ->
     exists inv,
       matrix_inverse_mod_26 M = Ok (Some inv) /\
       matrix_multiply_mod M inv 26 = Ok [[1; 0]; [0; 1]] /\
       matrix_multiply_mod inv M 26 = Ok [[1; 0]; [0; 1]]) /\
    (flag = false -> matrix_inverse_mod_26 M = Ok None).
Proof.
  intros M. subst M. rewrite is_matrix_invertible_2x2, matrix_inverse_2x2.
  set (det := a * d - b * c). eexists. split; [reflexivity|].
  destruct (mod_inverse_26 (det mod 26)) as [(Hg & v & -> & Hv & Hinv) | (Hg & ->)];
    rewrite <- gcd_spec in Hg.
  - split; [|intros E%Z.eqb_neq; contradiction].
    intros _. rewrite Zmult_mod_idemp_l in Hinv.
    eexists. split; [reflexivity|]. rewrite !matrix_multiply_mod_eq.
    rewrite !mod26_comb, !mod26_comb_r.
    replace (a * (v * d) + b * (v * - c)) with (det * v) by (unfold det; ring).
    replace (a * (v * - b) + b * (v * a)) with 0 by ring.
    replace (c * (v * d) + d * (v * - c)) with 0 by ring.
    replace (c * (v * - b) + d * (v * a)) with (det * v) by (unfold det; ring).
    replace (v * d * a + v * - b * c) with (det * v) by (unfold det; ring).
    replace (v * d * b + v * - b * d) with 0 by ring.
    replace (v * - c * a + v * a * c) with 0 by ring.
    replace (v * - c * b + v * a * d) with (det * v) by (unfold det; ring).
    rewrite Hinv. split; reflexivity.
  - split; [intros E%Z.eqb_eq; contradiction|]. reflexivity.
Qed.

Lemma invertible_iff_inverse_witness :
  exists inv,
    matrix_inverse_mod_26 [[3; 3]; [2; 5]] = Ok (Some inv) /\
    matrix_multiply_mod [[3; 3]; [2; 5]] inv 26 = Ok [[1; 0]; [0; 1]] /\
    matrix_multiply_mod inv [[3; 3]; [2; 5]] 26 = Ok [[1; 0]; [0; 1]].
Proof.
  destruct (invertible_iff_inverse 3 3 2 5) as (flag & Hflag & Htrue & _).
  apply Htrue. vm_compute in Hflag. injection Hflag as <-. reflexivity.
Defined.

(** X6. The products modulo 26 compose: applying the product of two 2x2
    matrices to a vector is applying the second one and then the first,
    and the matrix product is associative. *)
Theorem matrix_products_compose (a b c d a' b' c' d' a'' b'' c'' d'' x y : Z) :
  let A := [[a; b]; [c; d]] in
  let B := [[a'; b']; [c'; d']] in
  let C := [[a''; b'']; [c''; d'']] in
  (AB <- matrix_multiply_mod A B 26 ;; matrix_vector_multiply_mod AB [x; y] 26)
  = (Bv <- matrix_vector_multiply_mod B [x; y] 26 ;;
     matrix_vector_multiply_mod A Bv 26) /\
  (AB <- matrix_multiply_mod A B 26 ;; matrix_multiply_mod AB C 26)
  = (BC <- matrix_multiply_mod B C 26 ;; matrix_multiply_mod A BC 26).
Proof.
  intros A B C. subst A B C. split.
  - rewrite matrix_multiply_mod_eq, matrix_vector_multiply_mod_eq. cbn [bind].
    rewrite !matrix_vector_multiply_mod_eq.
    rewrite !mod26_comb, !mod26_comb_r. do 2 f_equal; [f_equal; ring|].
    f_equal. f_equal. ring.
  - rewrite !matrix_multiply_mod_eq. cbn [bind]. rewrite !matrix_multiply_mod_eq.
    rewrite !mod26_comb, !mod26_comb_r.
    repeat (f_equal; try ring).
Qed.

End MathUtilsMore.

(* ===================================================================== *)
(** * Further properties of the Caesar cipher *)
(* ===================================================================== *)

Section CaesarMore.

Import CaesarCipher.

Lemma caesar_enc_fixed_text (s : Z) (T : text) :
  forallb ascii T = true ->
  forallb (fun c => ascii c && negb (ascii_lower c))
          (map (caesar_enc s) (map ascii_up T)) = true.
Proof.
  intros HT. induction T as [|c T IH]; [reflexivity|].
  cbn [forallb] in HT. apply andb_true_iff in HT as [Hc HT].
  cbn [map forallb]. rewrite IH by assumption. rewrite andb_true_r.
  destruct (ascii_up_cases c Hc) as [H|H].
  - pose proof (caesar_enc_upper_letter s _ H) as H'.
    apply ascii_upper_spec in H'.
    unfold ascii, ascii_lower, in_range. cmp_lia. reflexivity.
  - unfold caesar_enc. rewrite H. rewrite ascii_up_ascii by assumption.
    rewrite ascii_up_not_lower. reflexivity.
Qed.

Lemma map_ext_ascii_up (f g : Z -> Z) (T : text) :
  forallb ascii T = true ->
  (forall c, ascii_upper c = true \/ isalpha c = false -> f c = g c) ->
  map f (map ascii_up T) = map g (map ascii_up T).
Proof.
  intros HT Hfg. induction T as [|c T IH]; [reflexivity|].
  cbn [forallb] in HT. apply andb_true_iff in HT as [Hc HT].
  cbn [map]. rewrite IH by assumption. f_equal.
  apply Hfg, ascii_up_cases, Hc.
Qed.

Lemma caesar_enc_zero (c : Z) :
  ascii_upper c = true \/ isalpha c = false -> caesar_enc 0 c = c.
Proof.
  unfold caesar_enc. intros [H|H]; [|rewrite H; reflexivity].
  rewrite isalpha_upper_letter by assumption. apply ascii_upper_spec in H.
  rewrite Z.add_0_r, Z.mod_small by lia. lia.
Qed.

(** X7. The Caesar shift is used modulo 26: shifts that differ by a
    multiple of 26 give the same dictionary, trace included, for [encrypt]
    and for [decrypt]; with a multiple of 26 an ASCII text is only
    uppercased. *)
Theorem caesar_shift_modulo_26 (T : text) (s k : Z) :
  encrypt T (s + 26 * k) = encrypt T s /\
  decrypt T (s + 26 * k) = decrypt T s /\
  (forallb ascii T = true ->
   exists e, encrypt T (26 * k) = Ok e /\ result e = upper T /\ shift e = 0).
Proof.
  assert (Hs : (s + 26 * k) mod 26 = s mod 26).
  { replace (s + 26 * k) with (s + k * 26) by lia. apply Z_mod_plus_full. }
  split; [|split].
  - rewrite !caesar_encrypt_eq, Hs. reflexivity.
  - rewrite !caesar_decrypt_eq, Hs. reflexivity.
  - intros HT. rewrite caesar_encrypt_eq. eexists. split; [reflexivity|].
    cbn [result shift].
    replace ((26 * k) mod 26) with 0
      by (rewrite Z.mul_comm, Z_mod_mult; reflexivity).
    split; [|reflexivity]. rewrite (upper_ascii T HT).
    rewrite <- (map_id (map ascii_up T)) at 2.
    apply map_ext_ascii_up; [assumption|]. apply caesar_enc_zero.
Qed.

Lemma caesar_shift_modulo_26_witness :
  exists e, encrypt (str "Hi, there!") (26 * 3) = Ok e /\
            result e = upper (str "Hi, there!") /\ shift e = 0.
Proof.
  apply (proj2 (proj2 (caesar_shift_modulo_26 (str "Hi, there!") 0 3))).
  reflexivity.
Defined.

Lemma caesar_dec_as_enc (s c : Z) :
  caesar_dec (s mod 26) c = caesar_enc ((- s) mod 26) c.
Proof.
  unfold caesar_dec, caesar_enc. destruct (isalpha c); [|reflexivity].
  f_equal. rewrite Zminus_mod_idemp_r, Zplus_mod_idemp_r. f_equal; lia.
Qed.

(** X8. Decrypting with shift s produces the same text as encrypting with
    shift -s, for every text and every integer s. *)
Theorem caesar_decrypt_is_negative_shift (T : text) (s : Z) :
  exists d e,
    decrypt T s = Ok d /\ encrypt T (- s) = Ok e /\ result d = result e.
Proof.
  rewrite caesar_decrypt_eq, caesar_encrypt_eq. eexists _, _.
  split; [reflexivity|]. split; [reflexivity|]. cbn [result].
  apply map_ext. intros c. apply caesar_dec_as_enc.
Qed.

Lemma caesar_enc_enc (s1 s2 c : Z) :
  ascii_upper c = true \/ isalpha c = false ->
  caesar_enc (s2 mod 26) (caesar_enc (s1 mod 26) c)
  = caesar_enc ((s1 + s2) mod 26) c.
Proof.
  intros [H|H].
  - unfold caesar_enc at 1.
    rewrite isalpha_upper_letter by (apply caesar_enc_upper_letter; assumption).
    unfold caesar_enc. rewrite isalpha_upper_letter by assumption.
    f_equal. replace ((c - 65 + s1 mod 26) mod 26 + 65 - 65 + s2 mod 26)
      with ((c - 65 + s1 mod 26) mod 26 + s2 mod 26) by lia.
    rewrite Zplus_mod_idemp_l, Zplus_mod_idemp_r.
    rewrite (Zplus_mod_idemp_r (s1 + s2)).
    replace (c - 65 + s1 mod 26 + s2) with (s1 mod 26 + (c - 65 + s2)) by lia.
    rewrite Zplus_mod_idemp_l. f_equal. lia.
  - unfold caesar_enc. rewrite H, H. reflexivity.
Qed.

(** X9. On an ASCII text two Caesar encryptions compose into one with the
    sum of the shifts. *)
Theorem caesar_encrypt_compose (T : text) (s1 s2 : Z) :
  forallb ascii T = true ->
  exists e1 e2 e,
    encrypt T s1 = Ok e1 /\ encrypt (result e1) s2 = Ok e2 /\
    encrypt T (s1 + s2) = Ok e /\ result e2 = result e.
Proof.
  intros HT. rewrite !caesar_encrypt_eq. eexists _, _, _.
  split; [reflexivity|]. cbn [result]. rewrite caesar_encrypt_eq.
  split; [reflexivity|]. split; [reflexivity|]. cbn [result].
  rewrite (upper_ascii T HT).
  rewrite upper_fixed by (apply caesar_enc_fixed_text; assumption).
  rewrite (map_map (caesar_enc (s1 mod 26)) (caesar_enc (s2 mod 26))).
  apply (map_ext_ascii_up
           (fun c => caesar_enc (s2 mod 26) (caesar_enc (s1 mod 26) c)));
    [assumption|]. apply caesar_enc_enc.
Qed.

Lemma caesar_encrypt_compose_witness :
  exists e1 e2 e,
    encrypt (str "Attack at dawn") 5 = Ok e1 /\ encrypt (result e1) 30 = Ok e2 /\
    encrypt (str "Attack at dawn") (5 + 30) = Ok e /\ result e2 = result e.
Proof.
  apply (caesar_encrypt_compose (str "Attack at dawn") 5 30). reflexivity.
Defined.

End CaesarMore.

(* ===================================================================== *)
(** * The alphabet mappings *)
(* ===================================================================== *)

Section Mappings.

Lemma in_range1 (N q : Z) : In q (range 0 N 1) <-> 0 <= q < N.
Proof.
  unfold range. rewrite in_map_iff. split.
  - intros (k & <- & Hk). apply in_seq in Hk.
    replace ((N - 0 + 1 - 1) / 1) with N in Hk by (rewrite Z.div_1_r; lia). lia.
  - intros Hq. exists (Z.to_nat q). split; [lia|]. apply in_seq.
    replace ((N - 0 + 1 - 1) / 1) with N by (rewrite Z.div_1_r; lia). lia.
Qed.

(** The loop shared by the two [get_alphabet_mapping]: one insertion per
    index, no exception. *)
Lemma mapping_loop (g : Z -> Z) (l : list Z) :
  Forall (fun i => 0 <= i < 26) l ->
  forall m0 : gmap Z Z,
    foldM (fun mapping i =>
             original <- chr (i + ord (ch "A")) ;;
             p <- mod_ (g i) 26 ;;
             encrypted <- chr (p + ord (ch "A")) ;;
             Ok (<[original := encrypted]> mapping)) l m0
    = Ok (fold_left (fun m i => <[i + 65 := g i mod 26 + 65]> m) l m0).
Proof.
  induction 1 as [|i l Hi _ IH]; intros m0; cbn [foldM fold_left]; [reflexivity|].
  rewrite chr_letter by assumption. cbn [bind]. rewrite mod_26. cbn [bind].
  rewrite chr_letter by (apply Z.mod_pos_bound; lia). cbn [bind]. apply IH.
Qed.

Lemma fold_insert_lookup (f : Z -> Z) (l : list Z) (k : Z) :
  forall m0 : gmap Z Z,
    fold_left (fun m i => <[i + 65 := f i]> m) l m0 !! k
    = if decide (k - 65 ∈ l) then Some (f (k - 65)) else m0 !! k.
Proof.
  induction l as [|i l IH]; intros m0; cbn [fold_left].
  - destruct (decide (k - 65 ∈ [])) as [Hin|_]; [|reflexivity].
    apply elem_of_nil in Hin. contradiction.
  - rewrite IH. destruct (decide (k - 65 ∈ l)) as [Hin|Hnin].
    + destruct (decide (k - 65 ∈ i :: l)) as [_|Hn]; [reflexivity|].
      exfalso. apply Hn, elem_of_cons. right. assumption.
    + rewrite lookup_insert. destruct (decide (i + 65 = k)) as [E|E].
      * destruct (decide (k - 65 ∈ i :: l)) as [_|Hn].
        -- do 2 f_equal. lia.
        -- exfalso. apply Hn, elem_of_cons. left. lia.
      * destruct (decide (k - 65 ∈ i :: l)) as [[E'|Hin]%elem_of_cons|_];
          [lia|contradiction|reflexivity].
Qed.

(** Lookup in the dictionary built by the loop over [range(26)]. *)
Lemma mapping_lookup (g : Z -> Z) (k : Z) :
  fold_left (fun m i => <[i + 65 := g i mod 26 + 65]> m) (range 0 26 1)
            (∅ : gmap Z Z) !! k
  = if ascii_upper k then Some (g (k - 65) mod 26 + 65) else None.
Proof.
  rewrite (fold_insert_lookup (fun i => g i mod 26 + 65)).
  destruct (decide (k - 65 ∈ range 0 26 1)) as [Hin|Hnin].
  - apply list_elem_of_In, in_range1 in Hin.
    unfold ascii_upper, in_range. cmp_lia. reflexivity.
  - rewrite lookup_empty. destruct (ascii_upper k) eqn:E; [|reflexivity].
    apply ascii_upper_spec in E. exfalso. apply Hnin, list_elem_of_In, in_range1. lia.
Qed.

Lemma range_26_bounds : Forall (fun i => 0 <= i < 26) (range 0 26 1).
Proof. apply Forall_forall. intros i Hi%list_elem_of_In%in_range1. assumption. Qed.

Lemma caesar_mapping_eq (s : Z) :
  CaesarCipher.get_alphabet_mapping s
  = Ok (fold_left (fun m i => <[i + 65 := (i + s mod 26) mod 26 + 65]> m)
                  (range 0 26 1) ∅).
Proof.
  unfold CaesarCipher.get_alphabet_mapping. rewrite mod_26. cbn [bind].
  apply (mapping_loop (fun i => i + s mod 26)), range_26_bounds.
Qed.

Lemma caesar_encrypt_letter (c s : Z) :
  ascii_upper c = true ->
  CaesarCipher.encrypt [c] s
  = Ok (CaesarCipher.mkResult [caesar_enc (s mod 26) c]
          (caesar_enc_steps (s mod 26) [c]) (s mod 26) Encrypt).
Proof.
  intros Hc. rewrite caesar_encrypt_eq.
  rewrite upper_of_uppercase by (cbn [forallb]; rewrite Hc; reflexivity).
  reflexivity.
Qed.

(** X10. [CaesarCipher.get_alphabet_mapping] never raises and returns a
    dictionary whose keys are exactly the 26 uppercase letters; the value
    of a letter is the letter [encrypt] produces for it, and distinct keys
    have distinct values, so the dictionary is a permutation of A-Z. *)
Theorem caesar_mapping_spec (s : Z) :
  exists m : gmap Z Z,
    CaesarCipher.get_alphabet_mapping s = Ok m /\
    (forall c, ascii_upper c = false -> m !! c = None) /\
    (forall c, ascii_upper c = true ->
       exists e y, CaesarCipher.encrypt [c] s = Ok e /\
                   CaesarCipher.result e = [y] /\
                   m !! c = Some y /\ ascii_upper y = true) /\
    (forall c1 c2 y, m !! c1 = Some y -> m !! c2 = Some y -> c1 = c2).
Proof.
  eexists. split; [apply caesar_mapping_eq|].
  split; [|split].
  - intros c Hc. rewrite (mapping_lookup (fun i => i + s mod 26)), Hc. reflexivity.
  - intros c Hc. eexists _, _. split; [apply caesar_encrypt_letter, Hc|].
    cbn [CaesarCipher.result]. split; [reflexivity|].
    rewrite (mapping_lookup (fun i => i + s mod 26)), Hc.
    split; [|apply caesar_enc_upper_letter, Hc].
    unfold caesar_enc. rewrite isalpha_upper_letter by assumption. reflexivity.
  - intros c1 c2 y H1 H2.
    rewrite (mapping_lookup (fun i => i + s mod 26)) in H1, H2.
    destruct (ascii_upper c1) eqn:E1; [|discriminate H1].
    destruct (ascii_upper c2) eqn:E2; [|discriminate H2].
    rewrite <- (caesar_dec_enc (s mod 26) c1), <- (caesar_dec_enc (s mod 26) c2)
      by (left; assumption).
    unfold caesar_enc at 1 2. rewrite !isalpha_upper_letter by assumption.
    congruence.
Qed.

Lemma caesar_mapping_spec_witness :
  exists m : gmap Z Z,
    CaesarCipher.get_alphabet_mapping 3 = Ok m /\
    m !! ch "Y" = Some (ch "B") /\ m !! ch "a" = None.
Proof.
  destruct (caesar_mapping_spec 3) as (m & Hm & Hnone & Hsome & _).
  exists m. split; [exact Hm|]. split.
  - destruct (Hsome (ch "Y") eq_refl) as (e & y & He & Hy & Hl & _).
    vm_compute in He. injection He as <-. cbn in Hy. injection Hy as <-.
    exact Hl.
  - apply Hnone. reflexivity.
Defined.

End Mappings.

(* ===================================================================== *)
(** * Further properties of the Affine cipher *)
(* ===================================================================== *)

Section AffineMore.

Import AffineCipher.

Lemma affine_encrypt_loop (a b : Z) (l : text) :
  forall res st,
  exists st',
    foldM (encrypt_char a b) l (res, st) = Ok (res ++ map (affine_enc a b) l, st').
Proof.
  induction l as [|c l IH]; intros res st; cbn [foldM map].
  - exists st. rewrite app_nil_r. reflexivity.
  - unfold encrypt_char at 1, affine_enc at 1, ord. destruct (isalpha c).
    + rewrite mod_26. cbn [bind].
      rewrite chr_letter by (apply Z.mod_pos_bound; lia). cbn [bind].
      edestruct IH as [st' ->]. exists st'. rewrite <- app_assoc. reflexivity.
    + cbn [bind]. edestruct IH as [st' ->]. exists st'.
      rewrite <- app_assoc. reflexivity.
Qed.

Lemma affine_decrypt_loop (v b : Z) (l : text) :
  forall res st,
  exists st',
    foldM (decrypt_char (Some v) b) l (res, st)
    = Ok (res ++ map (affine_dec v b) l, st').
Proof.
  induction l as [|c l IH]; intros res st; cbn [foldM map].
  - exists st. rewrite app_nil_r. reflexivity.
  - unfold decrypt_char at 1, affine_dec at 1, ord. destruct (isalpha c).
    + cbn [mul_opt bind]. rewrite mod_26. cbn [bind].
      rewrite chr_letter by (apply Z.mod_pos_bound; lia). cbn [bind].
      edestruct IH as [st' ->]. exists st'. rewrite <- app_assoc. reflexivity.
    + cbn [bind]. edestruct IH as [st' ->]. exists st'.
      rewrite <- app_assoc. reflexivity.
Qed.

Lemma affine_encrypt_eq (T : text) (a b : Z) :
  is_valid_key a = true ->
  exists steps inv,
    encrypt T a b
    = Ok (Done (mkResult (map (affine_enc a (b mod 26)) (upper T)) steps
                         a (b mod 26) inv Encrypt)).
Proof.
  intros H. destruct (get_inverse_valid a H) as (v & Hv & _).
  unfold encrypt. rewrite H, Hv. cbn [negb]. rewrite mod_26. cbn [bind].
  destruct (affine_encrypt_loop a (b mod 26) (upper T) [] []) as [st ->].
  cbn [bind app]. eauto.
Qed.

Lemma affine_decrypt_eq (T : text) (a b : Z) :
  is_valid_key a = true ->
  exists v steps,
    0 <= v < 26 /\ (a * v) mod 26 = 1 /\
    decrypt T a b
    = Ok (Done (mkResult (map (affine_dec v (b mod 26)) (upper T)) steps
                         a (b mod 26) (Some v) Decrypt)).
Proof.
  intros H. destruct (get_inverse_valid a H) as (v & Hv & Hr & Hinv).
  unfold decrypt. rewrite H, Hv. cbn [negb bind]. rewrite mod_26. cbn [bind].
  destruct (affine_decrypt_loop v (b mod 26) (upper T) [] []) as [st ->].
  cbn [bind app]. eauto 10.
Qed.

Lemma affine_enc_upper_letter (a b c : Z) :
  ascii_upper c = true -> ascii_upper (affine_enc a b c) = true.
Proof.
  intros H. unfold affine_enc. rewrite isalpha_upper_letter by assumption.
  apply ascii_upper_spec. pose proof (Z.mod_pos_bound (a * (c - 65) + b) 26). lia.
Qed.

Lemma affine_dec_enc (a v b c : Z) :
  (a * v) mod 26 = 1 ->
  ascii_upper c = true \/ isalpha c = false ->
  affine_dec v b (affine_enc a b c) = c.
Proof.
  intros Hinv [H|H].
  - unfold affine_dec. rewrite isalpha_upper_letter
      by (apply affine_enc_upper_letter; assumption).
    unfold affine_enc. rewrite isalpha_upper_letter by assumption.
    apply ascii_upper_spec in H.
    replace ((a * (c - 65) + b) mod 26 + 65 - 65 - b)
      with ((a * (c - 65) + b) mod 26 - b) by lia.
    rewrite <- Zmult_mod_idemp_r, Zminus_mod_idemp_l, Zmult_mod_idemp_r.
    replace (v * (a * (c - 65) + b - b)) with ((a * v) * (c - 65)) by ring.
    rewrite <- Zmult_mod_idemp_l, Hinv, Z.mul_1_l, Z.mod_small by lia. lia.
  - unfold affine_enc. rewrite H. unfold affine_dec. rewrite H. reflexivity.
Qed.

Lemma affine_enc_fixed_text (a b : Z) (T : text) :
  forallb ascii T = true ->
  forallb (fun c => ascii c && negb (ascii_lower c))
          (map (affine_enc a b) (map ascii_up T)) = true.
Proof.
  intros HT. induction T as [|c T IH]; [reflexivity|].
  cbn [forallb] in HT. apply andb_true_iff in HT as [Hc HT].
  cbn [map forallb]. rewrite IH by assumption. rewrite andb_true_r.
  destruct (ascii_up_cases c Hc) as [H|H].
  - pose proof (affine_enc_upper_letter a b _ H) as H'.
    apply ascii_upper_spec in H'.
    unfold ascii, ascii_lower, in_range. cmp_lia. reflexivity.
  - unfold affine_enc. rewrite H. rewrite ascii_up_ascii by assumption.
    rewrite ascii_up_not_lower. reflexivity.
Qed.

(** X11. Affine round trip: for every key a coprime with 26, every integer
    b and every ASCII text, decrypting the encryption with the same keys
    returns the text uppercased (non-letters in place). *)
Theorem affine_roundtrip (T : text) (a b : Z) :
  gcd a 26 = 1 ->
  forallb ascii T = true ->
  exists e d,
    encrypt T a b = Ok (Done e) /\
    decrypt (result e) a b = Ok (Done d) /\
    result d = upper T.
Proof.
  intros Hg HT. apply Z.eqb_eq in Hg. fold (is_valid_key a) in Hg.
  destruct (affine_encrypt_eq T a b Hg) as (steps & inv & He).
  eexists. rewrite He. cbn [result].
  destruct (affine_decrypt_eq (map (affine_enc a (b mod 26)) (upper T)) a b Hg)
    as (v & dsteps & Hv & Hinv & Hd).
  eexists. split; [reflexivity|]. split; [exact Hd|]. cbn [result].
  rewrite (upper_ascii T HT).
  rewrite upper_fixed by (apply affine_enc_fixed_text; assumption).
  rewrite map_map. rewrite <- (map_id (map ascii_up T)) at 2.
  apply (map_ext_ascii_up
           (fun c => affine_dec v (b mod 26) (affine_enc a (b mod 26) c)));
    [assumption|].
  intros c Hc. apply (affine_dec_enc a); assumption.
Qed.

Lemma affine_roundtrip_witness :
  exists e d,
    encrypt (str "Hello, World!") 5 8 = Ok (Done e) /\
    decrypt (result e) 5 8 = Ok (Done d) /\
    result d = upper (str "Hello, World!").
Proof.
  apply (affine_roundtrip (str "Hello, World!") 5 8);
    [vm_compute; reflexivity | reflexivity].
Defined.

(** X12. With multiplicative key 1 the Affine cipher is the Caesar cipher:
    for every text and every b, [AffineCipher.encrypt(T, 1, b)] and
    [CaesarCipher.encrypt(T, b)] produce the same text. *)
Theorem affine_one_is_caesar (T : text) (b : Z) :
  exists e c,
    encrypt T 1 b = Ok (Done e) /\
    CaesarCipher.encrypt T b = Ok c /\
    result e = CaesarCipher.result c.
Proof.
  destruct (affine_encrypt_eq T 1 b) as (steps & inv & He);
    [vm_compute; reflexivity|].
  rewrite He, caesar_encrypt_eq. eexists _, _.
  split; [reflexivity|]. split; [reflexivity|].
  cbn [result CaesarCipher.result]. apply map_ext. intros c.
  unfold affine_enc, caesar_enc. destruct (isalpha c); [|reflexivity].
  do 2 f_equal. lia.
Qed.

End AffineMore.

Section AffineMapping.

Import AffineCipher.

Lemma affine_mapping_eq (a b : Z) :
  is_valid_key a = true ->
  get_alphabet_mapping a b
  = Ok (Some (fold_left (fun m i => <[i + 65 := (a * i + b) mod 26 + 65]> m)
                        (range 0 26 1) ∅)).
Proof.
  intros H. unfold get_alphabet_mapping. rewrite H. cbn [negb].
  rewrite (mapping_loop (fun i => a * i + b)) by apply range_26_bounds.
  reflexivity.
Qed.

Lemma affine_encrypt_letter (a b c : Z) :
  is_valid_key a = true -> ascii_upper c = true ->
  exists e, encrypt [c] a b = Ok (Done e) /\
            result e = [(a * (c - 65) + b) mod 26 + 65].
Proof.
  intros Ha Hc. destruct (affine_encrypt_eq [c] a b Ha) as (steps & inv & ->).
  eexists. split; [reflexivity|]. cbn [result].
  rewrite upper_of_uppercase by (cbn [forallb]; rewrite Hc; reflexivity).
  cbn [map]. unfold affine_enc. rewrite isalpha_upper_letter by assumption.
  rewrite Zplus_mod_idemp_r. reflexivity.
Qed.

(** X13. [AffineCipher.get_alphabet_mapping] returns None exactly when
    gcd(a, 26) is not 1; otherwise it returns a dictionary whose keys are
    the 26 uppercase letters, whose value at a letter is the letter
    [encrypt] produces for it, and in which distinct keys have distinct
    values (a permutation of A-Z). *)
Theorem affine_mapping_spec (a b : Z) :
  (gcd a 26 <> 1 -> get_alphabet_mapping a b = Ok None) /\
  (gcd a 26 = 1 ->
   exists m : gmap Z Z,
     get_alphabet_mapping a b = Ok (Some m) /\
     (forall c, ascii_upper c = false -> m !! c = None) /\
     (forall c, ascii_upper c = true ->
        exists e y, encrypt [c] a b = Ok (Done e) /\ result e = [y] /\
                    m !! c = Some y /\ ascii_upper y = true) /\
     (forall c1 c2 y, m !! c1 = Some y -> m !! c2 = Some y -> c1 = c2)).
Proof.
  split.
  - intros Hg. unfold get_alphabet_mapping, is_valid_key.
    apply Z.eqb_neq in Hg. rewrite Hg. reflexivity.
  - intros Hg. apply Z.eqb_eq in Hg. fold (is_valid_key a) in Hg.
    destruct (get_inverse_valid a Hg) as (v & _ & _ & Hinv).
    eexists. split; [apply affine_mapping_eq, Hg|]. split; [|split].
    + intros c Hc. rewrite (mapping_lookup (fun i => a * i + b)), Hc. reflexivity.
    + intros c Hc. destruct (affine_encrypt_letter a b c Hg Hc) as (e & He & Hr).
      exists e, ((a * (c - 65) + b) mod 26 + 65).
      split; [assumption|]. split; [assumption|].
      rewrite (mapping_lookup (fun i => a * i + b)), Hc. split; [reflexivity|].
      apply ascii_upper_spec. pose proof (Z.mod_pos_bound (a * (c - 65) + b) 26). lia.
    + intros c1 c2 y H1 H2.
      rewrite (mapping_lookup (fun i => a * i + b)) in H1, H2.
      destruct (ascii_upper c1) eqn:E1; [|discriminate H1].
      destruct (ascii_upper c2) eqn:E2; [|discriminate H2].
      rewrite <- (affine_dec_enc a v b c1 Hinv), <- (affine_dec_enc a v b c2 Hinv)
        by (left; assumption).
      unfold affine_enc at 1 2. rewrite !isalpha_upper_letter by assumption.
      congruence.
Qed.

Lemma affine_mapping_spec_witness :
  get_alphabet_mapping 4 7 = Ok None /\
  exists m : gmap Z Z,
    get_alphabet_mapping 5 8 = Ok (Some m) /\ m !! ch "H" = Some (ch "R").
Proof.
  split.
  - apply (proj1 (affine_mapping_spec 4 7)). vm_compute. discriminate.
  - destruct (proj2 (affine_mapping_spec 5 8)) as (m & Hm & _ & Hsome & _);
      [vm_compute; reflexivity|].
    exists m. split; [exact Hm|].
    destruct (Hsome (ch "H") eq_refl) as (e & y & He & Hy & Hl & _).
    vm_compute in He. injection He as <-. cbn in Hy. injection Hy as <-.
    exact Hl.
Defined.

End AffineMapping.

(* ===================================================================== *)
(** * Further properties of the Playfair cipher *)
(* ===================================================================== *)

Section PlayfairMore.

Import PlayfairCipher.

(** ** The square *)

Lemma generate_matrix_rows (keyword : text) :
  forallb ascii keyword = true ->
  exists mc,
    generate_matrix keyword = rows mc /\ length mc = 25%nat /\ NoDup mc /\
    (forall c, In c mc <-> In c ALPHABET).
Proof.
  intros Hk. unfold generate_matrix.
  set (kw := letters_only (replace (ch "J") (ch "I") (upper keyword))).
  destruct (fold_left add_char kw (∅, [])) as [seen1 mc1] eqn:E1.
  destruct (fold_left add_char ALPHABET (seen1, mc1)) as [seen2 mc2] eqn:E2.
  apply add_char_fold in E1 as (Hs1 & Hnd1 & Hel1);
    [|intros c; rewrite elem_of_empty, elem_of_nil; tauto|apply NoDup_nil; exact I].
  apply add_char_fold in E2 as (Hs2 & Hnd2 & Hel2); [|assumption|assumption].
  assert (Hmem : forall c, c ∈ mc2 <-> c ∈ ALPHABET).
  { intros c. rewrite Hel2, Hel1, elem_of_nil. split; [|tauto].
    intros [[[]|H]|H]; [|assumption].
    apply (keyword_letters_ascii keyword); assumption. }
  exists mc2. split; [reflexivity|]. split; [|split; [assumption|]].
  - assert (Hperm : mc2 ≡ₚ ALPHABET)
      by (apply NoDup_Permutation; [assumption|apply NoDup_ALPHABET|assumption]).
    rewrite Hperm. reflexivity.
  - intros c. rewrite <- !list_elem_of_In. apply Hmem.
Qed.

Lemma getitem2_rows (mc : list Z) (r c : Z) :
  length mc = 25%nat -> 0 <= r < 5 -> 0 <= c < 5 ->
  getitem2 (rows mc) r c = Ok (cell mc r c).
Proof.
  intros Hlen Hr Hc.
  do 25 (destruct mc as [|? mc]; [discriminate Hlen|]).
  destruct mc; [|discriminate Hlen].
  assert (Hr' : r = 0 \/ r = 1 \/ r = 2 \/ r = 3 \/ r = 4) by lia.
  assert (Hc' : c = 0 \/ c = 1 \/ c = 2 \/ c = 3 \/ c = 4) by lia.
  destruct Hr' as [->|[->|[->|[->| ->]]]];
    destruct Hc' as [->|[->|[->|[->| ->]]]]; reflexivity.
Qed.

Lemma cell_of_bounds (k : nat) :
  (k < 25)%nat -> 0 <= fst (cell_of k) < 5 /\ 0 <= snd (cell_of k) < 5.
Proof.
  intros Hk. unfold cell_of. cbn [fst snd]. split.
  - split; [apply Z.div_pos; lia | apply Z.div_lt_upper_bound; lia].
  - apply Z.mod_pos_bound. lia.
Qed.

Lemma cell_cell_of (mc : list Z) (k : nat) :
  cell mc (fst (cell_of k)) (snd (cell_of k)) = nth k mc 0.
Proof.
  unfold cell, cell_of. cbn [fst snd].
  rewrite <- Z.div_mod by lia. rewrite Nat2Z.id. reflexivity.
Qed.

Lemma cell_of_index (r c : Z) :
  0 <= r < 5 -> 0 <= c < 5 -> cell_of (Z.to_nat (5 * r + c)) = (r, c).
Proof.
  intros Hr Hc. unfold cell_of. rewrite Z2Nat.id by lia. f_equal.
  - symmetry. apply Z.div_unique with (r := c); lia.
  - symmetry. apply Z.mod_unique with (q := r); lia.
Qed.

Lemma all_cells_eq :
  flat_map (fun row => map (fun col => (row, col)) (range 0 5 1)) (range 0 5 1)
  = map cell_of (seq 0 25).
Proof. vm_compute. reflexivity. Qed.

(** ** Looking a letter up *)

Lemma scan_found (mc : list Z) (x : Z) (n : nat) :
  length mc = 25%nat -> NoDup mc ->
  forall i k,
    (i <= k < i + n)%nat -> (i + n <= 25)%nat -> nth k mc 0 = x ->
    scan (rows mc) [x] (map cell_of (seq i n)) = Ok (cell_of k).
Proof.
  intros Hlen Hnd. induction n as [|n IH]; intros i k Hk Hn Hx; [lia|].
  cbn [seq map scan]. destruct (cell_of i) as [r c] eqn:Ei.
  pose proof (cell_of_bounds i ltac:(lia)) as [Hr Hc]. rewrite Ei in Hr, Hc.
  cbn [fst snd] in Hr, Hc. rewrite getitem2_rows by assumption. cbn [bind].
  pose proof (cell_cell_of mc i) as Hcell. rewrite Ei in Hcell. cbn [fst snd] in Hcell.
  rewrite Hcell. destruct (Nat.eq_dec i k) as [->|Hne].
  - rewrite Hx, bool_decide_eq_true_2 by reflexivity. congruence.
  - rewrite bool_decide_eq_false_2.
    + apply IH; [lia|lia|assumption].
    + intros E. injection E as E. apply Hne.
      apply (proj1 (List.NoDup_nth mc 0) (proj1 (NoDup_ListNoDup mc) Hnd)); lia || congruence.
Qed.

Lemma scan_missing (mc : list Z) (x : Z) (n : nat) :
  length mc = 25%nat -> ~ In x mc ->
  forall i, (i + n <= 25)%nat ->
    scan (rows mc) [x] (map cell_of (seq i n)) = Ok (-1, -1).
Proof.
  intros Hlen Hx. induction n as [|n IH]; intros i Hn; [reflexivity|].
  cbn [seq map scan]. destruct (cell_of i) as [r c] eqn:Ei.
  pose proof (cell_of_bounds i ltac:(lia)) as [Hr Hc]. rewrite Ei in Hr, Hc.
  cbn [fst snd] in Hr, Hc. rewrite getitem2_rows by assumption. cbn [bind].
  pose proof (cell_cell_of mc i) as Hcell. rewrite Ei in Hcell. cbn [fst snd] in Hcell.
  rewrite Hcell, bool_decide_eq_false_2.
  - apply IH. lia.
  - intros E. injection E as E. apply Hx. rewrite <- E. apply nth_In. lia.
Qed.

Lemma find_position_ascii (mc : list Z) (c : Z) :
  ascii c = true ->
  find_position (rows mc) [c]
  = scan (rows mc) [as_I (ascii_up c)] (map cell_of (seq 0 25)).
Proof.
  intros Hc. unfold find_position. rewrite all_cells_eq.
  rewrite upper_ascii by (cbn [forallb]; rewrite Hc; reflexivity).
  cbn [map]. unfold as_I. change (ch "J") with 74. change (str "J") with [74].
  destruct (Z.eqb_spec (ascii_up c) 74) as [E|E].
  - rewrite E, bool_decide_eq_true_2 by reflexivity. reflexivity.
  - rewrite bool_decide_eq_false_2 by congruence. reflexivity.
Qed.

Lemma alphabet_letter (c : Z) :
  In c ALPHABET -> ascii c = true /\ ascii_up c = c /\ as_I c = c /\
                   ascii_upper c = true.
Proof.
  intros H%list_elem_of_In%ALPHABET_spec.
  assert (Hu : ascii_upper c = true) by (apply ascii_upper_spec; lia).
  split; [apply in_range_spec; lia|]. split; [apply ascii_up_upper_letter, Hu|].
  split; [|assumption]. unfold as_I. change (ch "J") with 74. cmp_lia. reflexivity.
Qed.

Section Square.

Variable mc : list Z.
Hypothesis Hlen : length mc = 25%nat.
Hypothesis Hnd : NoDup mc.
Hypothesis Hmem : forall c, In c mc <-> In c ALPHABET.

Lemma cell_in_alphabet (r c : Z) :
  0 <= r < 5 -> 0 <= c < 5 -> In (cell mc r c) ALPHABET.
Proof. intros Hr Hc. apply Hmem. unfold cell. apply nth_In. lia. Qed.

Lemma find_position_cell (r c : Z) :
  0 <= r < 5 -> 0 <= c < 5 ->
  find_position (rows mc) [cell mc r c] = Ok (r, c).
Proof.
  intros Hr Hc.
  destruct (alphabet_letter _ (cell_in_alphabet r c Hr Hc)) as (Ha & Hu & HI & _).
  rewrite find_position_ascii, Hu, HI by assumption.
  rewrite (scan_found mc _ 25 Hlen Hnd 0 (Z.to_nat (5 * r + c))); try lia.
  - rewrite cell_of_index by assumption. reflexivity.
  - reflexivity.
Qed.

Lemma find_position_letter (y : Z) :
  In y ALPHABET ->
  exists r c, 0 <= r < 5 /\ 0 <= c < 5 /\
              find_position (rows mc) [y] = Ok (r, c) /\ cell mc r c = y.
Proof.
  intros Hy. destruct (alphabet_letter _ Hy) as (Ha & Hu & HI & _).
  apply Hmem in Hy. destruct (In_nth mc y 0 Hy) as (k & Hk & Hnth).
  exists (fst (cell_of k)), (snd (cell_of k)).
  destruct (cell_of_bounds k ltac:(lia)) as [Hr Hc].
  split; [assumption|]. split; [assumption|].
  rewrite find_position_ascii, Hu, HI by assumption.
  rewrite (scan_found mc _ 25 Hlen Hnd 0 k); try lia; try assumption.
  rewrite cell_cell_of. split; [|assumption].
  destruct (cell_of k). reflexivity.
Qed.

End Square.

(** X14. For every keyword of ASCII characters, [generate_matrix] returns
    5 rows of 5 cells that hold the 25 letters A-Z without J, each exactly
    once. *)
Theorem playfair_square_ascii (keyword : text) :
  forallb ascii keyword = true ->
  length (generate_matrix keyword) = 5%nat /\
  Forall (fun row => length row = 5%nat) (generate_matrix keyword) /\
  NoDup (concat (generate_matrix keyword)) /\
  (forall c, In c (concat (generate_matrix keyword))
             <-> 65 <= c <= 90 /\ c <> 74).
Proof.
  intros Hk. destruct (generate_matrix_ascii keyword Hk) as (H5 & Hrows & Hperm).
  split; [assumption|]. split; [assumption|]. split.
  - rewrite Hperm. apply NoDup_ALPHABET.
  - intros c. rewrite <- list_elem_of_In, Hperm. apply ALPHABET_spec.
Qed.

Lemma playfair_square_ascii_witness :
  length (generate_matrix (str "Monarchy 1854!")) = 5%nat /\
  Forall (fun row => length row = 5%nat) (generate_matrix (str "Monarchy 1854!")) /\
  NoDup (concat (generate_matrix (str "Monarchy 1854!"))) /\
  (forall c, In c (concat (generate_matrix (str "Monarchy 1854!")))
             <-> 65 <= c <= 90 /\ c <> 74).
Proof.
  apply (playfair_square_ascii (str "Monarchy 1854!")). reflexivity.
Defined.

(** X15. In the square of an ASCII keyword, [find_position] of a letter of
    either case returns a row and a column in [0, 5) whose cell holds that
    letter uppercased, with J looked up as I (so J and I resolve to the
    same cell); for an ASCII character that is no letter it returns
    (-1, -1). It never raises. *)
Theorem find_position_spec (keyword : text) (c : Z) :
  forallb ascii keyword = true ->
  (ascii_letter c = true ->
   exists r col,
     find_position (generate_matrix keyword) [c] = Ok (r, col) /\
     0 <= r < 5 /\ 0 <= col < 5 /\
     getitem2 (generate_matrix keyword) r col = Ok (as_I (ascii_up c))) /\
  find_position (generate_matrix keyword) (str "J")
  = find_position (generate_matrix keyword) (str "I") /\
  (ascii c = true -> ascii_letter c = false ->
   find_position (generate_matrix keyword) [c] = Ok (-1, -1)).
Proof.
  intros Hk. destruct (generate_matrix_rows keyword Hk) as (mc & -> & Hlen & Hnd & Hmem).
  split; [|split].
  - intros Hc. pose proof (ascii_letter_ascii c Hc) as Ha.
    assert (Hy : In (as_I (ascii_up c)) ALPHABET).
    { apply list_elem_of_In, ALPHABET_spec.
      rewrite <- ascii_up_letter in Hc. unfold ascii_letter in Hc.
      rewrite ascii_up_not_lower, orb_false_r in Hc. apply ascii_upper_spec in Hc.
      unfold as_I. change (ch "J") with 74. change (ch "I") with 73.
      destruct (Z.eqb_spec (ascii_up c) 74); lia. }
    destruct (find_position_letter mc Hlen Hnd Hmem _ Hy) as (r & col & Hr & Hcol & Hf & Hcell).
    exists r, col. rewrite find_position_ascii by assumption.
    destruct (alphabet_letter _ Hy) as (Ha' & Hu' & HI' & _).
    rewrite find_position_ascii, Hu', HI' in Hf by assumption.
    split; [assumption|]. split; [assumption|]. split; [assumption|].
    rewrite getitem2_rows by assumption. congruence.
  - change (str "J") with [ch "J"]. change (str "I") with [ch "I"].
    rewrite !find_position_ascii by reflexivity. reflexivity.
  - intros Ha Hn. rewrite find_position_ascii by assumption.
    assert (Hup : ascii_up c = c).
    { unfold ascii_up. unfold ascii_letter in Hn. apply orb_false_iff in Hn as [_ ->].
      reflexivity. }
    rewrite Hup.
    assert (HI : as_I c = c).
    { unfold as_I. change (ch "J") with 74. destruct (Z.eqb_spec c 74) as [->|]; [|reflexivity].
      discriminate Hn. }
    rewrite HI. apply (scan_missing mc c 25 Hlen); [|lia].
    intros Hin%Hmem%list_elem_of_In%ALPHABET_spec.
    unfold ascii_letter in Hn. apply orb_false_iff in Hn as [Hn _].
    assert (ascii_upper c = true) by (apply ascii_upper_spec; lia). congruence.
Qed.

Lemma find_position_spec_witness :
  (exists r col,
     find_position (generate_matrix (str "MONARCHY")) [ch "j"] = Ok (r, col) /\
     0 <= r < 5 /\ 0 <= col < 5 /\
     getitem2 (generate_matrix (str "MONARCHY")) r col = Ok (ch "I")) /\
  find_position (generate_matrix (str "MONARCHY")) [ch "7"] = Ok (-1, -1).
Proof.
  split.
  - apply (proj1 (find_position_spec (str "MONARCHY") (ch "j") eq_refl)).
    reflexivity.
  - apply (proj2 (proj2 (find_position_spec (str "MONARCHY") (ch "7") eq_refl)));
      reflexivity.
Defined.

(** ** One digraph *)

Lemma succ_mod_5 (q : Z) :
  0 <= q < 5 -> 0 <= (q + 1) mod 5 < 5 /\ ((q + 1) mod 5 - 1) mod 5 = q.
Proof.
  intros Hq. assert (H : q = 0 \/ q = 1 \/ q = 2 \/ q = 3 \/ q = 4) by lia.
  destruct H as [->|[->|[->|[->| ->]]]];
    (split; [apply Z.mod_pos_bound; lia | reflexivity]).
Qed.

Lemma succ_mod_5_inj (p q : Z) :
  0 <= p < 5 -> 0 <= q < 5 -> p <> q -> (p + 1) mod 5 <> (q + 1) mod 5.
Proof.
  intros Hp Hq Hne E. apply Hne.
  rewrite <- (proj2 (succ_mod_5 p Hp)), <- (proj2 (succ_mod_5 q Hq)), E. reflexivity.
Qed.

Lemma pred_mod_5 (q : Z) : 0 <= (q - 1) mod 5 < 5.
Proof. apply Z.mod_pos_bound. lia. Qed.

Section Digraphs.

Variable mc : list Z.
Hypothesis Hlen : length mc = 25%nat.
Hypothesis Hnd : NoDup mc.
Hypothesis Hmem : forall c, In c mc <-> In c ALPHABET.

(** Encrypting a digraph of two alphabet letters gives two alphabet
    letters, and decrypting them gives the digraph back. *)
Lemma encrypt_digraph_letters (c1 c2 : Z) (res : text) (st : list Step) :
  In c1 ALPHABET -> In c2 ALPHABET ->
  exists e1 e2 st',
    encrypt_digraph (rows mc) (res, st) [c1; c2] = Ok (res ++ [e1; e2], st') /\
    In e1 ALPHABET /\ In e2 ALPHABET /\
    forall res' st'', exists st3,
      decrypt_digraph (rows mc) (res', st'') [e1; e2] = Ok (res' ++ [c1; c2], st3).
Proof.
  intros H1 H2.
  destruct (find_position_letter mc Hlen Hnd Hmem c1 H1)
    as (r1 & q1 & Hr1 & Hq1 & Hf1 & Hc1).
  destruct (find_position_letter mc Hlen Hnd Hmem c2 H2)
    as (r2 & q2 & Hr2 & Hq2 & Hf2 & Hc2).
  unfold encrypt_digraph.
  change (getitem [c1; c2] 0) with (Ok c1). change (getitem [c1; c2] 1) with (Ok c2).
  cbn [bind]. rewrite Hf1. cbn [bind]. rewrite Hf2. cbn [bind].
  destruct (succ_mod_5 q1 Hq1) as [Hn1 Hb1]. destruct (succ_mod_5 q2 Hq2) as [Hn2 Hb2].
  destruct (succ_mod_5 r1 Hr1) as [Hm1 Hd1]. destruct (succ_mod_5 r2 Hr2) as [Hm2 Hd2].
  destruct (Z.eqb_spec r1 r2) as [Er|Er].
  - rewrite !getitem2_rows by assumption. cbn [bind].
    eexists _, _, _. split; [reflexivity|].
    split; [apply cell_in_alphabet; assumption|].
    split; [apply cell_in_alphabet; assumption|].
    intros res' st''. unfold decrypt_digraph.
    change (len [cell mc r1 ((q1 + 1) mod 5); cell mc r2 ((q2 + 1) mod 5)] <? 2)
      with false. cbv iota.
    change (getitem [cell mc r1 ((q1 + 1) mod 5); cell mc r2 ((q2 + 1) mod 5)] 0)
      with (Ok (cell mc r1 ((q1 + 1) mod 5))).
    change (getitem [cell mc r1 ((q1 + 1) mod 5); cell mc r2 ((q2 + 1) mod 5)] 1)
      with (Ok (cell mc r2 ((q2 + 1) mod 5))).
    cbn [bind]. rewrite !find_position_cell by assumption. cbn [bind].
    rewrite (proj2 (Z.eqb_eq r1 r2) Er), Hb1, Hb2.
    rewrite !getitem2_rows by assumption. cbn [bind]. rewrite Hc1, Hc2. eauto.
  - destruct (Z.eqb_spec q1 q2) as [Eq|Eq].
    + rewrite !getitem2_rows by assumption. cbn [bind].
      eexists _, _, _. split; [reflexivity|].
      split; [apply cell_in_alphabet; assumption|].
      split; [apply cell_in_alphabet; assumption|].
      intros res' st''. unfold decrypt_digraph.
      change (len [cell mc ((r1 + 1) mod 5) q1; cell mc ((r2 + 1) mod 5) q2] <? 2)
        with false. cbv iota.
      change (getitem [cell mc ((r1 + 1) mod 5) q1; cell mc ((r2 + 1) mod 5) q2] 0)
        with (Ok (cell mc ((r1 + 1) mod 5) q1)).
      change (getitem [cell mc ((r1 + 1) mod 5) q1; cell mc ((r2 + 1) mod 5) q2] 1)
        with (Ok (cell mc ((r2 + 1) mod 5) q2)).
      cbn [bind]. rewrite !find_position_cell by assumption. cbn [bind].
      rewrite (proj2 (Z.eqb_neq _ _) (succ_mod_5_inj r1 r2 Hr1 Hr2 Er)).
      rewrite (proj2 (Z.eqb_eq q1 q2) Eq), Hd1, Hd2.
      rewrite !getitem2_rows by assumption. cbn [bind]. rewrite Hc1, Hc2. eauto.
    + rewrite !getitem2_rows by assumption. cbn [bind].
      eexists _, _, _. split; [reflexivity|].
      split; [apply cell_in_alphabet; assumption|].
      split; [apply cell_in_alphabet; assumption|].
      intros res' st''. unfold decrypt_digraph.
      change (len [cell mc r1 q2; cell mc r2 q1] <? 2) with false. cbv iota.
      change (getitem [cell mc r1 q2; cell mc r2 q1] 0) with (Ok (cell mc r1 q2)).
      change (getitem [cell mc r1 q2; cell mc r2 q1] 1) with (Ok (cell mc r2 q1)).
      cbn [bind]. rewrite !find_position_cell by assumption. cbn [bind].
      rewrite (proj2 (Z.eqb_neq r1 r2) Er).
      rewrite (proj2 (Z.eqb_neq q2 q1)) by congruence.
      rewrite !getitem2_rows by assumption. cbn [bind]. rewrite Hc1, Hc2. eauto.
Qed.

End Digraphs.

(** ** Preparation into digraphs *)

Lemma pair_up_digraphs (s : text) :
  Forall (fun d => exists c1 c2,
                     d = [c1; c2] /\ In c1 s /\ (In c2 s \/ c2 = ch "X") /\
                     (c1 = c2 -> c1 = ch "X"))
         (pair_up s).
Proof.
  induction s as [s IH] using (induction_ltof1 _ (@length Z)). unfold ltof in IH.
  destruct s as [|first [|next rest]].
  - constructor.
  - cbn [pair_up]. constructor; [|constructor].
    exists first, (ch "X"). split; [reflexivity|]. split; [left; reflexivity|].
    split; [right; reflexivity|]. auto.
  - cbn [pair_up]. destruct (Z.eqb_spec first next) as [E|E].
    + constructor.
      * exists first, (ch "X"). split; [reflexivity|]. split; [left; reflexivity|].
        split; [right; reflexivity|]. auto.
      * eapply Forall_impl; [apply (IH (next :: rest)); cbn [length]; lia|].
        intros d (c1 & c2 & -> & H1 & H2 & H3). exists c1, c2.
        split; [reflexivity|]. split; [right; assumption|].
        split; [destruct H2; [left; right; assumption|right; assumption]|assumption].
    + constructor.
      * exists first, next. split; [reflexivity|]. split; [left; reflexivity|].
        split; [left; right; left; reflexivity|]. contradiction.
      * eapply Forall_impl; [apply (IH rest); cbn [length]; lia|].
        intros d (c1 & c2 & -> & H1 & H2 & H3). exists c1, c2.
        split; [reflexivity|]. split; [right; right; assumption|].
        split; [destruct H2; [left; right; right; assumption|right; assumption]
               |assumption].
Qed.

Lemma X_in_ALPHABET : In (ch "X") ALPHABET.
Proof. apply list_elem_of_In, ALPHABET_spec. change (ch "X") with 88. lia. Qed.

Lemma prepare_text_pairs (T : text) :
  forallb ascii T = true -> Forall letter_pair (prepare_text T).
Proof.
  intros HT. unfold prepare_text.
  eapply Forall_impl; [apply pair_up_digraphs|].
  intros d (c1 & c2 & -> & H1 & H2 & _). exists c1, c2. split; [reflexivity|].
  split.
  - apply list_elem_of_In, (keyword_letters_ascii T); [assumption|].
    apply list_elem_of_In, H1.
  - destruct H2 as [H2| ->]; [|apply X_in_ALPHABET].
    apply list_elem_of_In, (keyword_letters_ascii T); [assumption|].
    apply list_elem_of_In, H2.
Qed.

(** X16. For every ASCII text, [prepare_text] returns digraphs of exactly
    two uppercase letters other than J, and a digraph has two equal
    letters only when both are X; a text without letters gives no
    digraph. *)
Theorem prepare_text_digraphs (T : text) :
  forallb ascii T = true ->
  Forall (fun d => exists c1 c2,
                     d = [c1; c2] /\
                     (65 <= c1 <= 90 /\ c1 <> 74) /\ (65 <= c2 <= 90 /\ c2 <> 74) /\
                     (c1 = c2 -> c1 = ch "X"))
         (prepare_text T) /\
  (forallb (fun c => negb (ascii_letter c)) T = true -> prepare_text T = []).
Proof.
  intros HT. split.
  - unfold prepare_text. eapply Forall_impl; [apply pair_up_digraphs|].
    intros d (c1 & c2 & -> & H1 & H2 & H3). exists c1, c2. split; [reflexivity|].
    split; [|split; [|assumption]].
    + apply ALPHABET_spec, (keyword_letters_ascii T); [assumption|].
      apply list_elem_of_In, H1.
    + destruct H2 as [H2| ->]; [|change (ch "X") with 88; lia].
      apply ALPHABET_spec, (keyword_letters_ascii T); [assumption|].
      apply list_elem_of_In, H2.
  - intros Hn. unfold prepare_text.
    replace (letters_only (replace (ch "J") (ch "I") (upper T))) with (@nil Z);
      [reflexivity|].
    symmetry. rewrite (upper_ascii T HT). unfold letters_only, replace.
    induction T as [|c T IH]; [reflexivity|].
    cbn [forallb] in HT, Hn. apply andb_true_iff in HT as [Hc HT].
    apply andb_true_iff in Hn as [Hl Hn]. apply negb_true_iff in Hl.
    cbn [map]. rewrite filter_cons.
    assert (Hup : ascii_up c = c).
    { unfold ascii_up. unfold ascii_letter in Hl.
      apply orb_false_iff in Hl as [_ ->]. reflexivity. }
    rewrite Hup.
    assert (Hj : (c =? ch "J") = false).
    { change (ch "J") with 74. apply Z.eqb_neq. intros ->. discriminate Hl. }
    rewrite Hj. destruct (decide (isalpha c = true)) as [Ha|_]; [|apply IH; assumption].
    rewrite isalpha_ascii in Ha by assumption. congruence.
Qed.

Lemma prepare_text_digraphs_witness :
  Forall (fun d => exists c1 c2,
                     d = [c1; c2] /\
                     (65 <= c1 <= 90 /\ c1 <> 74) /\ (65 <= c2 <= 90 /\ c2 <> 74) /\
                     (c1 = c2 -> c1 = ch "X"))
         (prepare_text (str "Jazz fuzz")) /\
  prepare_text (str "12 + 3?") = [].
Proof.
  split.
  - apply (proj1 (prepare_text_digraphs (str "Jazz fuzz") eq_refl)).
  - apply (proj2 (prepare_text_digraphs (str "12 + 3?") eq_refl)). reflexivity.
Defined.

(** ** The loops over the digraphs *)

Lemma playfair_encrypt_loop (mc : list Z) (ds : list text) :
  length mc = 25%nat -> NoDup mc -> (forall c, In c mc <-> In c ALPHABET) ->
  Forall letter_pair ds ->
  forall res st,
  exists es st',
    foldM (encrypt_digraph (rows mc)) ds (res, st) = Ok (res ++ concat es, st') /\
    Forall letter_pair es /\ length es = length ds /\
    forall res' st'', exists st3,
      foldM (decrypt_digraph (rows mc)) es (res', st'')
      = Ok (res' ++ concat ds, st3).
Proof.
  intros Hlen Hnd Hmem Hds.
  induction Hds as [|d ds (c1 & c2 & -> & H1 & H2) _ IH]; intros res st.
  - exists [], st. cbn [foldM concat length]. rewrite app_nil_r.
    split; [reflexivity|]. split; [constructor|]. split; [reflexivity|].
    intros res' st''. exists st''. rewrite app_nil_r. reflexivity.
  - destruct (encrypt_digraph_letters mc Hlen Hnd Hmem c1 c2 res st H1 H2)
      as (e1 & e2 & st1 & He & Hi1 & Hi2 & Hback).
    destruct (IH (res ++ [e1; e2]) st1) as (es & st' & Hes & Hpairs & Hl & Hdec).
    exists ([e1; e2] :: es), st'. cbn [foldM concat length].
    rewrite He. cbn [bind]. rewrite Hes, <- app_assoc.
    split; [reflexivity|]. split; [constructor; [exists e1, e2; auto|assumption]|].
    split; [lia|]. intros res' st''.
    destruct (Hback res' st'') as [st3 Hb]. rewrite Hb. cbn [bind].
    destruct (Hdec (res' ++ [c1; c2]) st3) as [st4 ->]. exists st4.
    rewrite <- app_assoc. reflexivity.
Qed.

(** ** Cutting the ciphertext into digraphs *)

Lemma slice_middle {A : Type} (p d r : list A) :
  slice (p ++ d ++ r) (len p) (len p + len d) = d.
Proof.
  unfold slice, slice_bound. rewrite !len_app.
  pose proof (len_nonneg p). pose proof (len_nonneg d). pose proof (len_nonneg r).
  cmp_lia. rewrite !Z.min_r, !Z.max_r by lia.
  unfold len. rewrite Nat2Z.id.
  replace (Z.to_nat (Z.of_nat (length p) + Z.of_nat (length d) - Z.of_nat (length p)))
    with (length d) by lia.
  rewrite List.skipn_app, List.skipn_all, Nat.sub_diag. cbn [app].
  change (drop 0 (d ++ r)) with (d ++ r).
  rewrite List.firstn_app, Nat.sub_diag, List.firstn_all. cbn [firstn].
  apply app_nil_r.
Qed.

Lemma chunks_of_concat (es : list text) :
  Forall (fun d => length d = 2%nat) es ->
  forall p : text,
    map (fun i => slice (p ++ concat es) i (i + 2))
        (map (fun k : nat => len p + 2 * Z.of_nat k) (seq 0 (length es)))
    = es.
Proof.
  induction 1 as [|d es Hd _ IH]; intros p; [reflexivity|].
  cbn [length seq map concat]. f_equal.
  - replace (len p + 2 * Z.of_nat 0 + 2) with (len p + len d)
      by (unfold len; rewrite Hd; lia).
    replace (len p + 2 * Z.of_nat 0) with (len p) by lia.
    apply slice_middle.
  - etransitivity; [|apply (IH (p ++ d))].
    rewrite <- seq_shift, !map_map. apply map_ext. intros k.
    rewrite app_assoc, len_app.
    replace (len d) with 2 by (unfold len; rewrite Hd; reflexivity).
    f_equal; lia.
Qed.

Lemma letter_pairs_length (es : list text) :
  Forall letter_pair es ->
  Forall (fun d => length d = 2%nat) es /\
  length (concat es) = (2 * length es)%nat /\
  Forall (fun c => In c ALPHABET) (concat es).
Proof.
  induction 1 as [|d es (c1 & c2 & -> & H1 & H2) _ (IH1 & IH2 & IH3)].
  - repeat split; constructor.
  - split; [constructor; [reflexivity|assumption]|].
    cbn [concat app length]. split; [lia|].
    constructor; [assumption|]. constructor; assumption.
Qed.

Lemma digraphs_of_concat (es : list text) :
  Forall letter_pair es ->
  map (fun i => slice (concat es) i (i + 2)) (range 0 (len (concat es)) 2) = es.
Proof.
  intros H. destruct (letter_pairs_length es H) as (H2 & Hl & _).
  unfold len. rewrite Hl, Nat2Z.inj_mul. change (Z.of_nat 2) with 2.
  rewrite range_even.
  etransitivity; [|apply (chunks_of_concat es H2 [])].
  rewrite !map_map. apply map_ext. intros k. reflexivity.
Qed.

Lemma clean_alphabet_text (s : text) :
  Forall (fun c => In c ALPHABET) s ->
  letters_only (replace (ch "J") (ch "I") (upper s)) = s.
Proof.
  intros Hs.
  assert (Hup : forallb ascii_upper s = true).
  { apply forallb_forall. intros c Hc. rewrite Forall_forall in Hs.
    apply alphabet_letter, Hs, list_elem_of_In, Hc. }
  rewrite upper_of_uppercase by assumption.
  replace (replace (ch "J") (ch "I") s) with s.
  - apply letters_only_fixed. revert Hup. apply forallb_impl, isalpha_upper_letter.
  - unfold replace. rewrite <- (map_id s) at 1. apply map_ext_in.
    intros c Hc. rewrite Forall_forall in Hs.
    pose proof (Hs c (proj2 (list_elem_of_In _ _) Hc)) as Hin.
    apply list_elem_of_In, ALPHABET_spec in Hin. change (ch "J") with 74.
    cmp_lia. reflexivity.
Qed.

(** X17. Playfair round trip: for every ASCII keyword and every ASCII
    text, [encrypt] succeeds, its result has two letters of the square per
    digraph, and [decrypt] of that result with the same keyword returns
    the prepared text (the digraphs of [prepare_text] joined, fillers
    included), digraphs "XX" included. *)
Theorem playfair_roundtrip (T keyword : text) :
  forallb ascii T = true ->
  forallb ascii keyword = true ->
  exists e d,
    encrypt T keyword = Ok e /\
    length (result e) = (2 * length (prepare_text T))%nat /\
    Forall (fun c => 65 <= c <= 90 /\ c <> 74) (result e) /\
    decrypt (result e) keyword = Ok d /\
    result d = concat (prepare_text T) /\
    prepared_text e = Some (result d).
Proof.
  intros HT Hk.
  destruct (generate_matrix_rows keyword Hk) as (mc & Hg & Hlen & Hnd & Hmem).
  destruct (playfair_encrypt_loop mc (prepare_text T) Hlen Hnd Hmem
              (prepare_text_pairs T HT) [] [])
    as (es & st & Henc & Hpairs & Hl & Hdec).
  destruct (letter_pairs_length es Hpairs) as (_ & Hlc & Halpha).
  destruct (Hdec [] []) as [st3 Hd].
  eexists. eexists. split.
  { unfold encrypt. rewrite Hg, Henc. cbn [bind app]. reflexivity. }
  cbn [result prepared_text]. split; [lia|]. split.
  { eapply Forall_impl; [exact Halpha|]. intros c Hc.
    apply ALPHABET_spec, list_elem_of_In, Hc. }
  split.
  { unfold decrypt. rewrite Hg, clean_alphabet_text by assumption.
    rewrite digraphs_of_concat by assumption. rewrite Hd. cbn [bind app].
    reflexivity. }
  cbn [result]. split; reflexivity.
Qed.

Lemma playfair_roundtrip_witness :
  exists e d,
    encrypt (str "Balloon, jazz!") (str "playfair example") = Ok e /\
    length (result e) = (2 * length (prepare_text (str "Balloon, jazz!")))%nat /\
    Forall (fun c => 65 <= c <= 90 /\ c <> 74) (result e) /\
    decrypt (result e) (str "playfair example") = Ok d /\
    result d = concat (prepare_text (str "Balloon, jazz!")) /\
    prepared_text e = Some (result d).
Proof.
  apply (playfair_roundtrip (str "Balloon, jazz!") (str "playfair example"));
    reflexivity.
Defined.

(** ** Decrypting arbitrary letters *)

Lemma seq_S_head (n : nat) : seq 0 (S n) = 0%nat :: seq 1 n.
Proof. reflexivity. Qed.

Lemma foldM_app {A S : Type} (body : S -> A -> Res S) (l1 l2 : list A) (acc : S) :
  foldM body (l1 ++ l2) acc = bind (foldM body l1 acc) (foldM body l2).
Proof.
  revert acc. induction l1 as [|x l1 IH]; intros acc; cbn [app foldM bind].
  - reflexivity.
  - destruct (body acc x) as [acc'|e]; cbn [bind]; [apply IH|reflexivity].
Qed.

Lemma decrypt_digraph_letters (mc : list Z) (c1 c2 : Z) (res : text) (st : list Step) :
  length mc = 25%nat -> NoDup mc -> (forall c, In c mc <-> In c ALPHABET) ->
  In c1 ALPHABET -> In c2 ALPHABET ->
  exists d1 d2 st',
    decrypt_digraph (rows mc) (res, st) [c1; c2] = Ok (res ++ [d1; d2], st').
Proof.
  intros Hlen Hnd Hmem H1 H2.
  destruct (find_position_letter mc Hlen Hnd Hmem c1 H1)
    as (r1 & q1 & Hr1 & Hq1 & Hf1 & Hc1).
  destruct (find_position_letter mc Hlen Hnd Hmem c2 H2)
    as (r2 & q2 & Hr2 & Hq2 & Hf2 & Hc2).
  unfold decrypt_digraph. change (len [c1; c2] <? 2) with false. cbv iota.
  change (getitem [c1; c2] 0) with (Ok c1). change (getitem [c1; c2] 1) with (Ok c2).
  cbn [bind]. rewrite Hf1. cbn [bind]. rewrite Hf2. cbn [bind].
  pose proof (pred_mod_5 q1). pose proof (pred_mod_5 q2).
  pose proof (pred_mod_5 r1). pose proof (pred_mod_5 r2).
  destruct (r1 =? r2); [|destruct (q1 =? q2)];
    rewrite !getitem2_rows by assumption; cbn [bind]; eauto.
Qed.

Lemma playfair_decrypt_loop (mc : list Z) (ds : list text) :
  length mc = 25%nat -> NoDup mc -> (forall c, In c mc <-> In c ALPHABET) ->
  Forall letter_pair ds ->
  forall res st,
  exists out st',
    foldM (decrypt_digraph (rows mc)) ds (res, st) = Ok (res ++ out, st') /\
    length out = (2 * length ds)%nat.
Proof.
  intros Hlen Hnd Hmem Hds.
  induction Hds as [|d ds (c1 & c2 & -> & H1 & H2) _ IH]; intros res st.
  - exists [], st. rewrite app_nil_r. split; reflexivity.
  - destruct (decrypt_digraph_letters mc c1 c2 res st Hlen Hnd Hmem H1 H2)
      as (d1 & d2 & st1 & Hd).
    destruct (IH (res ++ [d1; d2]) st1) as (out & st' & Hout & Hl).
    exists ([d1; d2] ++ out), st'. cbn [foldM]. rewrite Hd. cbn [bind].
    rewrite Hout, <- app_assoc. split; [reflexivity|].
    cbn [app length]. cbn [length] in Hl. lia.
Qed.

Lemma pairs_of_even_text (C : text) :
  Forall (fun c => In c ALPHABET) C -> Nat.Even (length C) ->
  exists es, C = concat es /\ Forall letter_pair es.
Proof.
  intros HC [m Hm]. revert C HC Hm. induction m as [|m IH]; intros C HC Hm.
  - destruct C; [|discriminate Hm]. exists []. split; [reflexivity|constructor].
  - destruct C as [|x [|y C]]; try (cbn [length] in Hm; lia).
    apply Forall_cons in HC as [Hx HC]. apply Forall_cons in HC as [Hy HC].
    destruct (IH C HC) as (es & -> & Hes); [cbn [length] in Hm; lia|].
    exists ([x; y] :: es). split; [reflexivity|].
    constructor; [exists x, y; auto|assumption].
Qed.

Lemma slice_last {A : Type} (p : list A) (x : A) :
  slice (p ++ [x]) (len p) (len p + 2) = [x].
Proof.
  unfold slice, slice_bound. rewrite !len_app. change (len [x]) with 1.
  pose proof (len_nonneg p). cmp_lia.
  rewrite (Z.min_r (len p + 1) (len p)), (Z.min_l (len p + 1) (len p + 2)),
    !Z.max_r by lia.
  unfold len. rewrite Nat2Z.id.
  replace (Z.to_nat (Z.of_nat (length p) + 1 - Z.of_nat (length p))) with 1%nat by lia.
  rewrite List.skipn_app, List.skipn_all, Nat.sub_diag. reflexivity.
Qed.

Lemma chunks_with_tail (es : list text) (x : Z) :
  Forall (fun d => length d = 2%nat) es ->
  forall p : text,
    map (fun i => slice (p ++ concat es ++ [x]) i (i + 2))
        (map (fun k : nat => len p + 2 * Z.of_nat k) (seq 0 (S (length es))))
    = es ++ [[x]].
Proof.
  induction 1 as [|d es Hd _ IH]; intros p.
  - cbn [length seq map concat app].
    replace (len p + 2 * Z.of_nat 0) with (len p) by lia.
    rewrite slice_last. reflexivity.
  - change (length (d :: es)) with (S (length es)).
    rewrite (seq_S_head (S (length es))). cbn [map concat app]. f_equal.
    + replace (len p + 2 * Z.of_nat 0 + 2) with (len p + len d)
        by (unfold len; rewrite Hd; lia).
      replace (len p + 2 * Z.of_nat 0) with (len p) by lia.
      rewrite <- app_assoc. apply slice_middle.
    + etransitivity; [|apply (IH (p ++ d))].
      rewrite <- seq_shift, !map_map. apply map_ext. intros k.
      rewrite <- !app_assoc, len_app.
      replace (len d) with 2 by (unfold len; rewrite Hd; reflexivity).
      f_equal; lia.
Qed.

Lemma range_odd (m : nat) :
  range 0 (2 * Z.of_nat m + 1) 2 = map (fun k : nat => 2 * Z.of_nat k) (seq 0 (S m)).
Proof.
  unfold range.
  replace ((2 * Z.of_nat m + 1 - 0 + 2 - 1) / 2) with (Z.of_nat (S m)).
  - rewrite Nat2Z.id. apply map_ext. intros k. lia.
  - apply Z.div_unique with (r := 0); lia.
Qed.

(** X18. [decrypt] ignores a trailing unpaired letter: for an ASCII
    keyword, an even-length ciphertext of letters of the square and one
    more such letter appended, the result is the same as without the
    extra letter, and has the length of the even-length ciphertext. *)
Theorem playfair_decrypt_drops_odd_letter (C keyword : text) (x : Z) :
  forallb ascii keyword = true ->
  Forall (fun c => 65 <= c <= 90 /\ c <> 74) C ->
  Nat.Even (length C) ->
  65 <= x <= 90 /\ x <> 74 ->
  exists d d',
    decrypt C keyword = Ok d /\
    decrypt (C ++ [x]) keyword = Ok d' /\
    result d' = result d /\
    length (result d) = length C.
Proof.
  intros Hk HC Hev Hx.
  destruct (generate_matrix_rows keyword Hk) as (mc & Hg & Hlen & Hnd & Hmem).
  assert (HC' : Forall (fun c => In c ALPHABET) C).
  { eapply Forall_impl; [exact HC|]. intros c Hc.
    apply list_elem_of_In, ALPHABET_spec, Hc. }
  assert (Hx' : In x ALPHABET) by (apply list_elem_of_In, ALPHABET_spec, Hx).
  destruct (pairs_of_even_text C HC' Hev) as (es & -> & Hes).
  destruct (letter_pairs_length es Hes) as (H2 & Hl & _).
  destruct (playfair_decrypt_loop mc es Hlen Hnd Hmem Hes [] [])
    as (out & st & Hout & Hlo).
  eexists. eexists. split.
  { unfold decrypt. rewrite Hg, clean_alphabet_text by assumption.
    rewrite digraphs_of_concat by assumption. rewrite Hout. cbn [bind app].
    reflexivity. }
  split.
  { unfold decrypt. rewrite Hg.
    rewrite clean_alphabet_text
      by (apply Forall_app; split; [assumption|constructor; [assumption|constructor]]).
    rewrite len_app. change (len [x]) with 1. unfold len. rewrite Hl, Nat2Z.inj_mul.
    change (Z.of_nat 2) with 2. rewrite range_odd.
    pose proof (chunks_with_tail es x H2 []) as Hchunks. cbn [app] in Hchunks.
    change (fun k : nat => 2 * Z.of_nat k) with (fun k : nat => len (@nil Z) + 2 * Z.of_nat k).
    rewrite Hchunks, foldM_app, Hout. cbn [bind app foldM].
    unfold decrypt_digraph at 1. change (len [x] <? 2) with true. cbv iota.
    cbn [bind]. reflexivity. }
  cbn [result]. split; [reflexivity|]. lia.
Qed.

Lemma playfair_decrypt_drops_odd_letter_witness :
  exists d d',
    decrypt (str "KGYVRV") (str "PLAYFAIR") = Ok d /\
    decrypt (str "KGYVRV" ++ [ch "Q"]) (str "PLAYFAIR") = Ok d' /\
    result d' = result d /\
    length (result d) = length (str "KGYVRV").
Proof.
  apply (playfair_decrypt_drops_odd_letter (str "KGYVRV") (str "PLAYFAIR") (ch "Q")).
  - reflexivity.
  - change (str "KGYVRV") with [75; 71; 89; 86; 82; 86].
    repeat constructor; lia.
  - exists 3%nat. reflexivity.
  - change (ch "Q") with 81. lia.
Defined.

End PlayfairMore.

(* ===================================================================== *)
(** * Further properties of the Hill cipher *)
(* ===================================================================== *)

Section HillMore.

Import HillCipher.

(** ** Key validation *)

Lemma validate_matrix_bad_shape (M : list (list Z)) :
  (forall a b c d, M <> [[a; b]; [c; d]]) ->
  validate_matrix M = Ok (BadShape false MustBe2x2).
Proof.
  intros Hshape. unfold validate_matrix.
  destruct M as [|r0 [|r1 [|r2 M]]]; try reflexivity.
  - change (len [r0; r1] =? 2) with true. cbn [negb].
    change (getitem [r0; r1] 0) with (Ok r0).
    change (getitem [r0; r1] 1) with (Ok r1). cbn [bind].
    destruct r0 as [|a [|b [|x r0]]]; try reflexivity.
    + change (len [a; b] =? 2) with true. cbn [negb bind].
      destruct r1 as [|c [|d [|y r1]]]; try reflexivity.
      * exfalso. apply (Hshape a b c d). reflexivity.
      * rewrite !len_cons. pose proof (len_nonneg r1). cmp_lia. reflexivity.
    + rewrite !len_cons. pose proof (len_nonneg r0). cmp_lia. reflexivity.
  - rewrite !len_cons. pose proof (len_nonneg M). cmp_lia. reflexivity.
Qed.

(** X19. A key that is not a 2x2 matrix (wrong number of rows, or a row
    of the wrong length) is reported, not raised: [validate_matrix],
    [encrypt] and [decrypt] all return the error "Matrix must be 2x2". *)
Theorem hill_rejects_bad_shape (T : text) (M : list (list Z)) :
  (forall a b c d, M <> [[a; b]; [c; d]]) ->
  validate_matrix M = Ok (BadShape false MustBe2x2) /\
  encrypt T M = Ok (Failed (Some MustBe2x2)) /\
  decrypt T M = Ok (Failed (Some MustBe2x2)).
Proof.
  intros H. pose proof (validate_matrix_bad_shape M H) as Hv.
  split; [assumption|]. unfold encrypt, decrypt. rewrite Hv. split; reflexivity.
Qed.

Lemma hill_rejects_bad_shape_witness :
  validate_matrix [[1; 2; 3]; [4; 5; 6]] = Ok (BadShape false MustBe2x2) /\
  encrypt (str "HELP") [[1; 2; 3]; [4; 5; 6]] = Ok (Failed (Some MustBe2x2)) /\
  decrypt (str "HELP") [[1; 2; 3]; [4; 5; 6]] = Ok (Failed (Some MustBe2x2)).
Proof.
  apply (hill_rejects_bad_shape (str "HELP") [[1; 2; 3]; [4; 5; 6]]).
  intros a b c d H. discriminate H.
Defined.

Lemma hill_decrypt_invalid (a b c d : Z) (T : text) :
  gcd ((a * d - b * c) mod 26) 26 <> 1 ->
  decrypt T [[a; b]; [c; d]]
  = Ok (Failed (Some (NotInvertible ((a * d - b * c) mod 26)
                                    (gcd ((a * d - b * c) mod 26) 26)))).
Proof.
  intros Hg. unfold decrypt. rewrite validate_matrix_2x2. cbn [bind v_valid v_error].
  destruct (Z.eqb_spec (gcd ((a * d - b * c) mod 26) 26) 1) as [E|E];
    [contradiction|reflexivity].
Qed.

(** X20. On a 2x2 key [encrypt] and [decrypt] agree on validity: when the
    determinant modulo 26 is coprime with 26 both return a result (so
    [decrypt] never answers "Could not compute matrix inverse"), otherwise
    both return the same error carrying the determinant modulo 26 and its
    gcd with 26. Neither raises. *)
Theorem hill_key_validity (a b c d : Z) (T : text) :
  let dm := (a * d - b * c) mod 26 in
  (Z.gcd dm 26 = 1 ->
   exists e r, encrypt T [[a; b]; [c; d]] = Ok (Done e) /\
               decrypt T [[a; b]; [c; d]] = Ok (Done r) /\
               determinant e = a * d - b * c /\ determinant_mod_26 e = dm) /\
  (Z.gcd dm 26 <> 1 ->
   encrypt T [[a; b]; [c; d]] = Ok (Failed (Some (NotInvertible dm (Z.gcd dm 26)))) /\
   decrypt T [[a; b]; [c; d]] = Ok (Failed (Some (NotInvertible dm (Z.gcd dm 26))))).
Proof.
  intros dm. subst dm. rewrite <- !gcd_spec. split; intros Hg.
  - destruct (hill_encrypt_eq a b c d T Hg) as (steps & inv & ->).
    destruct (hill_decrypt_eq a b c d T Hg) as (v & dsteps & _ & _ & ->).
    eexists _, _. repeat split; reflexivity.
  - rewrite hill_encrypt_invalid, hill_decrypt_invalid by assumption.
    split; reflexivity.
Qed.

Lemma hill_key_validity_witness :
  (exists e r, encrypt (str "HELP") [[3; 3]; [2; 5]] = Ok (Done e) /\
               decrypt (str "HELP") [[3; 3]; [2; 5]] = Ok (Done r) /\
               determinant e = 3 * 5 - 3 * 2 /\
               determinant_mod_26 e = (3 * 5 - 3 * 2) mod 26) /\
  (encrypt (str "HELP") [[1; 0]; [0; 2]]
   = Ok (Failed (Some (NotInvertible ((1 * 2 - 0 * 0) mod 26)
                                     (Z.gcd ((1 * 2 - 0 * 0) mod 26) 26)))) /\
   decrypt (str "HELP") [[1; 0]; [0; 2]]
   = Ok (Failed (Some (NotInvertible ((1 * 2 - 0 * 0) mod 26)
                                     (Z.gcd ((1 * 2 - 0 * 0) mod 26) 26))))).
Proof.
  split.
  - apply (proj1 (hill_key_validity 3 3 2 5 (str "HELP"))). reflexivity.
  - apply (proj2 (hill_key_validity 1 0 0 2 (str "HELP"))). discriminate.
Defined.

(** ** Preparation and round trip on any ASCII text *)

Lemma letters_only_upper_ascii (T : text) :
  forallb ascii T = true ->
  letters_only (upper T) = map ascii_up (List.filter ascii_letter T).
Proof.
  intros HT. rewrite (upper_ascii T HT). unfold letters_only.
  induction T as [|c T IH]; [reflexivity|].
  cbn [forallb] in HT. apply andb_true_iff in HT as [Hc HT].
  cbn [map List.filter]. rewrite filter_cons.
  assert (Ha : isalpha (ascii_up c) = ascii_letter c).
  { rewrite isalpha_ascii by (apply ascii_up_ascii; assumption).
    apply ascii_up_letter. }
  destruct (decide (isalpha (ascii_up c) = true)) as [E|E];
    rewrite Ha in E; destruct (ascii_letter c); try congruence.
  - cbn [map]. rewrite IH by assumption. reflexivity.
  - apply IH. assumption.
Qed.

Lemma len_mod_2_even {A : Type} (l : list A) :
  (len l mod 2 =? 0) = Nat.even (length l).
Proof.
  unfold len. destruct (Nat.even (length l)) eqn:E.
  - apply Nat.even_spec in E as [m ->]. apply Z.eqb_eq.
    rewrite Nat2Z.inj_mul, Z.mul_comm. apply Z_mod_mult.
  - apply Z.eqb_neq. rewrite <- Nat.negb_odd in E. apply negb_false_iff in E.
    apply Nat.odd_spec in E as [m ->].
    rewrite Nat2Z.inj_add, Nat2Z.inj_mul, Z.add_comm, Z.mul_comm.
    rewrite Z_mod_plus_full. discriminate.
Qed.

Lemma length_letters_of (vs : list (list Z)) :
  Forall (fun v => exists x y, v = [x; y]) vs ->
  length (letters_of vs) = (2 * length vs)%nat.
Proof.
  induction 1 as [|v vs (x & y & ->) _ IH]; [reflexivity|].
  unfold letters_of in *. cbn [flat_map map app length]. lia.
Qed.

Lemma length_hill_result (a b c d : Z) (P : text) :
  Nat.Even (length P) ->
  length (letters_of (map (apply2 a b c d) (vectors_of P))) = length P.
Proof.
  intros HP. rewrite length_letters_of
    by (apply positions2_pairs, apply2_positions, vectors_of_pairs).
  rewrite length_map. rewrite <- (letters_of_vectors_of P HP) at 2.
  rewrite length_letters_of by apply vectors_of_pairs. reflexivity.
Qed.

(** X21. Hill round trip on any ASCII text: with a valid 2x2 key,
    decrypting the encryption returns the prepared text, which is the
    letters of the text uppercased (everything else dropped) followed by
    one "X" when their number is odd; the ciphertext has the same, even,
    length and consists of uppercase letters. *)
Theorem hill_roundtrip_prepared (a b c d : Z) (T : text) :
  Z.gcd ((a * d - b * c) mod 26) 26 = 1 ->
  forallb ascii T = true ->
  exists e r,
    encrypt T [[a; b]; [c; d]] = Ok (Done e) /\
    decrypt (result e) [[a; b]; [c; d]] = Ok (Done r) /\
    result r = prepare_text T /\
    prepare_text T
    = (let L := map ascii_up (List.filter ascii_letter T) in
       if Nat.even (length L) then L else L ++ [ch "X"]) /\
    length (result e) = length (prepare_text T) /\
    Nat.Even (length (result e)) /\
    forallb ascii_upper (result e) = true.
Proof.
  intros Hg HT. rewrite <- gcd_spec in Hg.
  destruct (hill_roundtrip_ascii a b c d T Hg HT) as (e & r & He & Hr & Hres).
  exists e, r. split; [assumption|]. split; [assumption|]. split; [assumption|].
  destruct (hill_encrypt_eq a b c d T Hg) as (steps & inv & He').
  rewrite He' in He. injection He as <-. cbn [result].
  split.
  { unfold prepare_text. rewrite letters_only_upper_ascii by assumption.
    rewrite len_mod_2_even. cbv zeta.
    destruct (Nat.even (length (map ascii_up (List.filter ascii_letter T))));
      reflexivity. }
  rewrite length_hill_result by apply length_prepare_text_even.
  split; [reflexivity|]. split; [apply length_prepare_text_even|].
  apply letters_of_upper, apply2_positions, vectors_of_pairs.
Qed.

Lemma hill_roundtrip_prepared_witness :
  exists e r,
    encrypt (str "Meet me at 9!") [[3; 3]; [2; 5]] = Ok (Done e) /\
    decrypt (result e) [[3; 3]; [2; 5]] = Ok (Done r) /\
    result r = prepare_text (str "Meet me at 9!") /\
    prepare_text (str "Meet me at 9!")
    = (let L := map ascii_up (List.filter ascii_letter (str "Meet me at 9!")) in
       if Nat.even (length L) then L else L ++ [ch "X"]) /\
    length (result e) = length (prepare_text (str "Meet me at 9!")) /\
    Nat.Even (length (result e)) /\
    forallb ascii_upper (result e) = true.
Proof.
  apply (hill_roundtrip_prepared 3 3 2 5 (str "Meet me at 9!")); reflexivity.
Defined.

(** ** Keys modulo 26 *)

Lemma apply2_congruent (a b c d a' b' c' d' : Z) (v : list Z) :
  a mod 26 = a' mod 26 -> b mod 26 = b' mod 26 ->
  c mod 26 = c' mod 26 -> d mod 26 = d' mod 26 ->
  apply2 a b c d v = apply2 a' b' c' d' v.
Proof.
  intros Ha Hb Hc Hd. destruct v as [|x [|y [|z v]]]; try reflexivity.
  cbn [apply2]. f_equal; [|f_equal].
  - rewrite <- (mod26_comb a x b y), <- (mod26_comb a' x b' y), Ha, Hb. reflexivity.
  - rewrite <- (mod26_comb c x d y), <- (mod26_comb c' x d' y), Hc, Hd. reflexivity.
Qed.

Lemma det_congruent (a b c d a' b' c' d' : Z) :
  a mod 26 = a' mod 26 -> b mod 26 = b' mod 26 ->
  c mod 26 = c' mod 26 -> d mod 26 = d' mod 26 ->
  (a * d - b * c) mod 26 = (a' * d' - b' * c') mod 26.
Proof.
  intros Ha Hb Hc Hd.
  rewrite (Zminus_mod (a * d)), (Zminus_mod (a' * d')).
  rewrite (Zmult_mod a d), (Zmult_mod b c), (Zmult_mod a' d'), (Zmult_mod b' c').
  rewrite Ha, Hb, Hc, Hd. reflexivity.
Qed.

(** X22. Only the key modulo 26 matters: two 2x2 keys whose entries are
    congruent modulo 26 are valid together, and then encrypt every text to
    the same ciphertext. *)
Theorem hill_key_modulo_26 (a b c d a' b' c' d' : Z) (T : text) :
  a mod 26 = a' mod 26 -> b mod 26 = b' mod 26 ->
  c mod 26 = c' mod 26 -> d mod 26 = d' mod 26 ->
  gcd ((a * d - b * c) mod 26) 26 = gcd ((a' * d' - b' * c') mod 26) 26 /\
  (gcd ((a * d - b * c) mod 26) 26 = 1 ->
   exists e e',
     encrypt T [[a; b]; [c; d]] = Ok (Done e) /\
     encrypt T [[a'; b']; [c'; d']] = Ok (Done e') /\
     result e = result e').
Proof.
  intros Ha Hb Hc Hd.
  pose proof (det_congruent a b c d a' b' c' d' Ha Hb Hc Hd) as Hdet.
  split; [rewrite Hdet; reflexivity|]. intros Hg.
  destruct (hill_encrypt_eq a b c d T Hg) as (steps & inv & ->).
  rewrite Hdet in Hg.
  destruct (hill_encrypt_eq a' b' c' d' T Hg) as (steps' & inv' & ->).
  eexists _, _. split; [reflexivity|]. split; [reflexivity|]. cbn [result].
  f_equal. apply map_ext. intros v. apply apply2_congruent; assumption.
Qed.

Lemma hill_key_modulo_26_witness :
  exists e e',
    encrypt (str "HELP") [[3; 3]; [2; 5]] = Ok (Done e) /\
    encrypt (str "HELP") [[29; -23]; [-24; 57]] = Ok (Done e') /\
    result e = result e'.
Proof.
  apply (proj2 (hill_key_modulo_26 3 3 2 5 29 (-23) (-24) 57 (str "HELP")
                  eq_refl eq_refl eq_refl eq_refl)).
  vm_compute. reflexivity.
Defined.

End HillMore.

(* ===================================================================== *)
(** * Further properties of the key recovery *)
(* ===================================================================== *)

Section CrackMore.

Import HillCipher.

(** ** [crack] never raises *)

Lemma search_total (pt ct : text) (positions : list Z) :
  Forall (fun q => 0 <= q /\ q + 4 <= len pt /\ q + 4 <= len ct) positions ->
  forall tried,
  exists tried' res,
    search pt ct positions tried = Ok (tried', res) /\
    match res with
    | Some cand => exists k00 k01 k10 k11,
                     cand_key_matrix cand = [[k00; k01]; [k10; k11]]
    | None => True
    end.
Proof.
  induction 1 as [|q positions (H0 & Hp & Hc) _ IH]; intros tried; cbn [search].
  - eexists _, None. split; [reflexivity|exact I].
  - destruct (invertible_at pt q) eqn:Hinv.
    + destruct (try_crack_accepts pt ct q H0 Hp Hc Hinv)
        as (cand & Pinv & k00 & k01 & k10 & k11 & -> & _ & _ & _ & _ & _ & _ & _ & _ & HK).
      cbn [bind]. eexists _, (Some cand). split; [reflexivity|]. eauto.
    + rewrite try_crack_rejects by assumption. cbn [bind].
      destruct (window_4 pt q H0 Hp) as (p0 & p1 & p2 & p3 & Ep).
      rewrite Ep, window_matrix_4. cbn [bind].
      rewrite determinant_2x2_eq. cbn [bind]. rewrite mod_26. cbn [bind].
      apply IH.
Qed.

Lemma show_search_total (tried : list Tried) :
  exists b : bool,
    (if 1 <? len tried then Ok true
     else if len tried =? 1 then
            t0 <- getitem tried 0 ;; Ok (negb (t_invertible t0))
          else Ok false)
    = Ok b.
Proof.
  destruct tried as [|t0 [|t1 r]]; [eexists; reflexivity|eexists; reflexivity|].
  rewrite !len_cons. pose proof (len_nonneg r). cmp_lia. eauto.
Qed.

Lemma slice_full {A : Type} (l : list A) : slice l 0 (len l) = l.
Proof.
  unfold slice, slice_bound. pose proof (len_nonneg l). cmp_lia.
  rewrite !Z.min_r, !Z.max_r by lia. unfold len.
  replace (Z.to_nat (Z.of_nat (length l) - 0)) with (length l) by lia.
  change (Z.to_nat 0) with 0%nat. cbn [skipn]. apply List.firstn_all.
Qed.

Lemma len_prepare_text_lt_4 (s : text) :
  (len (prepare_text s) <? 4) = (length (letters_only (upper s)) <? 3)%nat.
Proof.
  unfold prepare_text. rewrite len_mod_2_even.
  set (L := letters_only (upper s)).
  destruct (Nat.even (length L)) eqn:E; cbn [negb].
  - apply Nat.even_spec in E as [m Hm]. unfold len. rewrite Hm.
    destruct (Nat.ltb_spec (2 * m) 3); [apply Z.ltb_lt | apply Z.ltb_ge]; lia.
  - rewrite <- Nat.negb_odd in E. apply negb_false_iff in E.
    apply Nat.odd_spec in E as [m Hm]. rewrite len_app. unfold len. rewrite Hm.
    cbn [length].
    destruct (Nat.ltb_spec (2 * m + 1) 3); [apply Z.ltb_lt | apply Z.ltb_ge]; lia.
Qed.

(** X23. On two ASCII texts [crack] never raises. It answers "Need at
    least 4 characters" exactly when one of the texts has fewer than 3
    ASCII letters: 3 letters suffice because the preparation pads them to
    4; otherwise it runs the search and returns the exhausted record or a
    found key. *)
Theorem hill_crack_total (kp kc : text) :
  forallb ascii kp = true ->
  forallb ascii kc = true ->
  exists o,
    crack kp kc = Ok o /\
    ((length (List.filter ascii_letter kp) < 3 \/
      length (List.filter ascii_letter kc) < 3)%nat ->
     o = CrackTooShort (mkTooShort NeedFourChars false)) /\
    ((3 <= length (List.filter ascii_letter kp) /\
      3 <= length (List.filter ascii_letter kc))%nat ->
     (exists d, o = CrackExhausted d) \/ (exists d, o = CrackFound d)).
Proof.
  intros Hkp Hkc.
  assert (Lp : length (letters_only (upper kp))
               = length (List.filter ascii_letter kp))
    by (rewrite letters_only_upper_ascii by assumption; apply length_map).
  assert (Lc : length (letters_only (upper kc))
               = length (List.filter ascii_letter kc))
    by (rewrite letters_only_upper_ascii by assumption; apply length_map).
  rewrite <- Lp, <- Lc. clear Lp Lc.
  unfold crack. cbv zeta. rewrite !len_prepare_text_lt_4.
  destruct (Nat.ltb_spec (length (letters_only (upper kp))) 3) as [Hp|Hp];
    [|destruct (Nat.ltb_spec (length (letters_only (upper kc))) 3) as [Hc|Hc]];
    cbn [orb].
  - eexists. split; [reflexivity|]. split; [reflexivity|]. lia.
  - eexists. split; [reflexivity|]. split; [reflexivity|]. lia.
  - assert (H4p : 4 <= len (prepare_text kp)).
    { apply Z.ltb_ge. rewrite len_prepare_text_lt_4. apply Nat.ltb_ge. assumption. }
    assert (H4c : 4 <= len (prepare_text kc)).
    { apply Z.ltb_ge. rewrite len_prepare_text_lt_4. apply Nat.ltb_ge. assumption. }
    set (n := Z.min (len (prepare_text kp)) (len (prepare_text kc))).
    set (pt := slice (prepare_text kp) 0 n). set (ct := slice (prepare_text kc) 0 n).
    assert (Hlp : len pt = n) by (subst pt; rewrite length_slice; lia).
    assert (Hlc : len ct = n) by (subst ct; rewrite length_slice; lia).
    destruct (search_total pt ct (range 0 (n - 3) 2)) with (tried := @nil Tried)
      as (tried & res & -> & Hres).
    { apply Forall_forall. intros q Hq%list_elem_of_In%in_range2. lia. }
    cbn [bind]. destruct (show_search_total tried) as [b ->]. cbn [bind].
    destruct res as [cand|].
    + destruct Hres as (k00 & k01 & k10 & k11 & HK). rewrite HK.
      destruct (hill_encrypt_total k00 k01 k10 k11 pt) as [check ->]. cbn [bind].
      eexists. split; [reflexivity|]. split; [lia|]. intros _. right. eauto.
    + eexists. split; [reflexivity|]. split; [lia|]. intros _. left. eauto.
Qed.

Lemma hill_crack_total_witness :
  (exists o, crack (str "ab") (str "cdef") = Ok o /\
             o = CrackTooShort (mkTooShort NeedFourChars false)) /\
  (exists o, crack (str "a-b-c") (str "def") = Ok o /\
             ((exists d, o = CrackExhausted d) \/ (exists d, o = CrackFound d))).
Proof.
  split.
  - destruct (hill_crack_total (str "ab") (str "cdef") eq_refl eq_refl)
      as (o & Ho & Hshort & _).
    exists o. split; [exact Ho|]. apply Hshort. left. vm_compute. lia.
  - destruct (hill_crack_total (str "a-b-c") (str "def") eq_refl eq_refl)
      as (o & Ho & _ & Hlong).
    exists o. split; [exact Ho|]. apply Hlong. vm_compute. lia.
Defined.

(** ** Recovering the key of an encryption *)

Lemma first_true {A : Type} (f : A -> bool) (l : list A) :
  (exists q, In q l /\ f q = true) ->
  exists before pos after,
    l = before ++ pos :: after /\
    Forall (fun q => f q = false) before /\ f pos = true.
Proof.
  induction l as [|x l IH]; intros (q & Hq & Hf); [destruct Hq|].
  destruct (f x) eqn:Hx.
  - exists [], x, l. split; [reflexivity|]. split; [constructor|assumption].
  - destruct Hq as [->|Hq]; [congruence|].
    destruct IH as (before & pos & after & -> & Hb & Hp); [eauto|].
    exists (x :: before), pos, after. split; [reflexivity|].
    split; [constructor; assumption|assumption].
Qed.

Lemma slice_split {A : Type} (l : list A) (lo hi : Z) :
  0 <= lo <= hi -> hi <= len l ->
  l = firstn (Z.to_nat lo) l ++ slice l lo hi ++ skipn (Z.to_nat hi) l.
Proof.
  intros Hlo Hhi. unfold slice, slice_bound. cmp_lia.
  rewrite !Z.min_r, !Z.max_r by lia.
  rewrite <- (List.firstn_skipn (Z.to_nat lo) l) at 1. f_equal.
  rewrite <- (List.firstn_skipn (Z.to_nat (hi - lo)) (skipn (Z.to_nat lo) l)) at 1.
  f_equal. rewrite List.skipn_skipn. f_equal. lia.
Qed.

Lemma vectors_of_app (p q : text) :
  Nat.Even (length p) -> vectors_of (p ++ q) = vectors_of p ++ vectors_of q.
Proof.
  intros [m Hm]. revert p Hm. induction m as [|m IH]; intros p Hm.
  - destruct p; [reflexivity|discriminate Hm].
  - destruct p as [|x [|y p]]; try (cbn [length] in Hm; lia).
    cbn [app vectors_of]. rewrite IH by (cbn [length] in Hm; lia). reflexivity.
Qed.

Lemma letters_of_app (us vs : list (list Z)) :
  letters_of (us ++ vs) = letters_of us ++ letters_of vs.
Proof. unfold letters_of. apply flat_map_app. Qed.

(** The window of the ciphertext at an even offset is the key applied to
    the two vectors of the window of the plaintext at that offset. *)
Lemma cipher_window (a b c d : Z) (pt : text) (pos p0 p1 p2 p3 : Z) :
  0 <= pos -> (exists j : nat, pos = 2 * Z.of_nat j) -> pos + 4 <= len pt ->
  slice pt pos (pos + 4) = [p0; p1; p2; p3] ->
  slice (letters_of (map (apply2 a b c d) (vectors_of pt))) pos (pos + 4)
  = [(a * (p0 - 65) + b * (p1 - 65)) mod 26 + 65;
     (c * (p0 - 65) + d * (p1 - 65)) mod 26 + 65;
     (a * (p2 - 65) + b * (p3 - 65)) mod 26 + 65;
     (c * (p2 - 65) + d * (p3 - 65)) mod 26 + 65].
Proof.
  intros H0 (j & Hj) H4 Ew.
  pose proof (slice_split pt pos (pos + 4) ltac:(lia) H4) as Hsplit.
  rewrite Ew in Hsplit.
  set (pre := firstn (Z.to_nat pos) pt) in *.
  set (post := skipn (Z.to_nat (pos + 4)) pt) in *.
  assert (Hlen : length pre = Z.to_nat pos).
  { subst pre. rewrite length_firstn. unfold len in H4. lia. }
  assert (Hev : Nat.Even (length pre)) by (exists j; lia).
  rewrite Hsplit, vectors_of_app by assumption.
  cbn [app vectors_of]. rewrite map_app, letters_of_app.
  cbn [map apply2].
  change (letters_of (?u :: ?v :: ?r)) with
    (map (fun n => n + 65) u ++ map (fun n => n + 65) v ++ letters_of r).
  cbn [map app].
  set (cpre := letters_of (map (apply2 a b c d) (vectors_of pre))).
  assert (Hcl : len cpre = pos).
  { subst cpre. unfold len. rewrite length_hill_result by assumption. lia. }
  match goal with
  | |- slice (cpre ++ ?x0 :: ?x1 :: ?x2 :: ?x3 :: ?r) _ _ = _ =>
      change (cpre ++ x0 :: x1 :: x2 :: x3 :: r)
        with (cpre ++ [x0; x1; x2; x3] ++ r);
      rewrite <- Hcl;
      change 4 with (len [x0; x1; x2; x3]) at 1;
      apply slice_middle
  end.
Qed.

(** C times the inverse of P is K modulo 26 when C is K times P. *)
Lemma recovered_key (a b c d x0 x1 x2 x3 v : Z) :
  (((x0 * x3 - x2 * x1) mod 26) * v) mod 26 = 1 ->
  matrix_multiply_mod
    [[(a * x0 + b * x1) mod 26 + 65 - 65; (a * x2 + b * x3) mod 26 + 65 - 65];
     [(c * x0 + d * x1) mod 26 + 65 - 65; (c * x2 + d * x3) mod 26 + 65 - 65]]
    [[(v * x3) mod 26; (v * - x2) mod 26]; [(v * - x1) mod 26; (v * x0) mod 26]]
    26
  = Ok [[a mod 26; b mod 26]; [c mod 26; d mod 26]].
Proof.
  intros Hv. rewrite Zmult_mod_idemp_l in Hv.
  rewrite matrix_multiply_mod_eq, !Z.add_simpl_r.
  rewrite !mod26_comb_r, !mod26_comb.
  replace ((a * x0 + b * x1) * (v * x3) + (a * x2 + b * x3) * (v * - x1))
    with (a * ((x0 * x3 - x2 * x1) * v)) by ring.
  replace ((a * x0 + b * x1) * (v * - x2) + (a * x2 + b * x3) * (v * x0))
    with (b * ((x0 * x3 - x2 * x1) * v)) by ring.
  replace ((c * x0 + d * x1) * (v * x3) + (c * x2 + d * x3) * (v * - x1))
    with (c * ((x0 * x3 - x2 * x1) * v)) by ring.
  replace ((c * x0 + d * x1) * (v * - x2) + (c * x2 + d * x3) * (v * x0))
    with (d * ((x0 * x3 - x2 * x1) * v)) by ring.
  rewrite <- (Zmult_mod_idemp_r _ a), <- (Zmult_mod_idemp_r _ b),
          <- (Zmult_mod_idemp_r _ c), <- (Zmult_mod_idemp_r _ d), Hv.
  rewrite !Z.mul_1_r. reflexivity.
Qed.

(** X24. The known-plaintext attack recovers the key of an encryption:
    for a valid 2x2 key and an ASCII text whose prepared form has, at some
    even offset, a 4-letter window that is invertible modulo 26, [crack]
    on the text and its ciphertext succeeds, and the key it returns is
    the key with every entry reduced modulo 26. *)
Theorem hill_crack_recovers_key (a b c d : Z) (T : text) :
  Z.gcd ((a * d - b * c) mod 26) 26 = 1 ->
  forallb ascii T = true ->
  (exists q, In q (range 0 (len (prepare_text T) - 3) 2) /\
             invertible_at (prepare_text T) q = true) ->
  exists e r,
    encrypt T [[a; b]; [c; d]] = Ok (Done e) /\
    crack T (result e) = Ok (CrackFound r) /\
    success r = true /\
    found_key_matrix r = [[a mod 26; b mod 26]; [c mod 26; d mod 26]].
Proof.
  intros Hg HT Hex. rewrite <- gcd_spec in Hg.
  destruct (hill_encrypt_eq a b c d T Hg) as (steps & inv & He).
  eexists. rewrite He. cbn [result].
  set (pt := prepare_text T) in *.
  set (ct := letters_of (map (apply2 a b c d) (vectors_of pt))).
  assert (Hev : Nat.Even (length pt)) by apply length_prepare_text_even.
  assert (Hup : forallb ascii_upper pt = true)
    by (apply prepare_text_ascii_upper; assumption).
  assert (Hlen : len ct = len pt).
  { unfold len, ct. rewrite length_hill_result by assumption. reflexivity. }
  assert (Hpc : prepare_text ct = ct).
  { destruct (letters_of_upper (map (apply2 a b c d) (vectors_of pt)))
      as [Hu He'']; [apply apply2_positions, vectors_of_pairs|].
    apply prepare_text_fixed; assumption. }
  assert (Hpp : prepare_text pt = pt) by (apply prepare_text_fixed; assumption).
  (* the first invertible offset *)
  destruct (first_true (invertible_at pt) _ Hex)
    as (before & pos & after & Hsplit & Hbefore & Hinv).
  assert (Hpos : In pos (range 0 (len pt - 3) 2))
    by (rewrite Hsplit; apply in_or_app; right; left; reflexivity).
  pose proof (in_range2 _ _ Hpos) as [Hr Hj].
  assert (Hb : Forall (fun q => 0 <= q /\ q + 4 <= len pt /\ q + 4 <= len ct /\
                                invertible_at pt q = false) before).
  { apply Forall_forall. intros q Hq. rewrite Forall_forall in Hbefore.
    specialize (Hbefore q Hq). apply list_elem_of_In in Hq.
    assert (Hq' : In q (range 0 (len pt - 3) 2))
      by (rewrite Hsplit; apply in_or_app; left; assumption).
    apply in_range2 in Hq' as [Hq' _]. repeat split; try assumption; lia. }
  (* the candidate of that offset *)
  destruct (window_4 pt pos) as (p0 & p1 & p2 & p3 & Ep); [lia|lia|].
  pose proof (cipher_window a b c d pt pos p0 p1 p2 p3 ltac:(lia) Hj ltac:(lia) Ep)
    as Ec. fold ct in Ec.
  destruct (try_crack_accepts pt ct pos) as
    (cand & Pinv & k00 & k01 & k10 & k11 & Htry & _ & _ & _ & HP & HC &
     HPinv & _ & HK & _); try assumption; try lia.
  rewrite Ep, window_matrix_4 in HP. injection HP as HP.
  rewrite Ec, window_matrix_4 in HC. injection HC as HC.
  rewrite <- HP, matrix_inverse_2x2 in HPinv.
  destruct (mod_inverse_26 (((p0 - 65) * (p3 - 65) - (p2 - 65) * (p1 - 65)) mod 26))
    as [(_ & v & Ev & _ & Hv) | (_ & Ev)]; rewrite Ev in HPinv;
    [|discriminate HPinv].
  injection HPinv as HPinv.
  rewrite <- HC, <- HPinv, recovered_key in HK by exact Hv.
  injection HK as HK.
  (* the verification *)
  assert (Hg' : gcd ((a mod 26 * (d mod 26) - b mod 26 * (c mod 26)) mod 26) 26 = 1).
  { rewrite <- (det_congruent a b c d) by (rewrite Z.mod_mod by lia; reflexivity).
    assumption. }
  destruct (hill_encrypt_eq (a mod 26) (b mod 26) (c mod 26) (d mod 26) pt Hg')
    as (vsteps & vinv & Hver).
  rewrite Hpp in Hver.
  assert (Hsame : letters_of (map (apply2 (a mod 26) (b mod 26) (c mod 26) (d mod 26))
                                  (vectors_of pt)) = ct).
  { unfold ct. f_equal. apply map_ext. intros w.
    apply apply2_congruent; rewrite Z.mod_mod by lia; reflexivity. }
  rewrite Hsame in Hver.
  (* the run of [crack] *)
  assert (Hcrack : exists r, crack T ct = Ok (CrackFound r) /\ success r = true /\
                             found_key_matrix r = cand_key_matrix cand).
  { unfold crack. cbv zeta. fold pt. rewrite Hpc.
    replace ((len pt <? 4) || (len ct <? 4)) with false by (cmp_lia; reflexivity).
    rewrite Hlen, Z.min_id.
    replace (slice ct 0 (len pt)) with ct by (rewrite <- Hlen, slice_full; reflexivity).
    rewrite slice_full.
    rewrite Hsplit.
    rewrite (search_accepts pt ct before pos cand Hb Htry after []).
    cbn [bind app]. rewrite show_search_accepted. cbn [bind].
    rewrite <- HK, Hver. cbn [bind get_result result].
    eexists. split; [reflexivity|]. cbn [success found_key_matrix].
    split; [apply bool_decide_eq_true_2; reflexivity|reflexivity]. }
  destruct Hcrack as (r & Hr1 & Hr2 & Hr3). exists r.
  split; [reflexivity|]. split; [exact Hr1|]. split; [exact Hr2|].
  rewrite Hr3, <- HK. reflexivity.
Qed.

Lemma hill_crack_recovers_key_witness :
  exists e r,
    encrypt (str "aaaa, help me!") [[3; 3]; [2; 5]] = Ok (Done e) /\
    crack (str "aaaa, help me!") (result e) = Ok (CrackFound r) /\
    success r = true /\
    found_key_matrix r = [[3 mod 26; 3 mod 26]; [2 mod 26; 5 mod 26]].
Proof.
  apply (hill_crack_recovers_key 3 3 2 5 (str "aaaa, help me!"));
    [reflexivity | reflexivity |].
  exists 4. split; [vm_compute; right; right; left; reflexivity|].
  vm_compute. reflexivity.
Defined.

End CrackMore.
